(** * Drive-Thru Optimizer: the simulation and decision core of [bad_2.js]

    A shallow embedding of the queueing core of the application (lane
    advisor, spot allocator, rebalancer, Erlang-C estimator, the engine's
    [step] and the hook [useSimulation] that runs it) together with the
    properties stated for it, and of the advice panel of [App] and the
    car animation of [CanvasMap] with further properties of the code.

    Numbers.  JavaScript numbers are modelled by [num]: an exact rational,
    one of the two infinities, or NaN.  The arithmetic follows IEEE 754 on
    exact values: rounding, overflow and the sign of zero are not
    modelled (a zero divisor behaves as +0).  Values that the program
    only ever holds as finite numbers (slider parameters, coordinates,
    time stamps) are rationals [Q]; server counts, which the controls
    round with [Math.round], are integers [Z]; array lengths and counters
    that start at 0 and are only incremented are [nat].  Where overflow
    or underflow decides what the estimator returns, the module
    [Binary64] evaluates the same code on binary64 numbers. *)

From Stdlib Require Import ZArith QArith Qpower Qabs Qround Qminmax Lia Lqa Psatz.
From Stdlib Require Import List Bool String Arith Factorial Permutation Sorted.
From Stdlib Require Import DecimalString DecimalNat.
From Stdlib Require Import Uint63 Floats.
Import ListNotations.

Local Open Scope Q_scope.

(* ================================================================== *)
(** ** JavaScript numbers *)

Module JS.

Inductive num : Type :=
| Fin (q : Q)
| PInf
| NInf
| NaN.

Definition Qltb (a b : Q) : bool := negb (Qle_bool b a).

Definition of_Z (z : Z) : num := Fin (inject_Z z).
Definition of_nat (n : nat) : num := Fin (inject_Z (Z.of_nat n)).

Definition neg (x : num) : num :=
  match x with
  | Fin a => Fin (- a)
  | PInf => NInf
  | NInf => PInf
  | NaN => NaN
  end.

Definition add (x y : num) : num :=
  match x, y with
  | NaN, _ | _, NaN => NaN
  | Fin a, Fin b => Fin (a + b)
  | PInf, NInf | NInf, PInf => NaN
  | PInf, _ | _, PInf => PInf
  | NInf, _ | _, NInf => NInf
  end.

Definition sub (x y : num) : num := add x (neg y).

(** The infinity with the sign of [a], or NaN when [a] is zero. *)
Definition signed_inf (a : Q) : num :=
  if Qeq_bool a 0 then NaN else if Qltb 0 a then PInf else NInf.

Definition mul (x y : num) : num :=
  match x, y with
  | NaN, _ | _, NaN => NaN
  | Fin a, Fin b => Fin (a * b)
  | Fin a, PInf | PInf, Fin a => signed_inf a
  | Fin a, NInf | NInf, Fin a => signed_inf (- a)
  | PInf, PInf | NInf, NInf => PInf
  | PInf, NInf | NInf, PInf => NInf
  end.

Definition div (x y : num) : num :=
  match x, y with
  | NaN, _ | _, NaN => NaN
  | Fin a, Fin b => if Qeq_bool b 0 then signed_inf a else Fin (a / b)
  | Fin _, PInf | Fin _, NInf => Fin 0
  | PInf, Fin b => if Qltb b 0 then NInf else PInf
  | NInf, Fin b => if Qltb b 0 then PInf else NInf
  | PInf, PInf | PInf, NInf | NInf, PInf | NInf, NInf => NaN
  end.

(** [x < y], [x <= y]: false as soon as one side is NaN. *)
Definition ltb (x y : num) : bool :=
  match x, y with
  | NaN, _ | _, NaN => false
  | Fin a, Fin b => Qltb a b
  | NInf, Fin _ | NInf, PInf | Fin _, PInf => true
  | _, _ => false
  end.

Definition leb (x y : num) : bool :=
  match x, y with
  | NaN, _ | _, NaN => false
  | Fin a, Fin b => Qle_bool a b
  | NInf, _ | _, PInf => true
  | _, _ => false
  end.

Definition gtb (x y : num) : bool := ltb y x.
Definition geb (x y : num) : bool := leb y x.

(** [Math.max] of two numbers. *)
Definition max (x y : num) : num :=
  match x, y with
  | NaN, _ | _, NaN => NaN
  | _, _ => if ltb x y then y else x
  end.

(** [Math.pow(x, k)] for an integer exponent [k >= 0]:
    [Math.pow(x, 0)] is 1 for every [x], NaN included. *)
Fixpoint pow (x : num) (k : nat) : num :=
  match k with
  | O => Fin 1
  | S k' => mul x (pow x k')
  end.

(** Two numbers are the same value: rationals up to [Qeq]. *)
Definition eqv (x y : num) : Prop :=
  match x, y with
  | Fin a, Fin b => a == b
  | PInf, PInf | NInf, NInf | NaN, NaN => True
  | _, _ => False
  end.

Definition is_nan (x : num) : bool :=
  match x with NaN => true | _ => false end.

End JS.

Import JS.

Declare Scope num_scope.
Delimit Scope num_scope with num.
Bind Scope num_scope with num.
Infix "+" := JS.add : num_scope.
Infix "-" := JS.sub : num_scope.
Infix "*" := JS.mul : num_scope.
Infix "/" := JS.div : num_scope.
Infix "<?" := JS.ltb : num_scope.
Infix "<=?" := JS.leb : num_scope.
Infix ">?" := JS.gtb : num_scope.
Infix ">=?" := JS.geb : num_scope.
Infix "~=" := JS.eqv (at level 70, no associativity) : num_scope.

(* ================================================================== *)
(** ** Analytic estimator: [fact], [erlangC], [expectedWaitMinutes] *)

(** [function fact(n) { let r = 1; for (let i = 2; i <= n; i++) r *= i; return r; }] *)
Fixpoint fact_loop (iters : nat) (i r : Z) : Z :=
  match iters with
  | O => r
  | S iters' => fact_loop iters' (i + 1)%Z (r * i)%Z
  end.

Definition fact (n : Z) : Z := fact_loop (Z.to_nat (n - 1)) 2%Z 1%Z.

(** The loop [for (k = 0; k < s; k++) sum += Math.pow(lam / mu, k) / fact(k)],
    with [iters] iterations left and the counter at [k]. *)
Fixpoint erlang_sum_loop (iters : nat) (k : nat) (lam mu : num) (sum : num) : num :=
  match iters with
  | O => sum
  | S iters' =>
      erlang_sum_loop iters' (S k) lam mu
        (sum + JS.pow (lam / mu) k / of_Z (fact (Z.of_nat k)))%num
  end.

Definition erlangC (lam mu : num) (s : Z) : num :=
  if (of_Z s <=? Fin 0)%num || (mu <=? Fin 0)%num then Fin 1 else
  let rho := (lam / (of_Z s * mu))%num in
  if (rho >=? Fin 1)%num then Fin 1 else
  let sum := erlang_sum_loop (Z.to_nat s) 0 lam mu (Fin 0) in
  let ps :=
    ((JS.pow (lam / mu) (Z.to_nat s) / (of_Z (fact s) * (Fin 1 - rho)))
     * (Fin 1 / (sum + (JS.pow (lam / mu) (Z.to_nat s) / (of_Z (fact s) * (Fin 1 - rho))))))%num in
  ps.

Definition expectedWaitMinutes (lam mu : num) (s : Z) : num :=
  if (of_Z s <=? Fin 0)%num || (mu <=? Fin 0)%num then PInf else
  let C := erlangC lam mu s in
  let rho := (lam / (of_Z s * mu))%num in
  if (rho >=? Fin 1)%num then PInf else
  (C / (of_Z s * mu - lam))%num.

(** *** The estimator on binary64 numbers

    The same three functions on IEEE 754 binary64 numbers, every
    operation rounded to nearest as in JavaScript.  [Math.pow] is the
    host's and only approximated by the standard; here it is the product
    of [k] factors, each product rounded, which is the exact power where
    that is a binary64 number (the powers of 0.5) and [Infinity] where the
    power is beyond the largest binary64 number. *)
Module Binary64.

Definition of_Z (z : Z) : float :=
  if (z <? 0)%Z then (- PrimFloat.of_uint63 (Uint63.of_Z (- z)))%float
  else PrimFloat.of_uint63 (Uint63.of_Z z).

Fixpoint pow (x : float) (k : nat) : float :=
  match k with
  | O => 1%float
  | S k' => (x * pow x k')%float
  end.

Fixpoint fact_loop (iters : nat) (i r : float) : float :=
  match iters with
  | O => r
  | S iters' => fact_loop iters' (i + 1)%float (r * i)%float
  end.

Definition fact (n : Z) : float := fact_loop (Z.to_nat (n - 1)) 2%float 1%float.

Fixpoint erlang_sum_loop (iters : nat) (k : nat) (lam mu : float) (sum : float) : float :=
  match iters with
  | O => sum
  | S iters' =>
      erlang_sum_loop iters' (S k) lam mu
        (sum + pow (lam / mu) k / fact (Z.of_nat k))%float
  end.

Definition erlangC (lam mu : float) (s : Z) : float :=
  if (of_Z s <=? 0)%float || (mu <=? 0)%float then 1%float else
  let rho := (lam / (of_Z s * mu))%float in
  if (1 <=? rho)%float then 1%float else
  let sum := erlang_sum_loop (Z.to_nat s) 0 lam mu 0%float in
  let ps :=
    ((pow (lam / mu) (Z.to_nat s) / (fact s * (1 - rho)))
     * (1 / (sum + (pow (lam / mu) (Z.to_nat s) / (fact s * (1 - rho))))))%float in
  ps.

Definition expectedWaitMinutes (lam mu : float) (s : Z) : float :=
  if (of_Z s <=? 0)%float || (mu <=? 0)%float then infinity else
  let C := erlangC lam mu s in
  let rho := (lam / (of_Z s * mu))%float in
  if (1 <=? rho)%float then infinity else
  (C / (of_Z s * mu - lam))%float.

End Binary64.

(* ================================================================== *)
(** ** Data model *)

Inductive Lane : Type := LaneA | LaneB.

(** The four staffed stages, the keys of [pressure] and [stages] in
    [rebalanceServers]. *)
Inductive Stage : Type := orderA | orderB | pay | pickup.

Definition Stage_eqb (a b : Stage) : bool :=
  match a, b with
  | orderA, orderA | orderB, orderB | pay, pay | pickup, pickup => true
  | _, _ => false
  end.

(** [params]; [orderServers: { A, B }] is flattened into two fields. *)
Record Params : Type := mkParams {
  arrivalRate : Q;
  mobileShare : Q;
  divertThresholdMin : Q;
  orderRate : Q;
  payRate : Q;
  pickupRate : Q;
  orderServersA : Z;
  orderServersB : Z;
  payServers : Z;
  pickupServers : Z;
  autoRebalance : bool
}.

(** A vehicle.  [car_obj] is the identity of the JavaScript object (the
    allocation number of the object literal that created it); the other
    fields are the object's properties, [None] while a property is unset.
    [progress: { order, pay, pickup }] is flattened. *)
Record Car : Type := mkCar {
  car_obj : nat;
  car_id : string;
  arrival : Q;
  isMobile : bool;
  progress_order : option Q;
  progress_pay : option Q;
  progress_pickup : option Q;
  parkingSpotId : option string;
  car_state : option string;
  car_lane : option Lane;
  readyAt : option Q
}.

(** [queues]; [order: { A, B }] is flattened. *)
Record Queues : Type := mkQueues {
  q_orderA : list Car;
  q_orderB : list Car;
  q_pay : list Car;
  q_pickup : list Car;
  q_curbside : list Car
}.

Record Spot : Type := mkSpot {
  spot_id : string;
  spot_x : Q;
  spot_y : Q;
  occupied : bool;
  reserved : bool;
  exitFriction : Q;
  localCongestion : Q;
  backIn : bool
}.

Record Point : Type := mkPoint { pt_x : Q; pt_y : Q }.

(** The weights [w] of [chooseParkingSpot]: whatever numbers the caller
    passes, so they are [num]s. *)
Record Weights : Type := mkWeights {
  w_dist : num; w_exit : num; w_cong : num; w_angle : num
}.

(** The [opts] argument of [chooseParkingSpot]: each property may be
    missing, and the argument itself may be missing. *)
Record Opts : Type := mkOpts {
  opt_entrance : option Point;
  opt_w : option Weights
}.

(** [sys = { queues, params }]. *)
Record Sys : Type := mkSys { sys_queues : Queues; sys_params : Params }.

Definition order_queue (q : Queues) (L : Lane) : list Car :=
  match L with LaneA => q_orderA q | LaneB => q_orderB q end.

Definition orderServers (p : Params) (L : Lane) : Z :=
  match L with LaneA => orderServersA p | LaneB => orderServersB p end.

(* ================================================================== *)
(** ** Lane advisor *)

(** [(q, rate, servers) => (rate <= 0 || servers <= 0 ? Infinity : q / (rate * servers))] *)
Definition predictedQueueTime (q : nat) (rate : Q) (servers : Z) : num :=
  if (Fin rate <=? Fin 0)%num || (of_Z servers <=? Fin 0)%num then PInf
  else (of_nat q / (Fin rate * of_Z servers))%num.

Definition mobileFactor (isMobile : bool) : Q := if isMobile then 55 # 100 else 1.

(** [total] of the loop body of [chooseBestLane] for lane [L]. *)
Definition lane_total (sys : Sys) (isMobile : bool) (L : Lane) : num :=
  let tOrder := predictedQueueTime (List.length (order_queue (sys_queues sys) L))
                  (orderRate (sys_params sys)) (orderServers (sys_params sys) L) in
  let tPay := predictedQueueTime (List.length (q_pay (sys_queues sys)))
                (payRate (sys_params sys)) (payServers (sys_params sys)) in
  let tPickup := predictedQueueTime (List.length (q_pickup (sys_queues sys)))
                   (pickupRate (sys_params sys)) (pickupServers (sys_params sys)) in
  (tOrder * Fin (mobileFactor isMobile) + tPay + tPickup)%num.

(** The loop [for (const L of lanes)] with its two variables. *)
Fixpoint lane_loop (sys : Sys) (isMobile : bool) (lanes : list Lane)
    (best : Lane) (bestTime : num) : Lane * num :=
  match lanes with
  | [] => (best, bestTime)
  | L :: rest =>
      let total := lane_total sys isMobile L in
      if (total <? bestTime)%num then lane_loop sys isMobile rest L total
      else lane_loop sys isMobile rest best bestTime
  end.

(** Returns [{ lane: best, eta: bestTime }] as the pair [(lane, eta)]. *)
Definition chooseBestLane (sys : Sys) (isMobile : bool) : Lane * num :=
  let lanes := [LaneA; LaneB] in
  lane_loop sys isMobile lanes LaneA PInf.

(* ================================================================== *)
(** ** Rebalancer *)

(** [const util = (q, rate, s) => (s > 0 ? q / (rate * s + 1e-6) : Infinity)] *)
Definition util (q : nat) (rate : Q) (s : Z) : num :=
  if (of_Z s >? Fin 0)%num
  then (of_nat q / (Fin rate * of_Z s + Fin (1 # 1000000)))%num
  else PInf.

Definition pressure (sys : Sys) : list (Stage * num) :=
  let q := sys_queues sys in
  let p := sys_params sys in
  [ (orderA, util (List.length (q_orderA q)) (orderRate p) (orderServersA p));
    (orderB, util (List.length (q_orderB q)) (orderRate p) (orderServersB p));
    (pay, util (List.length (q_pay q)) (payRate p) (payServers p));
    (pickup, util (List.length (q_pickup q)) (pickupRate p) (pickupServers p)) ].

(** [Array.prototype.sort(comparefn)]: a stable sort; [a] is moved behind
    [b] when [comparefn(a, b) > 0], and a NaN result counts as 0.  Modelled
    by the stable insertion sort. *)
Section JsSort.

Context {A : Type} (comparefn : A -> A -> num).

Fixpoint sort_insert (x : A) (l : list A) : list A :=
  match l with
  | [] => [x]
  | y :: l' =>
      if (comparefn y x >? Fin 0)%num then x :: y :: l'
      else y :: sort_insert x l'
  end.

Definition js_sort (l : list A) : list A :=
  fold_left (fun acc x => sort_insert x acc) l [].

End JsSort.

(** The accessors [stages[name]().get()] and [.set(v)]. *)
Definition stage_get (p : Params) (name : Stage) : Z :=
  match name with
  | orderA => orderServersA p
  | orderB => orderServersB p
  | pay => payServers p
  | pickup => pickupServers p
  end.

Definition stage_set (p : Params) (name : Stage) (v : Z) : Params :=
  match name with
  | orderA => mkParams (arrivalRate p) (mobileShare p) (divertThresholdMin p)
                (orderRate p) (payRate p) (pickupRate p)
                v (orderServersB p) (payServers p) (pickupServers p) (autoRebalance p)
  | orderB => mkParams (arrivalRate p) (mobileShare p) (divertThresholdMin p)
                (orderRate p) (payRate p) (pickupRate p)
                (orderServersA p) v (payServers p) (pickupServers p) (autoRebalance p)
  | pay => mkParams (arrivalRate p) (mobileShare p) (divertThresholdMin p)
                (orderRate p) (payRate p) (pickupRate p)
                (orderServersA p) (orderServersB p) v (pickupServers p) (autoRebalance p)
  | pickup => mkParams (arrivalRate p) (mobileShare p) (divertThresholdMin p)
                (orderRate p) (payRate p) (pickupRate p)
                (orderServersA p) (orderServersB p) (payServers p) v (autoRebalance p)
  end.

Definition stage_min (name : Stage) : Z := 1.

(** The loop [for (const [name] of entries.slice().reverse())], over the
    names still to visit.  The result is the returned value ([None] for
    [null], [(from, to)] otherwise) and the parameters after the call. *)
Fixpoint rebalance_loop (hottest : Stage) (names : list Stage) (p : Params)
    : option (Stage * Stage) * Params :=
  match names with
  | [] => (None, p)
  | name :: rest =>
      if Stage_eqb name hottest then rebalance_loop hottest rest p
      else if (stage_min name <? stage_get p name)%Z then
        let p1 := stage_set p name (stage_get p name - 1)%Z in
        let p2 := stage_set p1 hottest (stage_get p1 hottest + 1)%Z in
        (Some (name, hottest), p2)
      else rebalance_loop hottest rest p
  end.

Definition sorted_entries (sys : Sys) : list (Stage * num) :=
  js_sort (fun a b => (snd b - snd a)%num) (pressure sys).

(** [rebalanceServers(sys)].  [entries] always holds the four stages, so
    [entries[0]] exists; the first branch is there for totality only. *)
Definition rebalanceServers (sys : Sys) : option (Stage * Stage) * Params :=
  let entries := sorted_entries sys in
  match entries with
  | [] => (None, sys_params sys)
  | (hottest, _) :: _ =>
      rebalance_loop hottest (rev (map fst entries)) (sys_params sys)
  end.

Definition total_servers (p : Params) : Z :=
  (orderServersA p + orderServersB p + payServers p + pickupServers p)%Z.

(* ================================================================== *)
(** ** Engine state *)

Record HistoryEntry : Type := mkHistoryEntry {
  h_t : Q; h_wip : nat; h_wait : Q
}.

(** [metrics.current]. *)
Record Metrics : Type := mkMetrics {
  arrivals : nat;
  served : nat;
  parked : nat;
  avgWait : Q;
  maxWip : nat;
  history : list HistoryEntry
}.

(** Everything [step] reads and writes.  [rng] counts the calls of
    [Math.random] made so far and [heap] the car objects created so far. *)
Record State : Type := mkState {
  queues : Queues;
  params : Params;
  spots : list Spot;
  metrics : Metrics;
  nextArrival : num;
  orderClockA : num;
  orderClockB : num;
  payClock : num;
  pickupClock : num;
  rng : nat;
  heap : nat
}.

Definition set_queues (st : State) (q : Queues) : State :=
  mkState q (params st) (spots st) (metrics st) (nextArrival st)
    (orderClockA st) (orderClockB st) (payClock st) (pickupClock st) (rng st) (heap st).

Definition set_params (st : State) (p : Params) : State :=
  mkState (queues st) p (spots st) (metrics st) (nextArrival st)
    (orderClockA st) (orderClockB st) (payClock st) (pickupClock st) (rng st) (heap st).

Definition set_spots (st : State) (s : list Spot) : State :=
  mkState (queues st) (params st) s (metrics st) (nextArrival st)
    (orderClockA st) (orderClockB st) (payClock st) (pickupClock st) (rng st) (heap st).

Definition set_metrics (st : State) (m : Metrics) : State :=
  mkState (queues st) (params st) (spots st) m (nextArrival st)
    (orderClockA st) (orderClockB st) (payClock st) (pickupClock st) (rng st) (heap st).

Definition set_nextArrival (st : State) (v : num) : State :=
  mkState (queues st) (params st) (spots st) (metrics st) v
    (orderClockA st) (orderClockB st) (payClock st) (pickupClock st) (rng st) (heap st).

Definition orderClock (st : State) (L : Lane) : num :=
  match L with LaneA => orderClockA st | LaneB => orderClockB st end.

Definition set_orderClock (st : State) (L : Lane) (v : num) : State :=
  match L with
  | LaneA => mkState (queues st) (params st) (spots st) (metrics st) (nextArrival st)
               v (orderClockB st) (payClock st) (pickupClock st) (rng st) (heap st)
  | LaneB => mkState (queues st) (params st) (spots st) (metrics st) (nextArrival st)
               (orderClockA st) v (payClock st) (pickupClock st) (rng st) (heap st)
  end.

Definition set_payClock (st : State) (v : num) : State :=
  mkState (queues st) (params st) (spots st) (metrics st) (nextArrival st)
    (orderClockA st) (orderClockB st) v (pickupClock st) (rng st) (heap st).

Definition set_pickupClock (st : State) (v : num) : State :=
  mkState (queues st) (params st) (spots st) (metrics st) (nextArrival st)
    (orderClockA st) (orderClockB st) (payClock st) v (rng st) (heap st).

Definition set_rng (st : State) (n : nat) : State :=
  mkState (queues st) (params st) (spots st) (metrics st) (nextArrival st)
    (orderClockA st) (orderClockB st) (payClock st) (pickupClock st) n (heap st).

Definition set_heap (st : State) (n : nat) : State :=
  mkState (queues st) (params st) (spots st) (metrics st) (nextArrival st)
    (orderClockA st) (orderClockB st) (payClock st) (pickupClock st) (rng st) n.

Definition set_order_queue (q : Queues) (L : Lane) (l : list Car) : Queues :=
  match L with
  | LaneA => mkQueues l (q_orderB q) (q_pay q) (q_pickup q) (q_curbside q)
  | LaneB => mkQueues (q_orderA q) l (q_pay q) (q_pickup q) (q_curbside q)
  end.

Definition set_pay (q : Queues) (l : list Car) : Queues :=
  mkQueues (q_orderA q) (q_orderB q) l (q_pickup q) (q_curbside q).

Definition set_pickup (q : Queues) (l : list Car) : Queues :=
  mkQueues (q_orderA q) (q_orderB q) (q_pay q) l (q_curbside q).

Definition set_curbside (q : Queues) (l : list Car) : Queues :=
  mkQueues (q_orderA q) (q_orderB q) (q_pay q) (q_pickup q) l.

(** [array.push(x)] and [array.shift()]. *)
Definition push {A : Type} (l : list A) (x : A) : list A := l ++ [x].

Definition shift {A : Type} (l : list A) : option (A * list A) :=
  match l with
  | [] => None
  | x :: rest => Some (x, rest)
  end.

(** Property assignments on a car object. *)
Definition car_set_lane (c : Car) (L : Lane) : Car :=
  mkCar (car_obj c) (car_id c) (arrival c) (isMobile c) (progress_order c)
    (progress_pay c) (progress_pickup c) (parkingSpotId c) (car_state c) (Some L) (readyAt c).

Definition car_set_curbside (c : Car) (spotId : string) : Car :=
  mkCar (car_obj c) (car_id c) (arrival c) (isMobile c) (progress_order c)
    (progress_pay c) (progress_pickup c) (Some spotId) (Some "curbside"%string)
    (car_lane c) (readyAt c).

Definition car_set_progress_order (c : Car) (t : Q) : Car :=
  mkCar (car_obj c) (car_id c) (arrival c) (isMobile c) (Some t)
    (progress_pay c) (progress_pickup c) (parkingSpotId c) (car_state c) (car_lane c) (readyAt c).

Definition car_set_progress_pay (c : Car) (t : Q) : Car :=
  mkCar (car_obj c) (car_id c) (arrival c) (isMobile c) (progress_order c)
    (Some t) (progress_pickup c) (parkingSpotId c) (car_state c) (car_lane c) (readyAt c).

Definition car_set_progress_pickup (c : Car) (t : Q) : Car :=
  mkCar (car_obj c) (car_id c) (arrival c) (isMobile c) (progress_order c)
    (progress_pay c) (Some t) (parkingSpotId c) (car_state c) (car_lane c) (readyAt c).

Definition car_set_readyAt (c : Car) (t : Q) : Car :=
  mkCar (car_obj c) (car_id c) (arrival c) (isMobile c) (progress_order c)
    (progress_pay c) (progress_pickup c) (parkingSpotId c) (car_state c) (car_lane c) (Some t).

Definition spot_set_occupied (s : Spot) (b : bool) : Spot :=
  mkSpot (spot_id s) (spot_x s) (spot_y s) b (reserved s)
    (exitFriction s) (localCongestion s) (backIn s).

(** [spots[i].occupied = b]; the array is left alone when [i] is out of range. *)
Fixpoint occupy_at (i : nat) (b : bool) (l : list Spot) : list Spot :=
  match l, i with
  | [], _ => []
  | s :: rest, O => spot_set_occupied s b :: rest
  | s :: rest, S i' => s :: occupy_at i' b rest
  end.

(** [const s = spots.find((x) => x.id === id); if (s) s.occupied = false]. *)
Fixpoint release_spot (id : string) (l : list Spot) : list Spot :=
  match l with
  | [] => []
  | s :: rest =>
      if String.eqb (spot_id s) id then spot_set_occupied s false :: rest
      else s :: release_spot id rest
  end.

(** [metrics.current.served++; const w = ...; m.avgWait = (m.avgWait * (m.served - 1) + w) / m.served]. *)
Definition recordCompletion (m : Metrics) (w : Q) : Metrics :=
  let served' := S (served m) in
  mkMetrics (arrivals m) served' (parked m)
    ((avgWait m * (inject_Z (Z.of_nat served') - 1) + w) / inject_Z (Z.of_nat served'))
    (maxWip m) (history m).

Definition wip_of (q : Queues) : nat :=
  (List.length (q_orderA q) + List.length (q_orderB q) + List.length (q_pay q)
   + List.length (q_pickup q) + List.length (q_curbside q))%nat.

(* ================================================================== *)
(** ** Spot allocator and engine, over the host's [Math] functions *)

Section Engine.

(** [Math.hypot], [Math.log] and [Number.prototype.toString(36)] are the
    host's; [random_stream n] is the value of the [n]-th call of
    [Math.random] (counting from 0). *)
Variable hypot : Q -> Q -> Q.
Variable log : Q -> num.
Variable toString36 : Q -> string.
Variable random_stream : nat -> Q.

(** [Math.random()]. *)
Definition random (st : State) : Q * State :=
  (random_stream (rng st), set_rng st (S (rng st))).

(** [const rand = (min, max) => min + Math.random() * (max - min)],
    applied to the value [u] of the [Math.random()] call. *)
Definition rand (min max u : Q) : Q := min + u * (max - min).

(** [const uid = () => Math.random().toString(36).slice(2, 9)], applied to
    the value [u] of the call. *)
Definition uid (u : Q) : string := substring 2 7 (toString36 u).

(** [const exp = (ratePerMin) => (ratePerMin <= 0 ? Infinity : -Math.log(1 - Math.random()) / ratePerMin)] *)
Definition exp (ratePerMin : Q) (st : State) : num * State :=
  if (Fin ratePerMin <=? Fin 0)%num then (PInf, st)
  else
    let (u, st1) := random st in
    ((JS.neg (log (1 - u)) / Fin ratePerMin)%num, st1).

(** *** [chooseParkingSpot] *)

Definition default_entrance : Point := mkPoint 6 70.
Definition default_w : Weights :=
  mkWeights (Fin 1) (Fin (6 # 10)) (Fin (8 # 10)) (Fin (2 # 10)).

Definition entrance_of (opts : option Opts) : Point :=
  match opts with
  | Some o => match opt_entrance o with Some e => e | None => default_entrance end
  | None => default_entrance
  end.

Definition w_of (opts : option Opts) : Weights :=
  match opts with
  | Some o => match opt_w o with Some w => w | None => default_w end
  | None => default_w
  end.

Definition spot_score (entrance : Point) (w : Weights) (s : Spot) : num :=
  let dx := spot_x s - pt_x entrance in
  let dy := spot_y s - pt_y entrance in
  let dist := hypot dx dy in
  (w_dist w * Fin dist + w_exit w * Fin (exitFriction s) + w_cong w * Fin (localCongestion s)
   + w_angle w * Fin (if backIn s then 7 # 10 else 0))%num.

(** The loop [for (const s of spots)]: [i] is the index of the head of
    [rest] in the array, [best] the index and value of the best spot so far. *)
Fixpoint spot_loop (entrance : Point) (w : Weights) (i : nat) (rest : list Spot)
    (best : option (nat * Spot)) (bestScore : num) : option (nat * Spot) :=
  match rest with
  | [] => best
  | s :: rest' =>
      if occupied s || reserved s then spot_loop entrance w (S i) rest' best bestScore
      else
        let score := spot_score entrance w s in
        if (score <? bestScore)%num
        then spot_loop entrance w (S i) rest' (Some (i, s)) score
        else spot_loop entrance w (S i) rest' best bestScore
  end.

(** The returned spot object is given by its index in [spots] together
    with its value; [None] is [null]. *)
Definition chooseParkingSpot (spots : list Spot) (opts : option Opts) : option (nat * Spot) :=
  spot_loop (entrance_of opts) (w_of opts) 0 spots None PInf.

(** *** [step]: arrivals *)

(** The car object literal of an arrival: [uid()] and the mobile draw are
    the next two values of [Math.random]. *)
Definition new_car (now : Q) (st : State) : Car * State :=
  let (u_id, st1) := random st in
  let (u_mobile, st2) := random st1 in
  (mkCar (heap st2) (uid u_id) now (Qltb u_mobile (mobileShare (params st2)))
     None None None None None None None,
   set_heap st2 (S (heap st2))).

(** [car.lane = lane; queues.order[lane].push(car)]. *)
Definition join_lane (car : Car) (lane : Lane) (st : State) : State :=
  let car' := car_set_lane car lane in
  set_queues st (set_order_queue (queues st) lane (push (order_queue (queues st) lane) car')).

(** [spot.occupied = true; car.parkingSpotId = spot.id; car.state = "curbside";
    queues.curbside.push(car); metrics.current.parked++], for the spot
    object at index [i]. *)
Definition park (car : Car) (i : nat) (spot : Spot) (st : State) : State :=
  let s1 := set_spots st (occupy_at i true (spots st)) in
  let car' := car_set_curbside car (spot_id spot) in
  let s2 := set_queues s1 (set_curbside (queues s1) (push (q_curbside (queues s1)) car')) in
  let m := metrics s2 in
  set_metrics s2
    (mkMetrics (arrivals m) (served m) (S (parked m)) (avgWait m) (maxWip m) (history m)).

(** The body of [while (nextArrival.current <= 0)] up to the routing of
    the car. *)
Definition admit_route (now : Q) (st : State) : State :=
  let (car, st1) := new_car now st in
  let m := metrics st1 in
  let st2 := set_metrics st1
               (mkMetrics (S (arrivals m)) (served m) (parked m) (avgWait m) (maxWip m) (history m)) in
  let sys := mkSys (queues st2) (params st2) in
  let (lane, eta) := chooseBestLane sys (isMobile car) in
  if (eta >? Fin (divertThresholdMin (params st2)))%num then
    match chooseParkingSpot (spots st2) (Some (mkOpts (Some (mkPoint 6 70)) None)) with
    | Some (i, spot) => park car i spot st2
    | None => join_lane car lane st2
    end
  else join_lane car lane st2.

(** The whole body: the routing, then
    [nextArrival.current += exp(params.arrivalRate / 60)]. *)
Definition admit_arrival (now : Q) (st : State) : State :=
  let st1 := admit_route now st in
  let (gap, st2) := exp (arrivalRate (params st1) / 60) st1 in
  set_nextArrival st2 (nextArrival st2 + gap)%num.

(** [while (nextArrival.current <= 0) { ... }]; [None] when [fuel]
    iterations did not end the loop. *)
Fixpoint arrivals_loop (fuel : nat) (now : Q) (st : State) : option State :=
  if (nextArrival st <=? Fin 0)%num then
    match fuel with
    | O => None
    | S fuel' => arrivals_loop fuel' now (admit_arrival now st)
    end
  else Some st.

(** *** [step]: service stages *)

Definition order_service (dt now : Q) (L : Lane) (st : State) : State :=
  let servers := orderServers (params st) L in
  if (0 <? List.length (order_queue (queues st) L))%nat && (of_Z servers >? Fin 0)%num then
    let st1 := set_orderClock st L (orderClock st L - Fin dt * of_Z servers)%num in
    if (orderClock st1 L <=? Fin 0)%num then
      match shift (order_queue (queues st1) L) with
      | Some (car, rest) =>
          let car' := car_set_progress_order car now in
          let q1 := set_order_queue (queues st1) L rest in
          let q2 := set_pay q1 (push (q_pay q1) car') in
          set_orderClock (set_queues st1 q2) L (Fin 1 / Fin (orderRate (params st1)))%num
      | None => st1
      end
    else st1
  else
    set_orderClock st L (JS.max (orderClock st L) (Fin 1 / Fin (orderRate (params st)))%num).

Definition pay_service (dt now : Q) (st : State) : State :=
  if (0 <? List.length (q_pay (queues st)))%nat && (of_Z (payServers (params st)) >? Fin 0)%num then
    let st1 := set_payClock st (payClock st - Fin dt * of_Z (payServers (params st)))%num in
    if (payClock st1 <=? Fin 0)%num then
      match shift (q_pay (queues st1)) with
      | Some (car, rest) =>
          let car' := car_set_progress_pay car now in
          let q1 := set_pay (queues st1) rest in
          let q2 := set_pickup q1 (push (q_pickup q1) car') in
          set_payClock (set_queues st1 q2) (Fin 1 / Fin (payRate (params st1)))%num
      | None => st1
      end
    else st1
  else
    set_payClock st (JS.max (payClock st) (Fin 1 / Fin (payRate (params st)))%num).

Definition pickup_service (dt now : Q) (st : State) : State :=
  if (0 <? List.length (q_pickup (queues st)))%nat && (of_Z (pickupServers (params st)) >? Fin 0)%num then
    let st1 := set_pickupClock st (pickupClock st - Fin dt * of_Z (pickupServers (params st)))%num in
    if (pickupClock st1 <=? Fin 0)%num then
      match shift (q_pickup (queues st1)) with
      | Some (car, rest) =>
          let car' := car_set_progress_pickup car now in
          let st2 := set_queues st1 (set_pickup (queues st1) rest) in
          let w := now - arrival car' in
          let st3 := set_metrics st2 (recordCompletion (metrics st2) w) in
          set_pickupClock st3 (Fin 1 / Fin (pickupRate (params st3)))%num
      | None => st1
      end
    else st1
  else
    set_pickupClock st (JS.max (pickupClock st) (Fin 1 / Fin (pickupRate (params st)))%num).

(** *** [step]: curbside completions *)

(** [!car.readyAt]: the property is unset or holds 0. *)
Definition readyAt_falsy (c : Car) : bool :=
  match readyAt c with
  | None => true
  | Some t => Qeq_bool t 0
  end.

(** [if (!car.readyAt) car.readyAt = car.arrival + rand(4, 10)]. *)
Definition assign_readyAt (car : Car) (st : State) : Car * State :=
  if readyAt_falsy car then
    let (u, st') := random st in
    (car_set_readyAt car (arrival car + rand 4 10 u), st')
  else (car, st).

(** [now >= car.readyAt]. *)
Definition is_ready (now : Q) (car : Car) : bool :=
  match readyAt car with
  | Some t => Qle_bool t now
  | None => false
  end.

(** The body of [if (now >= car.readyAt) { ... }] apart from the [splice]:
    the spot is released and the completion is recorded. *)
Definition complete_curbside (now : Q) (car : Car) (st : State) : State :=
  let spots1 :=
    match parkingSpotId car with
    | Some id => release_spot id (spots st)
    | None => spots st
    end in
  let st1 := set_spots st spots1 in
  let w := now - arrival car in
  set_metrics st1 (recordCompletion (metrics st1) w).

(** The loop [for (let i = queues.curbside.length - 1; i >= 0; i--)].
    [todo] holds the elements at the indices [i], [i-1], ..., 0 (in that
    order) and [kept] the elements behind index [i], which the loop has
    visited and left in the array. *)
Fixpoint curbside_loop (now : Q) (todo : list Car) (kept : list Car) (st : State) : State :=
  match todo with
  | [] => set_queues st (set_curbside (queues st) kept)
  | car :: todo' =>
      let (car1, st1) := assign_readyAt car st in
      if is_ready now car1 then curbside_loop now todo' kept (complete_curbside now car1 st1)
      else curbside_loop now todo' (car1 :: kept) st1
  end.

Definition curbside_completions (now : Q) (st : State) : State :=
  curbside_loop now (rev (q_curbside (queues st))) [] st.

(** *** [step] *)

Definition record_wip (now : Q) (st : State) : State :=
  let wip := wip_of (queues st) in
  let m := metrics st in
  set_metrics st
    (mkMetrics (arrivals m) (served m) (parked m) (avgWait m) (Nat.max (maxWip m) wip)
       (push (history m) (mkHistoryEntry now wip (avgWait m)))).

(** [if (params.autoRebalance && Math.random() < 0.05) { rebalanceServers({ queues, params }); }] *)
Definition maybe_rebalance (st : State) : State :=
  if autoRebalance (params st) then
    let (u, st1) := random st in
    if Qltb u (5 # 100) then
      set_params st1 (snd (rebalanceServers (mkSys (queues st1) (params st1))))
    else st1
  else st.

(** [step(dt)], run in a closure whose [now] is the argument [now].  The
    result is [None] when the arrivals loop needs more than [fuel]
    iterations. *)
Definition step (fuel : nat) (now dt : Q) (st : State) : option State :=
  let st1 := set_nextArrival st (nextArrival st - Fin dt)%num in
  match arrivals_loop fuel now st1 with
  | None => None
  | Some st2 =>
      let st3 := order_service dt now LaneA st2 in
      let st4 := order_service dt now LaneB st3 in
      let st5 := pay_service dt now st4 in
      let st6 := pickup_service dt now st5 in
      let st7 := curbside_completions now st6 in
      let st8 := record_wip now st7 in
      Some (maybe_rebalance st8)
  end.

(** *** [generateSpots] and the state of a fresh start *)

Definition spot_name (id : nat) : string :=
  String.append "S" (NilEmpty.string_of_uint (Nat.to_uint id)).

(** One [arr.push({ ... })] of [generateSpots], for row [r], column [c]
    and the current value [id] of the counter. *)
Definition generate_spot (r c id : nat) (st : State) : Spot * State :=
  let (u_occ, st1) := random st in
  let (u_cong, st2) := random st1 in
  let (u_back, st3) := random st2 in
  (mkSpot (spot_name id)
     (6 + inject_Z (Z.of_nat c) * 6)
     (60 + inject_Z (Z.of_nat r) * 8)
     (Qltb u_occ (2 # 10))
     ((c <? 2)%nat && (r =? 0)%nat)
     ((inject_Z (Z.of_nat r) + 1) * (2 # 10) + (if (10 <? c)%nat then 8 # 10 else 2 # 10))
     (u_cong * (6 # 10))
     (Qltb u_back (25 # 100)),
   st3).

Fixpoint generate_cells (cells : list (nat * nat)) (id : nat) (arr : list Spot) (st : State)
    : list Spot * State :=
  match cells with
  | [] => (arr, st)
  | (r, c) :: cells' =>
      let (s, st1) := generate_spot r c id st in
      generate_cells cells' (S id) (push arr s) st1
  end.

(** The pairs [(r, c)] in the order of the two nested loops. *)
Definition spot_cells : list (nat * nat) :=
  flat_map (fun r => map (fun c => (r, c)) (seq 0 14)) (seq 0 4).

Definition generateSpots (st : State) : list Spot * State :=
  generate_cells spot_cells 1 [] st.

Definition empty_queues : Queues := mkQueues [] [] [] [] [].
Definition zero_metrics : Metrics := mkMetrics 0 0 0 0 0 [].

(** The state from which a newly bound [step] starts once the queues, the
    lot and the refs have been set anew: empty queues, a generated lot,
    zeroed metrics and clocks and a drawn countdown.  This is the state
    after the mount, and the state after [reset()] once the interval is
    bound to a later render ([reset] and [rebind] of the hook, below);
    [st] gives the [params], the position in the stream of
    [Math.random] and the next object identity. *)
Definition cold_start (st : State) : State :=
  let (sp, st1) := generateSpots st in
  let (gap, st2) := exp (arrivalRate (params st1) / 60) st1 in
  mkState empty_queues (params st2) sp zero_metrics gap
    (Fin 0) (Fin 0) (Fin 0) (Fin 0) (rng st2) (heap st2).

End Engine.

(* ================================================================== *)
(** ** The hook [useSimulation]: renders, the interval and the controls

    [queues] and [spots] are React state: every render binds their
    current values as constants in the [step] and the [reset] it creates.
    The interval set up by [useEffect(() => { ... }, [running, params])]
    calls the [step] of the render in which the effect last ran, and the
    effect runs again only when [running] or the [params] object
    changes.  The refs ([metrics], the clocks, [nextArrival]) and the
    [params] object are shared by all renders.  [step] changes the arrays
    of its [queues] and the objects of its [spots] in place, and hands
    them to the next render by
    [setQueues({ ...queues }); setSpots([...spots])]. *)

(** [bound] is the engine state with the [queues] and the [spots] of the
    [step] that the interval calls, and [bound_now] the [now] of that
    [step]; [shown_queues], [shown_spots] and [shown_now] are the React
    state of the last render, which the hook returns. *)
Record Sim : Type := mkSim {
  running : bool;
  bound : State;
  bound_now : Q;
  shown_queues : Queues;
  shown_spots : list Spot;
  shown_now : Q
}.

(** [const minutesPerTick = 0.08]. *)
Definition minutesPerTick : Q := 8 # 100.

Section Hook.

Variable hypot : Q -> Q -> Q.
Variable log : Q -> num.
Variable toString36 : Q -> string.
Variable random_stream : nat -> Q.

(** The state as the hook returns it: the refs and [params], with the
    [queues] and [spots] of the last render. *)
Definition view (a : Sim) : State :=
  set_spots (set_queues (bound a) (shown_queues a)) (shown_spots a).

(** The effect runs: the new interval calls the [step] of the last
    render, which holds the [queues], [spots] and [now] of that render. *)
Definition rebind (a : Sim) : Sim :=
  mkSim (running a) (view a) (shown_now a) (shown_queues a) (shown_spots a) (shown_now a).

(** One call [step(minutesPerTick)] by the interval: [setNow((t) => t + dt)],
    the engine's step on the queues and spots the closure holds, with the
    [now] it holds, and [setQueues({ ...queues }); setSpots([...spots])]. *)
Definition tick (fuel : nat) (a : Sim) : option Sim :=
  match step hypot log toString36 random_stream fuel (bound_now a) minutesPerTick (bound a) with
  | Some st' =>
      Some (mkSim (running a) st' (bound_now a) (queues st') (spots st')
              (shown_now a + minutesPerTick))
  | None => None
  end.

(** [reset()]: [setQueues] with empty queues, [setSpots(generateSpots())],
    the refs set anew, [setNow(0)].  The effect does not run: a running
    interval goes on calling a [step] that holds the queues, the spots
    and the [now] from before. *)
Definition reset (a : Sim) : Sim :=
  let (sp, st1) := generateSpots random_stream (bound a) in
  let (gap, st2) := exp log random_stream (arrivalRate (params st1) / 60) st1 in
  mkSim (running a)
    (mkState (queues (bound a)) (params st2) (spots (bound a)) zero_metrics gap
       (Fin 0) (Fin 0) (Fin 0) (Fin 0) (rng st2) (heap st2))
    (bound_now a) empty_queues sp 0.

(** [setRunning(b)]: the effect runs when [running] changes, and sets up
    an interval when it is [true]. *)
Definition setRunning (b : bool) (a : Sim) : Sim :=
  let a' := mkSim b (bound a) (bound_now a) (shown_queues a) (shown_spots a) (shown_now a) in
  if b && negb (running a) then rebind a' else a'.

(** [setParams(p)] with a new object [p]: while running, the effect runs. *)
Definition setParams (p : Params) (a : Sim) : Sim :=
  let a' := mkSim (running a) (set_params (bound a) p) (bound_now a)
              (shown_queues a) (shown_spots a) (shown_now a) in
  if running a then rebind a' else a'.

(** The hook after the first render: not running, [now] at 0, the state
    of a fresh start. *)
Definition mount (st : State) : Sim :=
  let st' := cold_start log random_stream st in
  mkSim false st' 0 (queues st') (spots st') 0.

(** The states of the hook from [start] on: the ticks of the interval
    while running and the calls made by the controls, [reset()] being
    called in the states that [resets] allows only. *)
Inductive hook_run (start : Sim -> Prop) (resets : Sim -> bool) : Sim -> Prop :=
| hook_start : forall a, start a -> hook_run start resets a
| hook_tick : forall a a' fuel,
    hook_run start resets a -> running a = true -> tick fuel a = Some a' ->
    hook_run start resets a'
| hook_reset : forall a,
    hook_run start resets a -> resets a = true -> hook_run start resets (reset a)
| hook_setRunning : forall a b,
    hook_run start resets a -> hook_run start resets (setRunning b a)
| hook_setParams : forall a p,
    hook_run start resets a -> hook_run start resets (setParams p a).

Definition mounted (a : Sim) : Prop := exists st, a = mount st.

(** Every state of the hook. *)
Definition live : Sim -> Prop := hook_run mounted (fun _ => true).

(** The states in which [reset()] was only ever called while paused. *)
Definition calm : Sim -> Prop := hook_run mounted (fun a => negb (running a)).

(** The states from [a0] on, up to the next [reset()]. *)
Definition since (a0 : Sim) : Sim -> Prop := hook_run (eq a0) (fun _ => false).

(** [n] ticks in a row. *)
Fixpoint ticks (fuel n : nat) (a : Sim) : option Sim :=
  match n with
  | O => Some a
  | S n' =>
      match tick fuel a with
      | Some a' => ticks fuel n' a'
      | None => None
      end
  end.

End Hook.

(* ================================================================== *)
(** ** Specification-side definitions *)

(** The finite-sum Erlang-C formula as the specification words it, over
    the rationals: offered load [a = lam / mu], utilisation
    [rho = lam / (s * mu)], the term [a^s / (s! * (1 - rho))] and the sum
    of [a^k / k!] for [k = 0 .. s-1]. *)
Definition erlang_term (a : Q) (k : nat) : Q :=
  a ^ Z.of_nat k / inject_Z (Z.of_nat (Factorial.fact k)).

Definition erlang_partial_sum (a : Q) (s : nat) : Q :=
  fold_right Qplus 0 (map (erlang_term a) (seq 0 s)).

Definition erlangC_formula (lam mu : Q) (s : nat) : Q :=
  let a := lam / mu in
  let rho := lam / (inject_Z (Z.of_nat s) * mu) in
  let last := erlang_term a s / (1 - rho) in
  last / (erlang_partial_sum a s + last).

Definition expectedWait_formula (lam mu : Q) (s : nat) : Q :=
  erlangC_formula lam mu s / (inject_Z (Z.of_nat s) * mu - lam).

(** The specification's online average, [newAvg = oldAvg + (sample - oldAvg) / count]. *)
Definition welford (oldAvg sample : Q) (count : nat) : Q :=
  oldAvg + (sample - oldAvg) / inject_Z (Z.of_nat count).

Definition Qsum (l : list Q) : Q := fold_right Qplus 0 l.

Definition mean (l : list Q) : Q := Qsum l / inject_Z (Z.of_nat (List.length l)).

(** A spot that [chooseParkingSpot] may return. *)
Definition eligible (s : Spot) : bool := negb (occupied s) && negb (reserved s).

(** Every stage is staffed with at least its minimum. *)
Definition staffed (p : Params) : Prop := forall name, (stage_min name <= stage_get p name)%Z.

(** The stage [rebalanceServers] calls [hottest]. *)
Definition hottest_of (sys : Sys) : Stage :=
  match sorted_entries sys with
  | (h, _) :: _ => h
  | [] => orderA
  end.

(** All the cars held by the five queues. *)
Definition all_cars (q : Queues) : list Car :=
  q_orderA q ++ q_orderB q ++ q_pay q ++ q_pickup q ++ q_curbside q.

(** Engine conservation: every arrival is either served or in exactly one
    queue; [heap] bounds the identities in use. *)
Record conserved (st : State) : Prop := mkConserved {
  cons_count : arrivals (metrics st) = (served (metrics st) + wip_of (queues st))%nat;
  cons_nodup : NoDup (map car_obj (all_cars (queues st)));
  cons_fresh : Forall (fun c => (car_obj c < heap st)%nat) (all_cars (queues st))
}.

Section Reachability.

Variable hypot : Q -> Q -> Q.
Variable log : Q -> num.
Variable toString36 : Q -> string.
Variable random_stream : nat -> Q.

(** The states the engine goes through from a fresh start: steps, with
    parameter updates from the controls in between.  These are the states
    that the hook shows as long as [reset()] is called while paused only
    ([calm_reachable], below). *)
Inductive reachable : State -> Prop :=
| reach_start : forall st, reachable (cold_start log random_stream st)
| reach_step : forall st st' fuel now dt,
    reachable st ->
    step hypot log toString36 random_stream fuel now dt st = Some st' ->
    reachable st'
| reach_params : forall st p, reachable st -> reachable (set_params st p).

End Reachability.

Section Samples.

Variable hypot : Q -> Q -> Q.
Variable log : Q -> num.
Variable toString36 : Q -> string.
Variable random_stream : nat -> Q.

(** The wait sample [w] that [pickup_service] records, if it completes a car. *)
Definition pickup_samples (dt now : Q) (st : State) : list Q :=
  if (0 <? List.length (q_pickup (queues st)))%nat
     && (of_Z (pickupServers (params st)) >? Fin 0)%num then
    if (pickupClock st - Fin dt * of_Z (pickupServers (params st)) <=? Fin 0)%num then
      match q_pickup (queues st) with
      | car :: _ => [now - arrival car]
      | [] => []
      end
    else []
  else [].

(** The wait samples [w] that the curbside loop records, in the order in
    which it records them. *)
Fixpoint curbside_samples (now : Q) (todo : list Car) (st : State) : list Q :=
  match todo with
  | [] => []
  | car :: todo' =>
      let (car1, st1) := assign_readyAt random_stream car st in
      if is_ready now car1
      then (now - arrival car1)
           :: curbside_samples now todo' (complete_curbside now car1 st1)
      else curbside_samples now todo' st1
  end.

(** The wait samples recorded by one [step], in order. *)
Definition step_samples (fuel : nat) (now dt : Q) (st : State) : list Q :=
  let st1 := set_nextArrival st (nextArrival st - Fin dt)%num in
  match arrivals_loop hypot log toString36 random_stream fuel now st1 with
  | None => []
  | Some st2 =>
      let st3 := order_service dt now LaneA st2 in
      let st4 := order_service dt now LaneB st3 in
      let st5 := pay_service dt now st4 in
      let st6 := pickup_service dt now st5 in
      pickup_samples dt now st5
      ++ curbside_samples now (rev (q_curbside (queues st6))) st6
  end.

(** [recorded st ws]: the engine reaches [st] from a fresh start, and [ws]
    are the wait samples of the completions since then, oldest first. *)
Inductive recorded : State -> list Q -> Prop :=
| rec_start : forall st, recorded (cold_start log random_stream st) []
| rec_step : forall st ws st' fuel now dt,
    recorded st ws ->
    step hypot log toString36 random_stream fuel now dt st = Some st' ->
    recorded st' (ws ++ step_samples fuel now dt st)
| rec_params : forall st ws p, recorded st ws -> recorded (set_params st p) ws.

End Samples.

(** *** Concrete instances, used to run the model *)

(** [Math.hypot] to three decimals. *)
Definition hypot_milli (dx dy : Q) : Q :=
  inject_Z (Z.sqrt (Qfloor ((dx * dx + dy * dy) * 1000000))) / 1000.

(** A rational approximation of [Math.log] on the positive numbers. *)
Definition log_pade (x : Q) : num :=
  if Qeq_bool x 0 then NInf
  else if Qltb x 0 then NaN
  else Fin (2 * (x - 1) / (x + 1)).

Definition toString36_const (u : Q) : string := "0.k8x3m1q9zt"%string.

(** A stream of values in [0, 1). *)
Definition stream_tenths (n : nat) : Q := inject_Z (Z.of_nat ((7 * n + 3) mod 10)) / 10.

Definition default_params : Params :=
  mkParams 36 (35 # 100) 7 (8 # 10) (13 # 10) 1 1 1 1 1 true.

Definition blank_state : State :=
  mkState empty_queues default_params [] zero_metrics (Fin 0)
    (Fin 0) (Fin 0) (Fin 0) (Fin 0) 0 0.

Definition initial_state : State := cold_start log_pade stream_tenths blank_state.

Definition run_step (fuel : nat) (now dt : Q) (st : State) : option State :=
  step hypot_milli log_pade toString36_const stream_tenths fuel now dt st.

(** Two steps from the initial state, and the wait samples they record. *)
Definition first_step_state : State :=
  match run_step 10 4 3 initial_state with
  | Some st => st
  | None => initial_state
  end.

Definition first_step_samples : list Q :=
  step_samples hypot_milli log_pade toString36_const stream_tenths 10 4 3 initial_state.

Definition second_step_state : State :=
  match run_step 10 6 2 first_step_state with
  | Some st => st
  | None => first_step_state
  end.

Definition second_step_samples : list Q :=
  step_samples hypot_milli log_pade toString36_const stream_tenths 10 6 2 first_step_state.

(** A small lot: one occupied spot, one reserved spot, two free ones. *)
Definition small_lot : list Spot :=
  [ mkSpot "S1" 6 60 true false (4 # 10) (1 # 10) false;
    mkSpot "S2" 12 60 false true (4 # 10) (2 # 10) false;
    mkSpot "S3" 18 60 false false (4 # 10) (3 # 10) true;
    mkSpot "S4" 24 60 false false (4 # 10) (1 # 10) false ].

Definition small_state : State :=
  mkState empty_queues default_params small_lot zero_metrics (Fin (1 # 2))
    (Fin 0) (Fin 0) (Fin 0) (Fin 0) 0 0.

(** Parameters with the pay stage stopped: every predicted total is infinite. *)
Definition jammed_params : Params :=
  mkParams 36 (35 # 100) 7 (8 # 10) 0 1 1 1 1 1 true.

Definition jammed_state : State := set_params small_state jammed_params.

(** A lot without a free spot. *)
Definition full_lot : list Spot :=
  [ mkSpot "S1" 6 60 true false (4 # 10) (1 # 10) false;
    mkSpot "S2" 12 60 false true (4 # 10) (2 # 10) false ].

(** An entrance on the far side of the lot, weights that count the
    distance and the angle only, and weights with an infinite one. *)
Definition side_entrance : Point := mkPoint 30 60.

Definition plain_w : Weights := mkWeights (Fin 2) (Fin 0) (Fin 0) (Fin 1).

Definition infinite_w : Weights := mkWeights PInf (Fin (6 # 10)) (Fin (8 # 10)) (Fin (2 # 10)).

(** Two cars, and two systems that differ in the cars they hold only. *)
Definition car_one : Car :=
  mkCar 0 "k8x3m1q" 0 false None None None None None (Some LaneA) None.

Definition car_two : Car :=
  mkCar 1 "m1q9zt0" (1 # 2) true None None None None None (Some LaneA) None.

Definition sys_one : Sys :=
  mkSys (mkQueues [car_one] [] [] [] []) default_params.

Definition sys_two : Sys :=
  mkSys (mkQueues [car_two] [] [] [] []) default_params.

(** Two order servers on lane B, one everywhere else. *)
Definition spare_params : Params :=
  mkParams 36 (35 # 100) 7 (8 # 10) (13 # 10) 1 1 2 1 1 true.

(** *** Predicates and closed forms used by the proofs *)

(** A predicted delay is +infinity or a non-negative rational. *)
Definition delay_like (x : num) : Prop :=
  x = PInf \/ exists a, x = Fin a /\ 0 <= a.

(** Two systems with the same queue lengths and the same parameters. *)
Definition same_load (sys sys' : Sys) : Prop :=
  sys_params sys' = sys_params sys
  /\ List.length (q_orderA (sys_queues sys')) = List.length (q_orderA (sys_queues sys))
  /\ List.length (q_orderB (sys_queues sys')) = List.length (q_orderB (sys_queues sys))
  /\ List.length (q_pay (sys_queues sys')) = List.length (q_pay (sys_queues sys))
  /\ List.length (q_pickup (sys_queues sys')) = List.length (q_pickup (sys_queues sys)).

(** One server moved from [from] to [to]. *)
Definition move_server (p : Params) (from to : Stage) : Params :=
  let p1 := stage_set p from (stage_get p from - 1)%Z in
  stage_set p1 to (stage_get p1 to + 1)%Z.

(** An assignment with two unstaffed stages, which the controls cannot
    produce: A = 0, B = 2, pay = 0, pickup = 1. *)
Definition understaffed_params : Params :=
  mkParams 36 (35 # 100) 7 (8 # 10) (13 # 10) 1 0 2 0 1 true.

Definition understaffed_sys : Sys := mkSys empty_queues understaffed_params.

Section SpotObservers.

Variable hypot : Q -> Q -> Q.
Variables (entrance : Point) (w : Weights).

(** The state of the loop after it has scanned the prefix [pre]: without
    a best spot so far, no eligible spot had a score below [Infinity];
    with one, no eligible spot has a smaller score, and an eligible spot
    before it has a greater score or none below [Infinity]. *)
Definition scanned (pre : list Spot) (best : option (nat * Spot)) (bestScore : num) : Prop :=
  match best with
  | None =>
      bestScore = PInf
      /\ forall s, In s pre -> eligible s = true ->
           (spot_score hypot entrance w s <? PInf)%num = false
  | Some (j, s) =>
      bestScore = spot_score hypot entrance w s
      /\ nth_error pre j = Some s /\ eligible s = true
      /\ (spot_score hypot entrance w s <? PInf)%num = true
      /\ forall k s', nth_error pre k = Some s' -> eligible s' = true ->
           (spot_score hypot entrance w s' <? spot_score hypot entrance w s)%num = false
           /\ ((k < j)%nat ->
               (spot_score hypot entrance w s <? spot_score hypot entrance w s')%num = true
               \/ (spot_score hypot entrance w s' <? PInf)%num = false)
  end.

End SpotObservers.

Section ArrivalObservers.

Variable toString36 : Q -> string.
Variable random_stream : nat -> Q.

(** The car of the next arrival, the advice it gets and the two conditions
    of a diversion. *)
Definition arriving_car (now : Q) (st : State) : Car :=
  fst (new_car toString36 random_stream now st).

Definition advice (now : Q) (st : State) : Lane * num :=
  chooseBestLane (mkSys (queues st) (params st)) (isMobile (arriving_car now st)).

Definition over_threshold (now : Q) (st : State) : Prop :=
  (snd (advice now st) >? Fin (divertThresholdMin (params st)))%num = true.

(** The state in which the routing decision is taken. *)
Definition counted (now : Q) (st : State) : State :=
  let st1 := snd (new_car toString36 random_stream now st) in
  let m := metrics st1 in
  set_metrics st1
    (mkMetrics (S (arrivals m)) (served m) (parked m) (avgWait m) (maxWip m) (history m)).

End ArrivalObservers.

(** Some spot is neither occupied nor reserved. *)
Definition free_spot (st : State) : Prop :=
  exists s, In s (spots st) /\ occupied s = false /\ reserved s = false.

(** The [opts] argument [{ entrance: { x: 6, y: 70 } }] that [step] passes. *)
Definition step_entrance : option Opts := Some (mkOpts (Some (mkPoint 6 70)) None).

(** The identities of the cars in the queues. *)
Definition objs (q : Queues) : list nat := map car_obj (all_cars q).

(** [st'] holds the cars of [st] except some that were served. *)
Definition evolves (st st' : State) : Prop :=
  exists gone : list nat,
    Permutation (objs (queues st)) (gone ++ objs (queues st'))
    /\ served (metrics st') = (served (metrics st) + List.length gone)%nat
    /\ arrivals (metrics st') = arrivals (metrics st)
    /\ heap st' = heap st.

(** The samples [prev] account for the metrics [m]. *)
Definition averages (m : Metrics) (prev : list Q) : Prop :=
  served m = List.length prev
  /\ avgWait m * inject_Z (Z.of_nat (served m)) == Qsum prev.

(** [Math.pow] on a finite base, as a rational. *)
Fixpoint Qpow_nat (a : Q) (k : nat) : Q :=
  match k with
  | O => 1
  | S k' => a * Qpow_nat a k'
  end.

(** The term [a^k / k!] as the code computes it. *)
Definition code_term (a : Q) (k : nat) : Q :=
  Qpow_nat a k / inject_Z (Z.of_nat (Factorial.fact k)).

(** The sum of the terms [k, k+1, ..., k+n-1], and what the loop adds. *)
Definition code_sum (a : Q) (k n : nat) : Q := Qsum (map (code_term a) (seq k n)).

(** A stable input of the estimator: an integer [s >= 1], [mu > 0],
    [0 <= lam] and utilisation [lam / (s * mu) < 1]. *)
Definition stable (lam mu : Q) (s : Z) : Prop :=
  (1 <= s)%Z /\ 0 < mu /\ 0 <= lam /\ lam / (inject_Z s * mu) < 1.

(** The mean wait in terms of the last term [t = a^s / s!], the sum
    [S] of the earlier terms, [X = s * mu] and [d = s * mu - lam]. *)
Definition wait_closed (t S X d : Q) : Q := t * X / ((S * d + t * X) * d).

(* ================================================================== *)
(** ** The advice panel of [App] *)

(** [x || 0] on a number: 0 and NaN are falsy. *)
Definition or_zero (x : num) : num :=
  match x with
  | NaN => Fin 0
  | Fin q => if Qeq_bool q 0 then Fin 0 else x
  | _ => x
  end.

(** [Math.min] of two numbers. *)
Definition Math_min (x y : num) : num :=
  match x, y with
  | NaN, _ | _, NaN => NaN
  | _, _ => if (y <? x)%num then y else x
  end.

Module App.

(** [expectedWaitMinutes(queue.length + 1, rate, servers)] *)
Definition eta (len : nat) (rate : Q) (servers : Z) : num :=
  expectedWaitMinutes (of_nat len + Fin 1)%num (Fin rate) servers.

Definition etaOrderA (q : Queues) (p : Params) : num :=
  eta (List.length (q_orderA q)) (orderRate p) (orderServersA p).

Definition etaOrderB (q : Queues) (p : Params) : num :=
  eta (List.length (q_orderB q)) (orderRate p) (orderServersB p).

Definition etaPay (q : Queues) (p : Params) : num :=
  eta (List.length (q_pay q)) (payRate p) (payServers p).

Definition etaPickup (q : Queues) (p : Params) : num :=
  eta (List.length (q_pickup q)) (pickupRate p) (pickupServers p).

(** [(etaOrderA || 0) + (etaPay || 0) + (etaPickup || 0)] *)
Definition etaA (q : Queues) (p : Params) : num :=
  (or_zero (etaOrderA q p) + or_zero (etaPay q p) + or_zero (etaPickup q p))%num.

Definition etaB (q : Queues) (p : Params) : num :=
  (or_zero (etaOrderB q p) + or_zero (etaPay q p) + or_zero (etaPickup q p))%num.

(** [Math.min(etaA, etaB) > divertThresholdMin ? "Divert to curbside"
     : `Use lane ${etaA < etaB ? 'A' : 'B'}`] *)
Definition advise (q : Queues) (p : Params) : string :=
  if (Math_min (etaA q p) (etaB q p) >? Fin (divertThresholdMin p))%num
  then "Divert to curbside"%string
  else ("Use lane " ++ (if (etaA q p <? etaB q p)%num then "A" else "B"))%string.

End App.

(* ================================================================== *)
(** ** The animation of [CanvasMap] *)

(** [const clamp = (v, a, b) => Math.max(a, Math.min(b, v))] on finite numbers. *)
Definition clamp (v a b : Q) : Q := Qmax a (Qmin b v).

(** [function lerp(a, b, t) { return a + (b - a) * t; }] *)
Definition lerp (a b t : Q) : Q := a + (b - a) * t.

(** [segPoint(poly, seg, t)]; [None] where [poly[seg]] is undefined and the
    code throws. *)
Definition segPoint (poly : list (Q * Q)) (seg : nat) (t : Q) : option (Q * Q) :=
  match nth_error poly seg, nth_error poly ((seg + 1) mod List.length poly) with
  | Some a, Some b => Some (lerp (fst a) (fst b) t, lerp (snd a) (snd b) t)
  | _, _ => None
  end.

(** [lanes.A] (the array [loop]) and [lanes.B] (the array [inner]). *)
Definition lanes_loop : list (Q * Q) :=
  [ (6 # 100, 85 # 100); (12 # 100, 7 # 10); (25 # 100, 62 # 100); (5 # 10, 58 # 100);
    (78 # 100, 62 # 100); (92 # 100, 5 # 10); (8 # 10, 36 # 100); (52 # 100, 3 # 10);
    (24 # 100, 36 # 100); (1 # 10, 52 # 100); (6 # 100, 85 # 100) ].

Definition lanes_inner : list (Q * Q) :=
  map (fun xy => (fst xy + (3 # 100), snd xy - (4 # 100))) lanes_loop.

Definition lanes (L : Lane) : list (Q * Q) :=
  match L with LaneA => lanes_loop | LaneB => lanes_inner end.

(** An element of [carsRef.current]. *)
Record AnimCar : Type := mkAnimCar {
  anim_id : string;
  anim_lane : Lane;
  anim_seg : nat;
  anim_t : Q;
  anim_speed : Q;
  anim_color : string
}.

(** [while (c.t >= 1) { c.t -= 1; c.seg = (c.seg + 1) % path.length; }];
    [None] when [fuel] iterations did not end the loop. *)
Fixpoint wrap_loop (fuel : nat) (len : nat) (t : Q) (seg : nat) : option (Q * nat) :=
  if Qle_bool 1 t then
    match fuel with
    | O => None
    | S fuel' => wrap_loop fuel' len (t - 1) ((seg + 1) mod len)
    end
  else Some (t, seg).

Section Animation.

Variable toString36 : Q -> string.
Variable random_stream : nat -> Q.

(** The initial cars: [arr.push({ id: uid(), lane, seg: 0, t: Math.random(),
    speed: rand(0.12, 0.22), color })] for [i = 0 .. total - 1]; [n] is the
    number of [Math.random()] calls made so far. *)
Definition init_car (i n : nat) : AnimCar * nat :=
  let lane := if (i mod 2 =? 0)%nat then LaneA else LaneB in
  (mkAnimCar (uid toString36 (random_stream n)) lane 0
     (random_stream (S n))
     (rand (12 # 100) (22 # 100) (random_stream (S (S n))))
     (match lane with LaneA => "#22c55e" | LaneB => "#22d3ee" end),
   S (S (S n))).

Fixpoint init_cars_loop (count i : nat) (arr : list AnimCar) (n : nat) : list AnimCar * nat :=
  match count with
  | O => (arr, n)
  | S count' =>
      let (c, n1) := init_car i n in
      init_cars_loop count' (S i) (push arr c) n1
  end.

(** [const total = 34]. *)
Definition init_cars (n : nat) : list AnimCar * nat := init_cars_loop 34 0 [] n.

(** The body of [for (const c of carsRef.current)] in [stepCars(dt)]: the
    car after the update, the point [segPoint(path, c.seg, c.t)] at which
    it is drawn, and the number of [Math.random()] calls. *)
Definition stepCar (fuel : nat) (dt : Q) (c : AnimCar) (n : nat)
    : option (AnimCar * option (Q * Q) * nat) :=
  let path := lanes (anim_lane c) in
  match wrap_loop fuel (List.length path) (anim_t c + dt * anim_speed c) (anim_seg c) with
  | None => None
  | Some (t', seg') =>
      let (speed', n') :=
        if Qltb (random_stream n) (2 # 100)
        then (clamp (anim_speed c + rand (- (2 # 100)) (2 # 100) (random_stream (S n)))
                (8 # 100) (28 # 100),
              S (S n))
        else (anim_speed c, S n) in
      Some (mkAnimCar (anim_id c) (anim_lane c) seg' t' speed' (anim_color c),
            segPoint path seg' t', n')
  end.

Fixpoint stepCars (fuel : nat) (dt : Q) (cars : list AnimCar) (n : nat)
    : option (list AnimCar * list (option (Q * Q)) * nat) :=
  match cars with
  | [] => Some ([], [], n)
  | c :: rest =>
      match stepCar fuel dt c n with
      | None => None
      | Some (c', pt, n1) =>
          match stepCars fuel dt rest n1 with
          | None => None
          | Some (cs, pts, n2) => Some (c' :: cs, pt :: pts, n2)
          end
      end
  end.

End Animation.

(** [const dt = Math.min(0.05, (ts - lastRef.current) / 1000)] in [frame(ts)]. *)
Definition frame_dt (ts last : Q) : Q := Qmin (5 # 100) ((ts - last) / 1000).

(* ================================================================== *)
(** ** Further predicates and observers used by the proofs *)

(** A stream of [Math.random()] values: each lies in [0, 1). *)
Definition unit_stream (rs : nat -> Q) : Prop := forall n, 0 <= rs n /\ rs n < 1.

(** *** The lot *)

(** What [generateSpots] fixes in a spot without a random draw. *)
Definition spot_fixed (s : Spot) : string * Q * Q * bool * Q :=
  (spot_id s, spot_x s, spot_y s, reserved s, exitFriction s).

(** The same five values for the cell [(r, c)] with counter [id]. *)
Definition fixed_of (cell : nat * nat * nat) : string * Q * Q * bool * Q :=
  let '(r, c, id) := cell in
  (spot_name id,
   6 + inject_Z (Z.of_nat c) * 6,
   60 + inject_Z (Z.of_nat r) * 8,
   (c <? 2)%nat && (r =? 0)%nat,
   (inject_Z (Z.of_nat r) + 1) * (2 # 10) + (if (10 <? c)%nat then 8 # 10 else 2 # 10)).

(** The bounds of the layout, as a test. *)
Definition fixed_ok (f : string * Q * Q * bool * Q) : bool :=
  let '(id, x, y, res, fr) := f in
  Qle_bool 6 x && Qle_bool x 84 && Qle_bool 60 y && Qle_bool y 84
  && Qle_bool (4 # 10) fr && Qle_bool fr (16 # 10)
  && Bool.eqb res (String.eqb id "S1" || String.eqb id "S2").

(** Everything in a spot but its [occupied] flag. *)
Definition spot_static (s : Spot) : string * Q * Q * bool * Q * Q * bool :=
  (spot_id s, spot_x s, spot_y s, reserved s, exitFriction s, localCongestion s, backIn s).

(** [held] are the [parkingSpotId]s of the parked cars: they are distinct,
    and each names a spot of the lot that is occupied and not reserved. *)
Definition lot_ok (spots : list Spot) (held : list (option string)) : Prop :=
  NoDup (map spot_id spots)
  /\ NoDup held
  /\ forall o, In o held ->
       exists s, In s spots /\ o = Some (spot_id s)
                 /\ occupied s = true /\ reserved s = false.

Definition lot_consistent (st : State) : Prop :=
  lot_ok (spots st) (map parkingSpotId (q_curbside (queues st))).

(** *** Parked cars *)

(** The ready time of a parked car, once drawn, lies 4 to 10 minutes
    after its arrival. *)
Definition ready_window (c : Car) : Prop :=
  match readyAt c with
  | None => True
  | Some t => arrival c + 4 <= t /\ t < arrival c + 10
  end.

(** A parked car that is still waiting at time [now]. *)
Definition waiting (now : Q) (c : Car) : Prop :=
  exists t, readyAt c = Some t /\ now < t.

(** *** The phases of [step] *)

(** The state after the four service stages. *)
Definition served_stages (dt now : Q) (st : State) : State :=
  pickup_service dt now (pay_service dt now
    (order_service dt now LaneB (order_service dt now LaneA st))).

Definition counters_ok (st : State) : Prop :=
  (List.length (q_curbside (queues st)) <= parked (metrics st))%nat
  /\ (parked (metrics st) <= arrivals (metrics st))%nat.

(** What a step does to one first-in-first-out queue: the cars [new] join
    at the back and the first [k] cars leave at the front. *)
Definition fifo (k : nat) (new q q' : list Car) : Prop :=
  (k <= 1)%nat /\ q' = skipn k (q ++ new).

Definition other_lane (L : Lane) : Lane :=
  match L with LaneA => LaneB | LaneB => LaneA end.

(** The parameters that no server move touches. *)
Definition rates_of (p : Params) : Q * Q * Q * Q * Q * Q * bool :=
  (arrivalRate p, mobileShare p, divertThresholdMin p, orderRate p, payRate p, pickupRate p,
   autoRebalance p).

(** The history the engine has written agrees with the state it is in. *)
Definition history_ok (st : State) : Prop :=
  let h := history (metrics st) in
  Forall (fun e => (h_wip e <= maxWip (metrics st))%nat) h
  /\ last (map h_wip h) 0%nat = wip_of (queues st)
  /\ (wip_of (queues st) <= maxWip (metrics st))%nat
  /\ (h = [] -> maxWip (metrics st) = 0%nat)
  /\ (h <> [] -> exists e, In e h /\ h_wip e = maxWip (metrics st)).

(** The countdown is a number or [Infinity]. *)
Definition counting (x : num) : Prop := x = PInf \/ exists v, x = Fin v.

Section Runs.

Variable hypot : Q -> Q -> Q.
Variable log : Q -> num.
Variable toString36 : Q -> string.
Variable random_stream : nat -> Q.

(** The wait samples that the curbside loop of one [step] records. *)
Definition curbside_step_samples (fuel : nat) (now dt : Q) (st : State) : list Q :=
  match arrivals_loop hypot log toString36 random_stream fuel now
          (set_nextArrival st (nextArrival st - Fin dt)%num) with
  | None => []
  | Some st2 =>
      let st6 := served_stages dt now st2 in
      curbside_samples random_stream now (rev (q_curbside (queues st6))) st6
  end.

End Runs.

(** *** Lane advisor and panel *)

(** The three delays [chooseBestLane] adds up for lane [L]. *)
Definition order_delay (sys : Sys) (L : Lane) : num :=
  predictedQueueTime (List.length (order_queue (sys_queues sys) L))
    (orderRate (sys_params sys)) (orderServers (sys_params sys) L).

Definition pay_delay (sys : Sys) : num :=
  predictedQueueTime (List.length (q_pay (sys_queues sys)))
    (payRate (sys_params sys)) (payServers (sys_params sys)).

Definition pickup_delay (sys : Sys) : num :=
  predictedQueueTime (List.length (q_pickup (sys_queues sys)))
    (pickupRate (sys_params sys)) (pickupServers (sys_params sys)).

(** A stage that the panel's estimator sees as saturated: the queue length
    plus one, taken as the arrival rate, is not below the service capacity. *)
Definition saturated (len : nat) (rate : Q) (servers : Z) : Prop :=
  (servers <= 0)%Z \/ rate <= 0
  \/ inject_Z servers * rate <= inject_Z (Z.of_nat len) + 1.

(** *** Rebalancer *)

(** The pressure [rebalanceServers] computes for a stage. *)
Definition stage_pressure (sys : Sys) (name : Stage) : num :=
  let q := sys_queues sys in
  let p := sys_params sys in
  match name with
  | orderA => util (List.length (q_orderA q)) (orderRate p) (orderServersA p)
  | orderB => util (List.length (q_orderB q)) (orderRate p) (orderServersB p)
  | pay => util (List.length (q_pay q)) (payRate p) (payServers p)
  | pickup => util (List.length (q_pickup q)) (pickupRate p) (pickupServers p)
  end.

(** The position of a stage in the [pressure] object. *)
Definition stage_index (name : Stage) : nat :=
  match name with orderA => 0 | orderB => 1 | pay => 2 | pickup => 3 end.

Definition rates_nonneg (p : Params) : Prop :=
  0 <= orderRate p /\ 0 <= payRate p /\ 0 <= pickupRate p.

(** [a] comes before [b] in [l]. *)
Definition before {A : Type} (l : list A) (a b : A) : Prop :=
  exists l1 l2, l = l1 ++ l2 /\ In a l1 /\ In b l2.

(** The order in which a stable descending sort by [key] leaves [a] before [b]. *)
Definition sorted_before {A : Type} (key : A -> num) (input : list A) (a b : A) : Prop :=
  (key a <? key b)%num = false
  /\ ((key b <? key a)%num = true \/ before input a b).

(** *** Animation *)

(** A car of the animation that is on its lane. *)
Definition on_lane (c : AnimCar) : Prop :=
  (anim_seg c < List.length (lanes (anim_lane c)))%nat
  /\ 0 <= anim_t c /\ anim_t c < 1
  /\ 8 # 100 <= anim_speed c /\ anim_speed c <= 28 # 100.

(** A car as the animation creates it: on the first segment of its lane,
    with [0 <= t < 1], a speed from 0.12 up to 0.22 and the colour of its
    lane. *)
Definition at_start (c : AnimCar) : Prop :=
  anim_seg c = 0%nat
  /\ 0 <= anim_t c /\ anim_t c < 1
  /\ 12 # 100 <= anim_speed c /\ anim_speed c < 22 # 100
  /\ anim_color c = match anim_lane c with
                    | LaneA => "#22c55e"%string
                    | LaneB => "#22d3ee"%string
                    end.

(** A point inside the canvas, in the unit coordinates of the lanes. *)
Definition on_canvas (xy : Q * Q) : Prop :=
  0 <= fst xy /\ fst xy <= 1 /\ 0 <= snd xy /\ snd xy <= 1.

(** *** Further concrete instances *)

(** The default parameters with the arrivals switched off. *)
Definition idle_params : Params :=
  mkParams 0 (35 # 100) 7 (8 # 10) (13 # 10) 1 1 1 1 1 true.

(** The hook on the concrete host functions: mounted with the default
    parameters and started; 35 ticks later, when the first car has
    arrived and waits in the order queue of lane A; after [reset()] is
    called there, the interval still running; one tick later. *)
Definition started_sim : Sim :=
  setRunning true (mount log_pade stream_tenths blank_state).

Definition busy_sim : Sim :=
  match ticks hypot_milli log_pade toString36_const stream_tenths 10 35 started_sim with
  | Some a => a
  | None => started_sim
  end.

Definition reset_sim : Sim := reset log_pade stream_tenths busy_sim.

Definition stale_sim : Sim :=
  match tick hypot_milli log_pade toString36_const stream_tenths 10 reset_sim with
  | Some a => a
  | None => reset_sim
  end.

(** The same with the arrival rate set to 0 before the [reset()]. *)
Definition idle_sim : Sim := setParams idle_params busy_sim.

Definition idle_next_sim : Sim :=
  match tick hypot_milli log_pade toString36_const stream_tenths 10
          (reset log_pade stream_tenths idle_sim) with
  | Some a => a
  | None => idle_sim
  end.

(** The first spot of a generated lot. *)
Definition fresh_spot : Spot :=
  nth 0 (fst (generateSpots stream_tenths blank_state))
    (mkSpot "" 0 0 false false 0 0 false).

(** One step after the pay rate was set to 0: the arrivals are diverted. *)
Definition parked_state : State :=
  match run_step 10 4 3 (set_params initial_state jammed_params) with
  | Some st => st
  | None => initial_state
  end.

(** A car of the animation at the end of the first segment of lane A. *)
Definition anim_car_one : AnimCar :=
  mkAnimCar "k8x3m1q" LaneA 0 (99 # 100) (2 # 10) "#22c55e".

(* ================================================================== *)
(** * Properties *)

(** ** Numbers *)

Lemma Qltb_lt (a b : Q) : Qltb a b = true <-> a < b.
Proof.
  unfold Qltb. rewrite negb_true_iff.
  split; intro H.
  - apply Qnot_le_lt. intro Hle. apply Qle_bool_iff in Hle. congruence.
  - destruct (Qle_bool b a) eqn:E; [|reflexivity].
    apply Qle_bool_iff in E. exfalso. apply (Qlt_not_le _ _ H E).
Qed.

Lemma Qltb_ge (a b : Q) : Qltb a b = false <-> b <= a.
Proof.
  unfold Qltb. rewrite negb_false_iff. apply Qle_bool_iff.
Qed.

Lemma Qle_bool_false (a b : Q) : Qle_bool a b = false <-> b < a.
Proof.
  rewrite <- Qltb_lt. unfold Qltb. now rewrite negb_true_iff.
Qed.

Lemma Qeq_bool_false (a b : Q) : Qeq_bool a b = false <-> ~ a == b.
Proof.
  split.
  - apply Qeq_bool_neq.
  - intro H. destruct (Qeq_bool a b) eqn:E; [|reflexivity].
    apply Qeq_bool_iff in E. contradiction.
Qed.

Lemma inject_Z_pos (z : Z) : (0 < z)%Z -> 0 < inject_Z z.
Proof. intro H. change 0 with (inject_Z 0). now rewrite <- Zlt_Qlt. Qed.

Lemma inject_Z_nonneg (z : Z) : (0 <= z)%Z -> 0 <= inject_Z z.
Proof. intro H. change 0 with (inject_Z 0). now rewrite <- Zle_Qle. Qed.

Lemma inject_Z_le0 (z : Z) : inject_Z z <= 0 <-> (z <= 0)%Z.
Proof. change 0 with (inject_Z 0). now rewrite <- Zle_Qle. Qed.

Lemma eqv_refl (x : num) : (x ~= x)%num.
Proof. destruct x; simpl; auto. reflexivity. Qed.

Lemma eqv_sym (x y : num) : (x ~= y)%num -> (y ~= x)%num.
Proof. destruct x, y; simpl; auto. intro H; now symmetry. Qed.

Lemma eqv_trans (x y z : num) : (x ~= y)%num -> (y ~= z)%num -> (x ~= z)%num.
Proof.
  destruct x, y, z; simpl; auto; try contradiction.
  intros H1 H2. now rewrite H1.
Qed.

Lemma div_Fin (a b : Q) : ~ b == 0 -> (Fin a / Fin b)%num = Fin (a / b).
Proof.
  intro H. simpl. apply Qeq_bool_false in H. now rewrite H.
Qed.

(** ** Analytic estimator: degenerate and unstable inputs *)

(** C3.  Whenever [s <= 0] or [mu <= 0], and whenever the utilisation
    [lam / (s * mu)] computed by the code is [>= 1], [erlangC] returns 1 and
    [expectedWaitMinutes] returns +infinity (so neither a negative value
    nor NaN). *)
Theorem estimator_degenerate (lam mu : num) (s : Z) :
  (s <= 0)%Z \/ (mu <=? Fin 0)%num = true
  \/ (lam / (of_Z s * mu) >=? Fin 1)%num = true ->
  erlangC lam mu s = Fin 1 /\ expectedWaitMinutes lam mu s = PInf.
Proof.
  intros H. unfold erlangC, expectedWaitMinutes.
  destruct ((of_Z s <=? Fin 0)%num || (mu <=? Fin 0)%num) eqn:G.
  - split; reflexivity.
  - apply orb_false_iff in G. destruct G as [G1 G2].
    destruct H as [H | [H | H]]; try congruence.
    + apply inject_Z_le0, Qle_bool_iff in H. unfold of_Z in G1. simpl in G1. congruence.
    + rewrite H. split; reflexivity.
Qed.

(** ** Lane advisor *)

Lemma predictedQueueTime_degenerate (q : nat) (rate : Q) (servers : Z) :
  rate <= 0 \/ (servers <= 0)%Z -> predictedQueueTime q rate servers = PInf.
Proof.
  intros H. unfold predictedQueueTime. simpl.
  destruct H as [H | H].
  - apply Qle_bool_iff in H. now rewrite H.
  - apply inject_Z_le0, Qle_bool_iff in H. rewrite H. now rewrite orb_true_r.
Qed.

Lemma predictedQueueTime_ratio (q : nat) (rate : Q) (servers : Z) :
  0 < rate -> (0 < servers)%Z ->
  predictedQueueTime q rate servers
  = Fin (inject_Z (Z.of_nat q) / (rate * inject_Z servers)).
Proof.
  intros Hr Hs. unfold predictedQueueTime. simpl.
  apply Qle_bool_false in Hr. rewrite Hr.
  pose proof (inject_Z_pos _ Hs) as Hs'.
  pose proof Hs' as Hs2. apply Qle_bool_false in Hs2. rewrite Hs2. simpl.
  apply Qle_bool_false in Hr.
  assert (Hp : 0 < rate * inject_Z servers) by nra.
  assert (Hn : ~ rate * inject_Z servers == 0) by lra.
  apply Qeq_bool_false in Hn. now rewrite Hn.
Qed.

Lemma predictedQueueTime_delay (q : nat) (rate : Q) (servers : Z) :
  delay_like (predictedQueueTime q rate servers).
Proof.
  destruct (Qlt_le_dec 0 rate) as [Hr | Hr].
  - destruct (Z_lt_le_dec 0 servers) as [Hs | Hs].
    + right. rewrite predictedQueueTime_ratio by assumption.
      eexists; split; [reflexivity|].
      pose proof (inject_Z_pos _ Hs).
      pose proof (inject_Z_nonneg (Z.of_nat q) (Nat2Z.is_nonneg q)).
      apply Qle_shift_div_l; nra.
    + left. apply predictedQueueTime_degenerate. now right.
  - left. apply predictedQueueTime_degenerate. now left.
Qed.

Lemma delay_add (x y : num) : delay_like x -> delay_like y -> delay_like (x + y)%num.
Proof.
  intros [-> | (a & -> & Ha)] [-> | (b & -> & Hb)]; simpl; try (now left).
  right. eexists; split; [reflexivity | lra].
Qed.

Lemma delay_scale (x : num) (m : bool) : delay_like x -> delay_like (x * Fin (mobileFactor m))%num.
Proof.
  intros [-> | (a & -> & Ha)].
  - left. destruct m; reflexivity.
  - right. simpl. eexists; split; [reflexivity|].
    destruct m; simpl; nra.
Qed.

Lemma lane_total_delay (sys : Sys) (m : bool) (L : Lane) : delay_like (lane_total sys m L).
Proof.
  unfold lane_total.
  repeat apply delay_add; try apply predictedQueueTime_delay.
  apply delay_scale, predictedQueueTime_delay.
Qed.

Lemma delay_add_inf_r (x : num) : delay_like x -> (x + PInf)%num = PInf.
Proof. intros [-> | (a & -> & Ha)]; reflexivity. Qed.

Lemma delay_add_inf_l (x : num) : delay_like x -> (PInf + x)%num = PInf.
Proof. intros [-> | (a & -> & Ha)]; reflexivity. Qed.

Lemma ltb_inf_delay (x : num) :
  delay_like x -> (if (x <? PInf)%num then x else PInf) = x.
Proof. intros [-> | (a & -> & Ha)]; reflexivity. Qed.

(** What the two iterations of the loop compute. *)
Lemma chooseBestLane_unfold (sys : Sys) (m : bool) :
  chooseBestLane sys m
  = if (lane_total sys m LaneB <? lane_total sys m LaneA)%num
    then (LaneB, lane_total sys m LaneB)
    else (LaneA, lane_total sys m LaneA).
Proof.
  unfold chooseBestLane. simpl.
  destruct (lane_total_delay sys m LaneA) as [E | (a & E & Ha)]; rewrite E; simpl.
  - reflexivity.
  - reflexivity.
Qed.

Lemma lane_total_same_load (sys sys' : Sys) (m : bool) (L : Lane) :
  same_load sys sys' -> lane_total sys' m L = lane_total sys m L.
Proof.
  intros (Hp & HA & HB & Hpay & Hpick).
  unfold lane_total. rewrite Hp, Hpay, Hpick.
  destruct L; simpl; [rewrite HA | rewrite HB]; reflexivity.
Qed.

(** C5.  For each lane, in the order A then B, [chooseBestLane] computes
    the total [mobileFactor * orderDelay + payDelay + pickupDelay], where
    each delay is [queueLength / (rate * servers)], or +infinity when the
    rate or the server count is non-positive, and [mobileFactor < 1]
    exactly for mobile orders.  It returns lane B exactly when B's total is
    strictly lower, lane A otherwise (ties included), with the chosen
    lane's total as [eta]; and the result depends on the queue lengths and
    the parameters only, so repeated calls agree. *)
Theorem chooseBestLane_lower_total (sys : Sys) (m : bool) :
  let q := sys_queues sys in
  let p := sys_params sys in
  let tA := lane_total sys m LaneA in
  let tB := lane_total sys m LaneB in
  (forall L, lane_total sys m L
     = (predictedQueueTime (List.length (order_queue q L)) (orderRate p) (orderServers p L)
          * Fin (mobileFactor m)
        + predictedQueueTime (List.length (q_pay q)) (payRate p) (payServers p)
        + predictedQueueTime (List.length (q_pickup q)) (pickupRate p) (pickupServers p))%num)
  /\ (forall n rate servers, rate <= 0 \/ (servers <= 0)%Z ->
        predictedQueueTime n rate servers = PInf)
  /\ (forall n rate servers, 0 < rate -> (0 < servers)%Z ->
        predictedQueueTime n rate servers
        = Fin (inject_Z (Z.of_nat n) / (rate * inject_Z servers)))
  /\ (mobileFactor m < 1 <-> m = true)
  /\ (fst (chooseBestLane sys m) = LaneB <-> (tB <? tA)%num = true)
  /\ (fst (chooseBestLane sys m) = LaneA <-> (tB <? tA)%num = false)
  /\ (tA = tB -> fst (chooseBestLane sys m) = LaneA)
  /\ snd (chooseBestLane sys m) = lane_total sys m (fst (chooseBestLane sys m))
  /\ (forall sys', same_load sys sys' -> chooseBestLane sys' m = chooseBestLane sys m).
Proof.
  intros q p tA tB.
  assert (Hirr : forall x, delay_like x -> (x <? x)%num = false).
  { intros x [-> | (a & -> & Ha)]; simpl; [reflexivity|].
    apply Qltb_ge. lra. }
  repeat split.
  - apply predictedQueueTime_degenerate.
  - apply predictedQueueTime_ratio.
  - destruct m; simpl; [reflexivity | intro H; lra].
  - intros ->. reflexivity.
  - rewrite chooseBestLane_unfold. fold tA tB.
    destruct (tB <? tA)%num; simpl; congruence.
  - rewrite chooseBestLane_unfold. fold tA tB.
    intros ->. reflexivity.
  - rewrite chooseBestLane_unfold. fold tA tB.
    destruct (tB <? tA)%num; simpl; congruence.
  - rewrite chooseBestLane_unfold. fold tA tB.
    intros ->. reflexivity.
  - intros E. rewrite chooseBestLane_unfold. fold tA tB.
    rewrite <- E. rewrite (Hirr tA (lane_total_delay sys m LaneA)). reflexivity.
  - rewrite chooseBestLane_unfold.
    destruct (lane_total sys m LaneB <? lane_total sys m LaneA)%num; reflexivity.
  - intros sys' H. rewrite !chooseBestLane_unfold.
    now rewrite !(lane_total_same_load sys sys' m) by assumption.
Qed.

Lemma lane_total_shared_infinite (sys : Sys) (m : bool) (L : Lane) :
  let p := sys_params sys in
  (payRate p <= 0 \/ (payServers p <= 0)%Z
   \/ pickupRate p <= 0 \/ (pickupServers p <= 0)%Z \/ orderRate p <= 0) ->
  lane_total sys m L = PInf.
Proof.
  intros p H. unfold lane_total. fold p.
  set (tO := predictedQueueTime _ (orderRate p) _).
  set (tP := predictedQueueTime _ (payRate p) _).
  set (tU := predictedQueueTime _ (pickupRate p) _).
  assert (HO : delay_like (tO * Fin (mobileFactor m))%num)
    by apply delay_scale, predictedQueueTime_delay.
  assert (HP : delay_like tP) by apply predictedQueueTime_delay.
  assert (HU : delay_like tU) by apply predictedQueueTime_delay.
  destruct H as [H | [H | [H | [H | H]]]].
  - assert (E : tP = PInf) by (apply predictedQueueTime_degenerate; now left).
    rewrite E, (delay_add_inf_r _ HO). now apply delay_add_inf_l.
  - assert (E : tP = PInf) by (apply predictedQueueTime_degenerate; now right).
    rewrite E, (delay_add_inf_r _ HO). now apply delay_add_inf_l.
  - assert (E : tU = PInf) by (apply predictedQueueTime_degenerate; now left).
    rewrite E. apply delay_add_inf_r. now apply delay_add.
  - assert (E : tU = PInf) by (apply predictedQueueTime_degenerate; now right).
    rewrite E. apply delay_add_inf_r. now apply delay_add.
  - assert (E : tO = PInf) by (apply predictedQueueTime_degenerate; now left).
    rewrite E. replace (PInf * Fin (mobileFactor m))%num with PInf
      by (destruct m; reflexivity).
    rewrite (delay_add_inf_l _ HP). now apply delay_add_inf_l.
Qed.

(** C10.  When both lane totals are +infinity, [chooseBestLane] returns
    lane A with [eta] = +infinity, which compares as greater than every
    finite divert threshold; a non-positive rate or server count of a
    shared stage (or a non-positive order rate) is such a case.  On every
    system the returned [eta] is neither NaN nor negative. *)
Theorem chooseBestLane_all_infinite (sys : Sys) (m : bool) :
  (lane_total sys m LaneA = PInf -> lane_total sys m LaneB = PInf ->
     chooseBestLane sys m = (LaneA, PInf)
     /\ forall threshold : Q, (snd (chooseBestLane sys m) >? Fin threshold)%num = true)
  /\ (let p := sys_params sys in
      payRate p <= 0 \/ (payServers p <= 0)%Z
      \/ pickupRate p <= 0 \/ (pickupServers p <= 0)%Z \/ orderRate p <= 0 ->
      chooseBestLane sys m = (LaneA, PInf))
  /\ is_nan (snd (chooseBestLane sys m)) = false
  /\ (snd (chooseBestLane sys m) <? Fin 0)%num = false.
Proof.
  assert (Hd : delay_like (snd (chooseBestLane sys m))).
  { rewrite chooseBestLane_unfold.
    destruct (lane_total sys m LaneB <? lane_total sys m LaneA)%num; simpl;
      apply lane_total_delay. }
  repeat split.
  - rewrite chooseBestLane_unfold, H, H0. reflexivity.
  - intro threshold. rewrite chooseBestLane_unfold, H, H0. reflexivity.
  - intros p H. rewrite chooseBestLane_unfold.
    rewrite !lane_total_shared_infinite by assumption. reflexivity.
  - destruct Hd as [-> | (a & -> & Ha)]; reflexivity.
  - destruct Hd as [-> | (a & -> & Ha)]; simpl; [reflexivity|].
    apply Qltb_ge. exact Ha.
Qed.

(** ** Rebalancer *)

Lemma Stage_eqb_eq (a b : Stage) : Stage_eqb a b = true <-> a = b.
Proof. destruct a, b; simpl; split; congruence. Qed.

Lemma Stage_eqb_neq (a b : Stage) : Stage_eqb a b = false <-> a <> b.
Proof. destruct a, b; simpl; split; congruence. Qed.

Lemma sort_insert_perm {A : Type} (c : A -> A -> num) (x : A) (l : list A) :
  Permutation (sort_insert c x l) (x :: l).
Proof.
  induction l as [|y l IH]; cbn [sort_insert].
  - apply Permutation_refl.
  - destruct (c y x >? Fin 0)%num.
    + apply Permutation_refl.
    + eapply perm_trans; [apply perm_skip, IH | apply perm_swap].
Qed.

Lemma js_sort_perm {A : Type} (c : A -> A -> num) (l : list A) :
  Permutation (js_sort c l) l.
Proof.
  unfold js_sort.
  assert (G : forall acc, Permutation (fold_left (fun a x => sort_insert c x a) l acc) (acc ++ l)).
  { induction l as [|x l IH]; intro acc; simpl.
    - rewrite app_nil_r. apply Permutation_refl.
    - eapply perm_trans; [apply IH|].
      eapply perm_trans; [apply Permutation_app_tail, sort_insert_perm|].
      simpl. apply Permutation_middle. }
  apply (G []).
Qed.

Lemma sorted_entries_names (sys : Sys) (name : Stage) :
  In name (map fst (sorted_entries sys)).
Proof.
  eapply Permutation_in.
  - apply Permutation_sym, Permutation_map, js_sort_perm.
  - destruct name; simpl; auto.
Qed.

Lemma sorted_entries_hottest (sys : Sys) :
  exists v rest, sorted_entries sys = (hottest_of sys, v) :: rest.
Proof.
  unfold hottest_of.
  destruct (sorted_entries sys) as [|[h v] rest] eqn:E.
  - pose proof (sorted_entries_names sys orderA) as H. rewrite E in H. destruct H.
  - now exists v, rest.
Qed.

Lemma rebalanceServers_unfold (sys : Sys) :
  rebalanceServers sys
  = rebalance_loop (hottest_of sys) (rev (map fst (sorted_entries sys))) (sys_params sys).
Proof.
  unfold rebalanceServers.
  destruct (sorted_entries_hottest sys) as (v & rest & E).
  rewrite E. reflexivity.
Qed.

Lemma rebalance_loop_some (h : Stage) (names : list Stage) (p p' : Params) (from to : Stage) :
  rebalance_loop h names p = (Some (from, to), p') ->
  to = h /\ from <> h /\ In from names /\ (1 < stage_get p from)%Z
  /\ p' = move_server p from h.
Proof.
  induction names as [|n names IH]; simpl; [discriminate|].
  destruct (Stage_eqb n h) eqn:E.
  - intro H. destruct (IH H) as (? & ? & ? & ? & ?). auto 6.
  - destruct (stage_min n <? stage_get p n)%Z eqn:G.
    + intro H. inversion H; subst.
      apply Stage_eqb_neq in E. apply Z.ltb_lt in G.
      unfold stage_min in G. auto 6.
    + intro H. destruct (IH H) as (? & ? & ? & ? & ?). auto 6.
Qed.

Lemma rebalance_loop_none (h : Stage) (names : list Stage) (p : Params) :
  (forall name, In name names -> name <> h -> (stage_get p name <= 1)%Z) ->
  rebalance_loop h names p = (None, p).
Proof.
  induction names as [|n names IH]; simpl; intro H; [reflexivity|].
  destruct (Stage_eqb n h) eqn:E.
  - apply IH. intros; apply H; auto.
  - apply Stage_eqb_neq in E.
    assert (G : (stage_get p n <= 1)%Z) by (apply H; auto).
    unfold stage_min. apply Z.ltb_ge in G. rewrite G.
    apply IH. intros; apply H; auto.
Qed.

Lemma rebalance_loop_donor (h : Stage) (names : list Stage) (p : Params) :
  (exists name, In name names /\ name <> h /\ (1 < stage_get p name)%Z) ->
  exists from, rebalance_loop h names p = (Some (from, h), move_server p from h).
Proof.
  induction names as [|n names IH]; simpl; intros (name & Hin & Hne & Hgt); [contradiction|].
  destruct (Stage_eqb n h) eqn:E.
  - apply IH. exists name. destruct Hin as [-> | Hin]; [|auto].
    apply Stage_eqb_eq in E. contradiction.
  - destruct (stage_min n <? stage_get p n)%Z eqn:G.
    + exists n. reflexivity.
    + apply IH. exists name. destruct Hin as [-> | Hin]; [|auto].
      apply Z.ltb_ge in G. unfold stage_min in G. lia.
Qed.

Lemma move_server_total (p : Params) (from to : Stage) :
  from <> to -> total_servers (move_server p from to) = total_servers p.
Proof.
  intro H. unfold total_servers, move_server.
  destruct from, to; simpl; try congruence; lia.
Qed.

Lemma move_server_get (p : Params) (from to name : Stage) :
  from <> to ->
  stage_get (move_server p from to) name
  = (stage_get p name
     + (if Stage_eqb name to then 1 else 0)
     - (if Stage_eqb name from then 1 else 0))%Z.
Proof.
  intro H. unfold move_server.
  destruct from, to, name; simpl; try congruence; lia.
Qed.

(** C1.  A call of [rebalanceServers] that returns a pair [(from, to)]
    conserves the sum of the four server counts, moves one server from a
    stage that had more than one to the hottest stage, and leaves every
    stage with at least one server, every stage having at least one
    before the call (as in every assignment of the data model: the mount
    gives each stage one server and the controls never go below 1).  When
    every stage but the hottest has at most one server, the call returns
    [null] and changes no count. *)
Theorem rebalance_conserves_total (sys : Sys) :
  let p := sys_params sys in
  (forall from to p',
      rebalanceServers sys = (Some (from, to), p') ->
      total_servers p' = total_servers p
      /\ to = hottest_of sys /\ from <> to /\ (1 < stage_get p from)%Z
      /\ (1 <= stage_get p' from)%Z
      /\ (forall name, name <> from -> (stage_get p name <= stage_get p' name)%Z)
      /\ (staffed p -> staffed p'))
  /\ ((forall name, name <> hottest_of sys -> (stage_get p name <= 1)%Z) ->
      rebalanceServers sys = (None, p)).
Proof.
  intro p. split.
  - intros from to p' H. rewrite rebalanceServers_unfold in H.
    apply rebalance_loop_some in H. destruct H as (-> & Hne & _ & Hgt & ->).
    fold p in Hgt |- *.
    assert (Hget := move_server_get p from (hottest_of sys)).
    repeat split.
    + now apply move_server_total.
    + assumption.
    + assumption.
    + rewrite Hget by assumption.
      apply Stage_eqb_neq in Hne. rewrite Hne.
      replace (Stage_eqb from from) with true by (destruct from; reflexivity). lia.
    + intros name Hn. rewrite Hget by assumption.
      assert (E : Stage_eqb name from = false) by now apply Stage_eqb_neq.
      rewrite E. destruct (Stage_eqb name (hottest_of sys)); lia.
    + intros Hs name. unfold stage_min. rewrite Hget by assumption.
      specialize (Hs name). unfold stage_min in Hs.
      destruct (Stage_eqb name from) eqn:E.
      * apply Stage_eqb_eq in E. subst name.
        destruct (Stage_eqb from (hottest_of sys)); lia.
      * destruct (Stage_eqb name (hottest_of sys)); lia.
  - intro H. rewrite rebalanceServers_unfold.
    apply rebalance_loop_none. intros name _ Hn. now apply H.
Qed.

(** A stage other than the hottest with more than one server makes the
    call succeed. *)
Lemma rebalance_succeeds (sys : Sys) (name : Stage) :
  name <> hottest_of sys -> (1 < stage_get (sys_params sys) name)%Z ->
  exists from, rebalanceServers sys
               = (Some (from, hottest_of sys), move_server (sys_params sys) from (hottest_of sys)).
Proof.
  intros Hn Hgt. rewrite rebalanceServers_unfold.
  apply rebalance_loop_donor. exists name. repeat split; auto.
  apply -> in_rev. apply sorted_entries_names.
Qed.

(** The floor is kept by the call, not set by it: from an assignment
    outside the data model, A = 0, B = 2, pay = 0, pickup = 1, the call
    returns the pair (orderB, orderA) and pay stays at 0. *)
Lemma rebalance_keeps_unstaffed :
  total_servers (sys_params understaffed_sys) = 3%Z
  /\ fst (rebalanceServers understaffed_sys) = Some (orderB, orderA)
  /\ stage_get (snd (rebalanceServers understaffed_sys)) pay = 0%Z.
Proof. repeat split. Qed.

(** ** Spot allocator *)

(** The comparison [<] of two numbers, one of which may be [Infinity] or NaN. *)
Lemma ltb_irrefl (x : num) : (x <? x)%num = false.
Proof. destruct x; cbn; try reflexivity. apply Qltb_ge. lra. Qed.

Lemma ltb_trans (x y z : num) :
  (x <? y)%num = true -> (y <? z)%num = true -> (x <? z)%num = true.
Proof.
  destruct x as [a| | |], y as [b| | |], z as [c| | |]; cbn; try reflexivity; try discriminate.
  intros H1 H2. apply Qltb_lt in H1, H2. apply Qltb_lt. lra.
Qed.

Lemma ltb_kept (x y z : num) :
  (x <? y)%num = true -> (z <? y)%num = false -> (z <? x)%num = false.
Proof.
  intros H1 H2. destruct (z <? x)%num eqn:E; [|reflexivity].
  now rewrite (ltb_trans z x y E H1) in H2.
Qed.

Lemma ltb_pushed (x y z : num) :
  (x <? y)%num = true -> (z <? y)%num = false ->
  (x <? z)%num = true \/ (z <? PInf)%num = false.
Proof.
  destruct x as [a| | |], y as [b| | |], z as [c| | |]; cbn; auto; try discriminate.
  intros H1 H2. left. apply Qltb_lt in H1. apply Qltb_ge in H2. apply Qltb_lt. lra.
Qed.

Lemma ltb_above_inf (x y : num) : (x <? PInf)%num = false -> (x <? y)%num = false.
Proof. destruct x, y; cbn; try reflexivity; discriminate. Qed.

Section SpotAllocator.

Variable hypot : Q -> Q -> Q.
Variables (entrance : Point) (w : Weights).

Local Abbreviation score := (spot_score hypot entrance w).
Local Abbreviation scanned' := (scanned hypot entrance w).

Lemma eligible_flags (s : Spot) :
  eligible s = true <-> occupied s = false /\ reserved s = false.
Proof.
  unfold eligible. rewrite andb_true_iff, !negb_true_iff. tauto.
Qed.

Lemma eligible_guard (s : Spot) : occupied s || reserved s = negb (eligible s).
Proof. unfold eligible. destruct (occupied s), (reserved s); reflexivity. Qed.

Lemma nth_error_snoc {A : Type} (pre : list A) (x : A) (k : nat) (y : A) :
  nth_error (pre ++ [x]) k = Some y ->
  nth_error pre k = Some y \/ (k = List.length pre /\ y = x).
Proof.
  intro H. destruct (Nat.lt_ge_cases k (List.length pre)) as [Hlt | Hge].
  - left. now rewrite nth_error_app1 in H.
  - right. rewrite nth_error_app2 in H by assumption.
    destruct (k - List.length pre)%nat as [|d] eqn:E; simpl in H.
    + split; [lia | congruence].
    + destruct d; discriminate.
Qed.

Lemma scanned_skip (pre : list Spot) (s : Spot) best bestScore :
  eligible s = false -> scanned' pre best bestScore -> scanned' (pre ++ [s]) best bestScore.
Proof.
  intros Hs. unfold scanned. destruct best as [[j s0]|].
  - intros (Hb & Hn & He & Hfin & Hmin). repeat split; auto.
    + rewrite nth_error_app1; [assumption|]. apply nth_error_Some. congruence.
    + destruct (nth_error_snoc _ _ _ _ H) as [H1 | [_ ->]]; [|congruence].
      now apply (Hmin k s').
    + destruct (nth_error_snoc _ _ _ _ H) as [H1 | [_ ->]]; [|congruence].
      now apply (Hmin k s').
  - intros (Hb & Hall). split; [assumption|].
    intros s' Hin. apply in_app_or in Hin. destruct Hin as [Hin | [<- | []]]; auto.
    congruence.
Qed.

Lemma scanned_better (pre : list Spot) (s : Spot) best bestScore :
  eligible s = true -> (score s <? bestScore)%num = true ->
  scanned' pre best bestScore ->
  scanned' (pre ++ [s]) (Some (List.length pre, s)) (score s).
Proof.
  intros Hs Hlt Hsc. unfold scanned.
  split; [reflexivity|]. split; [rewrite nth_error_app2 by lia; now rewrite Nat.sub_diag|].
  split; [assumption|]. split.
  - destruct best as [[j s0]|]; simpl in Hsc.
    + destruct Hsc as (-> & _ & _ & Hfin & _). exact (ltb_trans _ _ _ Hlt Hfin).
    + destruct Hsc as (-> & _). exact Hlt.
  - intros k s' Hk He.
    destruct (nth_error_snoc _ _ _ _ Hk) as [H1 | [-> ->]].
    + destruct best as [[j s0]|]; simpl in Hsc.
      * destruct Hsc as (-> & _ & _ & _ & Hmin). destruct (Hmin k s' H1 He) as [Hle _].
        split; [exact (ltb_kept _ _ _ Hlt Hle) | intros _; exact (ltb_pushed _ _ _ Hlt Hle)].
      * destruct Hsc as (_ & Hall). apply nth_error_In in H1.
        specialize (Hall _ H1 He).
        split; [now apply ltb_above_inf | now right].
    + split; [apply ltb_irrefl | lia].
Qed.

Lemma scanned_worse (pre : list Spot) (s : Spot) best bestScore :
  eligible s = true -> (score s <? bestScore)%num = false ->
  scanned' pre best bestScore -> scanned' (pre ++ [s]) best bestScore.
Proof.
  intros Hs Hge. unfold scanned. destruct best as [[j s0]|].
  - intros (-> & Hn & He & Hfin & Hmin).
    assert (Hj : (j < List.length pre)%nat) by (apply nth_error_Some; congruence).
    repeat split; auto.
    + now rewrite nth_error_app1.
    + destruct (nth_error_snoc _ _ _ _ H) as [H1 | [_ ->]]; [|assumption].
      now apply (Hmin k s').
    + intro Hk. destruct (nth_error_snoc _ _ _ _ H) as [H1 | [-> _]]; [|lia].
      now apply (Hmin k s').
  - intros (-> & Hall). split; [reflexivity|].
    intros s' Hin He. apply in_app_or in Hin. destruct Hin as [Hin | [<- | []]]; auto.
Qed.

Lemma spot_loop_scanned (rest pre : list Spot) best bestScore :
  scanned' pre best bestScore ->
  exists bestScore',
    scanned' (pre ++ rest)
      (spot_loop hypot entrance w (List.length pre) rest best bestScore) bestScore'.
Proof.
  revert pre best bestScore.
  induction rest as [|s rest IH]; intros pre best bestScore Hsc; cbn [spot_loop].
  - exists bestScore. now rewrite app_nil_r.
  - replace (pre ++ s :: rest) with ((pre ++ [s]) ++ rest)
      by (rewrite <- app_assoc; reflexivity).
    replace (S (List.length pre)) with (List.length (pre ++ [s]))
      by (rewrite length_app; simpl; lia).
    rewrite eligible_guard.
    destruct (eligible s) eqn:Hs; cbn [negb].
    + destruct (score s <? bestScore)%num eqn:Hlt.
      * apply IH. eapply scanned_better; eauto.
      * apply IH. now apply scanned_worse.
    + apply IH. now apply scanned_skip.
Qed.

(** With finite weights every score is a finite number. *)
Lemma finite_weights_score (a b c d : Q) (s : Spot) :
  w = mkWeights (Fin a) (Fin b) (Fin c) (Fin d) -> exists q, score s = Fin q.
Proof. intros ->. unfold spot_score. cbn. eauto. Qed.

End SpotAllocator.

Section SpotAllocatorResults.

Variable hypot : Q -> Q -> Q.

Lemma chooseParkingSpot_scanned (spots : list Spot) (opts : option Opts) :
  exists bestScore,
    scanned hypot (entrance_of opts) (w_of opts) spots
      (chooseParkingSpot hypot spots opts) bestScore.
Proof.
  unfold chooseParkingSpot.
  apply (spot_loop_scanned hypot (entrance_of opts) (w_of opts) spots [] None PInf).
  split; [reflexivity | intros s []].
Qed.

(** [null] is returned exactly when no eligible spot has a score below
    [Infinity]. *)
Lemma chooseParkingSpot_none (spots : list Spot) (opts : option Opts) :
  chooseParkingSpot hypot spots opts = None <->
  (forall s, In s spots -> eligible s = true ->
     (spot_score hypot (entrance_of opts) (w_of opts) s <? PInf)%num = false).
Proof.
  destruct (chooseParkingSpot_scanned spots opts) as (b & H).
  split.
  - intro E. rewrite E in H. apply H.
  - intro Hall. destruct (chooseParkingSpot hypot spots opts) as [[j s]|]; [|reflexivity].
    destruct H as (_ & Hn & He & Hfin & _). apply nth_error_In in Hn.
    rewrite (Hall _ Hn He) in Hfin. discriminate.
Qed.

(** The call of [step]: the default weights give finite scores. *)
Lemma step_entrance_score (s : Spot) :
  (spot_score hypot (entrance_of step_entrance) (w_of step_entrance) s <? PInf)%num = true.
Proof. reflexivity. Qed.

Lemma step_entrance_none (spots : list Spot) :
  chooseParkingSpot hypot spots step_entrance = None <->
  (forall s, In s spots -> eligible s = false).
Proof.
  rewrite chooseParkingSpot_none. split; intros H s Hin.
  - destruct (eligible s) eqn:E; [|reflexivity].
    specialize (H s Hin E). now rewrite step_entrance_score in H.
  - intro E. rewrite (H s Hin) in E. discriminate.
Qed.

(** C7 (as amended).  For every spot list, entrance position and weights:
    the score is
    [w.dist * hypot(dx, dy) + w.exit * exitFriction + w.cong * localCongestion
     + w.angle * (backIn ? 0.7 : 0)]; [chooseParkingSpot] returns a spot of
    the list that is neither occupied nor reserved, whose score is below
    [Infinity] and such that no spot with both flags false has a smaller
    score; it returns [null] exactly when no spot with both flags false has
    a score below [Infinity].  When the score of every spot with both flags
    false is a finite number, as it is with four finite weights, the
    returned spot is the first of minimal score among them, and [null]
    is returned exactly when every spot is occupied or reserved.  A
    missing [entrance] or [w] stands for the default.  The function only
    reads its arguments: its result is the returned spot, and no list is
    written. *)
Theorem chooseParkingSpot_minimal (spots : list Spot) (e : Point) (w : Weights) :
  let opts := Some (mkOpts (Some e) (Some w)) in
  let score := spot_score hypot e w in
  let free := fun s => occupied s = false /\ reserved s = false in
  (forall s, score s
     = (w_dist w * Fin (hypot (spot_x s - pt_x e) (spot_y s - pt_y e))
        + w_exit w * Fin (exitFriction s) + w_cong w * Fin (localCongestion s)
        + w_angle w * Fin (if backIn s then 7 # 10 else 0))%num)
  /\ (forall i s,
        chooseParkingSpot hypot spots opts = Some (i, s) ->
        nth_error spots i = Some s /\ free s /\ (score s <? PInf)%num = true
        /\ forall k s', nth_error spots k = Some s' -> free s' ->
             (score s' <? score s)%num = false)
  /\ (chooseParkingSpot hypot spots opts = None <->
      forall s, In s spots -> free s -> (score s <? PInf)%num = false)
  /\ ((forall s, In s spots -> free s -> exists q, score s = Fin q) ->
      (forall i s,
          chooseParkingSpot hypot spots opts = Some (i, s) ->
          forall k s', nth_error spots k = Some s' -> free s' -> (k < i)%nat ->
            (score s <? score s')%num = true)
      /\ (chooseParkingSpot hypot spots opts = None <->
          forall s, In s spots -> occupied s = true \/ reserved s = true))
  /\ (forall a b c d, w = mkWeights (Fin a) (Fin b) (Fin c) (Fin d) ->
      forall s, exists q, score s = Fin q)
  /\ chooseParkingSpot hypot spots None
     = chooseParkingSpot hypot spots (Some (mkOpts (Some (mkPoint 6 70)) (Some default_w)))
  /\ chooseParkingSpot hypot spots (Some (mkOpts None None))
     = chooseParkingSpot hypot spots (Some (mkOpts (Some (mkPoint 6 70)) (Some default_w)))
  /\ chooseParkingSpot hypot spots (Some (mkOpts (Some e) None))
     = chooseParkingSpot hypot spots (Some (mkOpts (Some e) (Some default_w)))
  /\ chooseParkingSpot hypot spots (Some (mkOpts None (Some w)))
     = chooseParkingSpot hypot spots (Some (mkOpts (Some (mkPoint 6 70)) (Some w)))
  /\ default_w = mkWeights (Fin 1) (Fin (6 # 10)) (Fin (8 # 10)) (Fin (2 # 10)).
Proof.
  intros opts score free.
  pose proof (chooseParkingSpot_scanned spots opts) as (b & Hsc).
  pose proof (chooseParkingSpot_none spots opts) as Hnone.
  change (entrance_of opts) with e in Hsc, Hnone.
  change (w_of opts) with w in Hsc, Hnone.
  subst score.
  assert (Hfree : forall s, free s <-> eligible s = true).
  { intro s. symmetry. apply eligible_flags. }
  split; [reflexivity|].
  split; [|split; [|split; [|split; [|repeat split]]]].
  - intros i s E. rewrite E in Hsc. destruct Hsc as (_ & Hn & He & Hfin & Hmin).
    split; [exact Hn|]. split; [now apply Hfree|]. split; [exact Hfin|].
    intros k s' Hk Hs'. apply (Hmin k s' Hk). now apply Hfree.
  - rewrite Hnone. split; intros H s Hin Hs; apply (H s Hin); now apply Hfree.
  - intro Hfinite. split.
    + intros i s E k s' Hk Hs' Hlt. rewrite E in Hsc.
      destruct Hsc as (_ & _ & _ & _ & Hmin).
      destruct (Hmin k s' Hk (proj1 (Hfree s') Hs')) as [_ [H | H]]; [exact Hlt|exact H|].
      destruct (Hfinite s' (nth_error_In _ _ Hk) Hs') as (q & Hq).
      rewrite Hq in H. discriminate.
    + rewrite Hnone. split.
      * intros H s Hin. destruct (occupied s) eqn:Ho; [now left|].
        destruct (reserved s) eqn:Hr; [now right|]. exfalso.
        assert (Hs : free s) by (split; assumption).
        destruct (Hfinite s Hin Hs) as (q & Hq).
        specialize (H s Hin (proj1 (Hfree s) Hs)). rewrite Hq in H. discriminate.
      * intros H s Hin He. apply Hfree in He. destruct He as [Ho Hr].
        destruct (H s Hin); congruence.
  - intros a b' c d Hw s. now apply (finite_weights_score hypot e w a b' c d).
Qed.

End SpotAllocatorResults.

(** C7 as stated fails for a weight that is not finite: with
    [w.dist = Infinity] every score is [Infinity], no score is below the
    initial [bestScore], and the call returns [null] although two spots
    of the lot are neither occupied nor reserved. *)
Lemma chooseParkingSpot_infinite_counterexample :
  (exists s, In s small_lot /\ occupied s = false /\ reserved s = false)
  /\ chooseParkingSpot hypot_milli small_lot
       (Some (mkOpts (Some (mkPoint 6 70)) (Some infinite_w))) = None
  /\ ~ (forall spots e w,
          chooseParkingSpot hypot_milli spots (Some (mkOpts (Some e) (Some w))) = None
          <-> forall s, In s spots -> occupied s = true \/ reserved s = true).
Proof.
  split; [|split].
  - exists (mkSpot "S3" 18 60 false false (4 # 10) (3 # 10) true).
    split; [right; right; left; reflexivity | split; reflexivity].
  - reflexivity.
  - intro H.
    assert (E : chooseParkingSpot hypot_milli small_lot
                  (Some (mkOpts (Some (mkPoint 6 70)) (Some infinite_w))) = None)
      by reflexivity.
    pose proof (proj1 (H small_lot (mkPoint 6 70) infinite_w) E) as G.
    destruct (G (mkSpot "S3" 18 60 false false (4 # 10) (3 # 10) true)) as [K | K];
      [right; right; left; reflexivity | discriminate | discriminate].
Qed.

(** ** Engine: the arrivals phase *)

Section EngineProperties.

Variable hypot : Q -> Q -> Q.
Variable log : Q -> num.
Variable toString36 : Q -> string.
Variable random_stream : nat -> Q.

Local Abbreviation exp' := (exp log random_stream).
Local Abbreviation new_car' := (new_car toString36 random_stream).
Local Abbreviation admit_route' := (admit_route hypot toString36 random_stream).
Local Abbreviation admit_arrival' := (admit_arrival hypot log toString36 random_stream).
Local Abbreviation step' := (step hypot log toString36 random_stream).
Local Abbreviation arriving_car' := (arriving_car toString36 random_stream).
Local Abbreviation advice' := (advice toString36 random_stream).
Local Abbreviation over_threshold' := (over_threshold toString36 random_stream).
Local Abbreviation counted' := (counted toString36 random_stream).

Lemma exp_frame (rate : Q) (st : State) :
  let st' := snd (exp' rate st) in
  queues st' = queues st /\ params st' = params st /\ spots st' = spots st
  /\ metrics st' = metrics st /\ heap st' = heap st.
Proof.
  unfold exp. destruct (Fin rate <=? Fin 0)%num; simpl; auto.
Qed.

Lemma admit_frame (now : Q) (st : State) :
  let st1 := admit_route' now st in
  let st' := admit_arrival' now st in
  queues st' = queues st1 /\ params st' = params st1 /\ spots st' = spots st1
  /\ metrics st' = metrics st1 /\ heap st' = heap st1.
Proof.
  unfold admit_arrival.
  pose proof (exp_frame (arrivalRate (params (admit_route' now st)) / 60)
                (admit_route' now st)) as H.
  destruct (exp' (arrivalRate (params (admit_route' now st)) / 60) (admit_route' now st))
    as [gap st2]. simpl in H. simpl. exact H.
Qed.

Lemma admit_route_cases (now : Q) (st : State) :
  admit_route' now st
  = if (snd (advice' now st) >? Fin (divertThresholdMin (params st)))%num then
      match chooseParkingSpot hypot (spots st) step_entrance with
      | Some (i, spot) => park (arriving_car' now st) i spot (counted' now st)
      | None => join_lane (arriving_car' now st) (fst (advice' now st)) (counted' now st)
      end
    else join_lane (arriving_car' now st) (fst (advice' now st)) (counted' now st).
Proof.
  unfold admit_route, advice, arriving_car, counted, new_car, random. simpl.
  destruct (chooseBestLane _ _) as [lane eta]. reflexivity.
Qed.

Lemma free_spot_found (st : State) :
  free_spot st
  <-> exists i spot, chooseParkingSpot hypot (spots st) step_entrance = Some (i, spot).
Proof.
  split.
  - intros (s & Hin & Ho & Hr).
    destruct (chooseParkingSpot hypot (spots st) step_entrance) as [[i spot]|] eqn:E; [eauto|].
    rewrite step_entrance_none in E. specialize (E s Hin).
    unfold eligible in E. rewrite Ho, Hr in E. discriminate.
  - intros (i & spot & E).
    destruct (chooseParkingSpot_scanned hypot (spots st) step_entrance) as (b & Hsc).
    rewrite E in Hsc. destruct Hsc as (_ & Hn & He & _).
    apply eligible_flags in He. exists spot. split; [|assumption].
    now apply nth_error_In in Hn.
Qed.

Lemma occupy_at_other (i j : nat) (b : bool) (l : list Spot) :
  i <> j -> nth_error (occupy_at i b l) j = nth_error l j.
Proof.
  revert i j. induction l as [|x l IH]; intros [|i] [|j] H; simpl; try reflexivity.
  - congruence.
  - apply IH. congruence.
Qed.

Lemma occupy_at_nth (i : nat) (b : bool) (l : list Spot) (s : Spot) :
  nth_error l i = Some s ->
  nth_error (occupy_at i b l) i = Some (spot_set_occupied s b).
Proof.
  revert i. induction l as [|x l IH]; intros [|i]; simpl; try discriminate.
  - congruence.
  - apply IH.
Qed.


(** ** Engine: conservation *)

Lemma wip_of_objs (q : Queues) : wip_of q = List.length (objs q).
Proof.
  unfold wip_of, objs, all_cars. rewrite length_map, !length_app. lia.
Qed.

Lemma conserved_objs (st : State) :
  conserved st <->
  arrivals (metrics st) = (served (metrics st) + List.length (objs (queues st)))%nat
  /\ NoDup (objs (queues st))
  /\ Forall (fun o => (o < heap st)%nat) (objs (queues st)).
Proof.
  rewrite <- wip_of_objs. unfold objs. rewrite Forall_map. split.
  - intros [H1 H2 H3]. auto.
  - intros (H1 & H2 & H3). now constructor.
Qed.

Lemma evolves_same (st st' : State) :
  Permutation (objs (queues st)) (objs (queues st')) ->
  served (metrics st') = served (metrics st) ->
  arrivals (metrics st') = arrivals (metrics st) ->
  heap st' = heap st ->
  evolves st st'.
Proof.
  intros Hp Hs Ha Hh. exists []. simpl. repeat split; auto. lia.
Qed.

Lemma evolves_refl (st : State) : evolves st st.
Proof. apply evolves_same; auto. Qed.

Lemma evolves_trans (a b c : State) : evolves a b -> evolves b c -> evolves a c.
Proof.
  intros (g1 & P1 & S1 & A1 & H1) (g2 & P2 & S2 & A2 & H2).
  exists (g1 ++ g2). repeat split; try congruence.
  - rewrite P1, P2, app_assoc. reflexivity.
  - rewrite S2, S1, length_app. lia.
Qed.

Lemma conserved_evolves (st st' : State) : conserved st -> evolves st st' -> conserved st'.
Proof.
  rewrite !conserved_objs.
  intros (Hc & Hn & Hf) (gone & P & S & A & H).
  repeat split.
  - rewrite A, S, Hc. apply Permutation_length in P. rewrite length_app in P. lia.
  - apply (Permutation_NoDup P) in Hn. now apply NoDup_app_remove_l in Hn.
  - rewrite H. apply (Permutation_Forall P) in Hf. now apply Forall_app in Hf.
Qed.

Lemma conserved_arrival (st st' : State) :
  conserved st ->
  Permutation (objs (queues st')) (heap st :: objs (queues st)) ->
  arrivals (metrics st') = S (arrivals (metrics st)) ->
  served (metrics st') = served (metrics st) ->
  heap st' = S (heap st) ->
  conserved st'.
Proof.
  rewrite !conserved_objs.
  intros (Hc & Hn & Hf) P A S H.
  repeat split.
  - rewrite A, S, Hc. apply Permutation_length in P. simpl in P. lia.
  - apply Permutation_sym in P. apply (Permutation_NoDup P).
    constructor; [|assumption].
    intro Hin. rewrite Forall_forall in Hf. specialize (Hf _ Hin). lia.
  - apply Permutation_sym in P. apply (Permutation_Forall P).
    constructor; [rewrite H; lia|].
    rewrite H. eapply Forall_impl; [|exact Hf]. simpl. intros; lia.
Qed.

Ltac perm_objs :=
  unfold objs, all_cars; simpl; unfold push;
  repeat (rewrite map_app; simpl); rewrite <- ?app_assoc; simpl;
  rewrite <- ?Permutation_middle; rewrite ?app_nil_r; reflexivity.

Lemma conserved_admit (now : Q) (st : State) : conserved st -> conserved (admit_arrival' now st).
Proof.
  intro Hc.
  destruct (admit_frame now st) as (Fq & _ & _ & Fm & Fh).
  apply (conserved_arrival st); [assumption| | | |]; rewrite ?Fq, ?Fm, ?Fh; clear Fq Fm Fh;
    rewrite admit_route_cases;
    destruct (snd (advice' now st) >? Fin (divertThresholdMin (params st)))%num;
    try destruct (chooseParkingSpot hypot (spots st) step_entrance) as [[i spot]|];
    try reflexivity;
    try (destruct (fst (advice' now st)); perm_objs).
Qed.

Lemma arrivals_loop_conserved (fuel : nat) (now : Q) (st st' : State) :
  conserved st ->
  arrivals_loop hypot log toString36 random_stream fuel now st = Some st' ->
  conserved st'.
Proof.
  revert st. induction fuel as [|fuel IH]; intros st Hc; simpl.
  - destruct (nextArrival st <=? Fin 0)%num; [discriminate|].
    intro H; inversion H; now subst.
  - destruct (nextArrival st <=? Fin 0)%num.
    + apply IH. now apply conserved_admit.
    + intro H; inversion H; now subst.
Qed.

Lemma shift_some {A : Type} (l : list A) (x : A) (rest : list A) :
  shift l = Some (x, rest) -> l = x :: rest.
Proof. destruct l; simpl; congruence. Qed.

Lemma order_service_evolves (dt now : Q) (L : Lane) (st : State) :
  evolves st (order_service dt now L st).
Proof.
  unfold order_service.
  destruct ((0 <? List.length (order_queue (queues st) L))%nat
            && (of_Z (orderServers (params st) L) >? Fin 0)%num).
  - match goal with |- context [if ?c then _ else _] => destruct c end.
    + destruct (shift _) as [[car rest]|] eqn:E.
      * apply shift_some in E.
        apply evolves_same; try (destruct L; reflexivity).
        destruct L; simpl in E |- *; unfold objs, all_cars; rewrite E; perm_objs.
      * apply evolves_same; destruct L; reflexivity.
    + apply evolves_same; destruct L; reflexivity.
  - apply evolves_same; destruct L; reflexivity.
Qed.

Lemma pay_service_evolves (dt now : Q) (st : State) : evolves st (pay_service dt now st).
Proof.
  unfold pay_service.
  destruct ((0 <? List.length (q_pay (queues st)))%nat
            && (of_Z (payServers (params st)) >? Fin 0)%num).
  - match goal with |- context [if ?c then _ else _] => destruct c end.
    + destruct (shift _) as [[car rest]|] eqn:E.
      * apply shift_some in E.
        apply evolves_same; try reflexivity.
        simpl in E |- *; unfold objs, all_cars; rewrite E; perm_objs.
      * apply evolves_same; reflexivity.
    + apply evolves_same; reflexivity.
  - apply evolves_same; reflexivity.
Qed.

Lemma pickup_service_evolves (dt now : Q) (st : State) : evolves st (pickup_service dt now st).
Proof.
  unfold pickup_service.
  destruct ((0 <? List.length (q_pickup (queues st)))%nat
            && (of_Z (pickupServers (params st)) >? Fin 0)%num).
  - match goal with |- context [if ?c then _ else _] => destruct c end.
    + destruct (shift _) as [[car rest]|] eqn:E.
      * apply shift_some in E. simpl in E.
        exists [car_obj car]. repeat split; try reflexivity.
        -- unfold objs, all_cars; rewrite E; perm_objs.
        -- simpl. lia.
      * apply evolves_same; reflexivity.
    + apply evolves_same; reflexivity.
  - apply evolves_same; reflexivity.
Qed.

Lemma curbside_loop_evolves (now : Q) (todo kept : list Car) (st : State) :
  let st' := curbside_loop random_stream now todo kept st in
  exists gone : list nat,
    Permutation (map car_obj (rev todo ++ kept))
                (gone ++ map car_obj (q_curbside (queues st')))
    /\ q_orderA (queues st') = q_orderA (queues st)
    /\ q_orderB (queues st') = q_orderB (queues st)
    /\ q_pay (queues st') = q_pay (queues st)
    /\ q_pickup (queues st') = q_pickup (queues st)
    /\ served (metrics st') = (served (metrics st) + List.length gone)%nat
    /\ arrivals (metrics st') = arrivals (metrics st)
    /\ heap st' = heap st.
Proof.
  revert kept st. induction todo as [|car todo IH]; intros kept st; cbn [curbside_loop].
  - exists []. simpl. repeat split; auto.
  - set (pick := assign_readyAt random_stream car st).
    assert (Hpick : car_obj (fst pick) = car_obj car
                    /\ queues (snd pick) = queues st
                    /\ metrics (snd pick) = metrics st
                    /\ heap (snd pick) = heap st).
    { unfold pick, assign_readyAt. destruct (readyAt_falsy car); simpl; auto. }
    destruct pick as [car1 st1]. simpl in Hpick.
    destruct Hpick as (Ho & Hq & Hm & Hh).
    assert (Hrev : Permutation (map car_obj (rev (car :: todo) ++ kept))
                     (car_obj car :: map car_obj (rev todo ++ kept))).
    { simpl. rewrite <- app_assoc. simpl. rewrite !map_app. simpl.
      rewrite <- Permutation_middle. reflexivity. }
    match goal with |- context [if ?c then _ else _] => destruct c end.
    + match goal with |- context [curbside_loop _ _ _ _ ?s] => set (st3 := s) end.
      destruct (IH kept st3) as (gone & P & QA & QB & QP & QU & S & A & H).
      exists (car_obj car :: gone).
      split; [rewrite Hrev; simpl; now apply perm_skip|].
      split; [rewrite QA; unfold st3; simpl; now rewrite Hq|].
      split; [rewrite QB; unfold st3; simpl; now rewrite Hq|].
      split; [rewrite QP; unfold st3; simpl; now rewrite Hq|].
      split; [rewrite QU; unfold st3; simpl; now rewrite Hq|].
      split; [rewrite S; unfold st3; simpl; rewrite Hm; lia|].
      split; [rewrite A; unfold st3; simpl; now rewrite Hm|].
      rewrite H; unfold st3; simpl; now rewrite Hh.
    + destruct (IH (car1 :: kept) st1) as (gone & P & QA & QB & QP & QU & S & A & H).
      exists gone.
      rewrite Hq in QA, QB, QP, QU. rewrite Hm in S, A. rewrite Hh in H.
      repeat split; auto.
      rewrite <- P. simpl. rewrite <- app_assoc. simpl.
      rewrite !map_app. simpl. now rewrite Ho.
Qed.

Lemma curbside_completions_evolves (now : Q) (st : State) :
  evolves st (curbside_completions random_stream now st).
Proof.
  unfold curbside_completions.
  destruct (curbside_loop_evolves now (rev (q_curbside (queues st))) [] st)
    as (gone & P & QA & QB & QP & QU & S & A & H).
  exists gone. repeat split; auto.
  rewrite rev_involutive, app_nil_r in P.
  unfold objs, all_cars. rewrite QA, QB, QP, QU.
  rewrite !map_app. rewrite P.
  set (mA := map car_obj (q_orderA (queues st))).
  set (mB := map car_obj (q_orderB (queues st))).
  set (mP := map car_obj (q_pay (queues st))).
  set (mU := map car_obj (q_pickup (queues st))).
  set (mC := map car_obj (q_curbside (queues _))).
  transitivity ((mA ++ mB ++ mP ++ mU) ++ gone ++ mC).
  { rewrite <- !app_assoc. reflexivity. }
  rewrite app_assoc, (Permutation_app_comm _ gone), <- !app_assoc. reflexivity.
Qed.

Lemma record_wip_evolves (now : Q) (st : State) : evolves st (record_wip now st).
Proof. apply evolves_same; reflexivity. Qed.

Lemma maybe_rebalance_evolves (st : State) : evolves st (maybe_rebalance random_stream st).
Proof.
  unfold maybe_rebalance.
  destruct (autoRebalance (params st)); [|apply evolves_refl].
  simpl. destruct (Qltb _ _); apply evolves_same; reflexivity.
Qed.

Lemma step_conserved (fuel : nat) (now dt : Q) (st st' : State) :
  conserved st -> step' fuel now dt st = Some st' -> conserved st'.
Proof.
  intros Hc. unfold step.
  destruct (arrivals_loop _ _ _ _ fuel now _) as [st2|] eqn:E; [|discriminate].
  intro H. inversion H; subst st'; clear H.
  apply arrivals_loop_conserved in E.
  - eapply conserved_evolves; [exact E|].
    eapply evolves_trans; [apply (order_service_evolves dt now LaneA)|].
    eapply evolves_trans; [apply (order_service_evolves dt now LaneB)|].
    eapply evolves_trans; [apply pay_service_evolves|].
    eapply evolves_trans; [apply pickup_service_evolves|].
    eapply evolves_trans; [apply curbside_completions_evolves|].
    eapply evolves_trans; [apply record_wip_evolves|].
    apply maybe_rebalance_evolves.
  - destruct Hc as [H1 H2 H3]. constructor; assumption.
Qed.

Lemma cold_start_conserved (st : State) : conserved (cold_start log random_stream st).
Proof.
  unfold cold_start.
  destruct (generateSpots random_stream st) as [sp st1].
  destruct (exp' _ st1) as [gap st2].
  constructor; simpl; [reflexivity | constructor | constructor].
Qed.

End EngineProperties.

(** ** Metrics: the running average *)

Lemma inject_nat_S (n : nat) : inject_Z (Z.of_nat (S n)) == inject_Z (Z.of_nat n) + 1.
Proof. rewrite Nat2Z.inj_succ. unfold Z.succ. rewrite inject_Z_plus. reflexivity. Qed.

Lemma inject_nat_S_pos (n : nat) : 0 < inject_Z (Z.of_nat (S n)).
Proof. apply inject_Z_pos. lia. Qed.

Lemma Qsum_app (l l' : list Q) : Qsum (l ++ l') == Qsum l + Qsum l'.
Proof.
  induction l as [|x l IH]; simpl.
  - lra.
  - rewrite IH. lra.
Qed.

Lemma avg_update_sum (a w n k : Q) :
  0 < k -> k == n + 1 -> (a * (k - 1) + w) / k * k == a * n + (w + 0).
Proof.
  intros Hk E.
  setoid_replace ((a * (k - 1) + w) / k * k) with (a * (k - 1) + w) by (field; lra).
  rewrite E. ring.
Qed.

Lemma avg_update_welford (a w k : Q) :
  0 < k -> (a * (k - 1) + w) / k == a + (w - a) / k.
Proof. intros Hk. field. lra. Qed.

Lemma recordCompletion_averages (m : Metrics) (prev : list Q) (w : Q) :
  averages m prev -> averages (recordCompletion m w) (prev ++ [w]).
Proof.
  intros [Hn Ha]. unfold averages, recordCompletion. simpl served. simpl avgWait.
  split.
  - rewrite length_app. simpl. lia.
  - rewrite Qsum_app. simpl. rewrite <- Ha.
    apply avg_update_sum; [apply inject_nat_S_pos | apply inject_nat_S].
Qed.

Lemma fold_recordCompletion_averages (ws prev : list Q) (m : Metrics) :
  averages m prev -> averages (fold_left recordCompletion ws m) (prev ++ ws).
Proof.
  revert prev m. induction ws as [|w ws IH]; intros prev m H; simpl.
  - now rewrite app_nil_r.
  - replace (prev ++ w :: ws) with ((prev ++ [w]) ++ ws)
      by (rewrite <- app_assoc; reflexivity).
    apply IH. now apply recordCompletion_averages.
Qed.

Lemma averages_same (m m' : Metrics) (ws : list Q) :
  served m' = served m -> avgWait m' = avgWait m -> averages m ws -> averages m' ws.
Proof.
  intros Hs Ha [Hn Hsum]. unfold averages. rewrite Hs, Ha. auto.
Qed.

Section RunningAverage.

Variable hypot : Q -> Q -> Q.
Variable log : Q -> num.
Variable toString36 : Q -> string.
Variable random_stream : nat -> Q.

Lemma admit_arrival_averages (now : Q) (st : State) (ws : list Q) :
  averages (metrics st) ws ->
  averages (metrics (admit_arrival hypot log toString36 random_stream now st)) ws.
Proof.
  destruct (admit_frame hypot log toString36 random_stream now st) as (_ & _ & _ & Fm & _).
  rewrite Fm, admit_route_cases.
  apply averages_same;
    destruct (snd (advice toString36 random_stream now st) >? _)%num;
    try destruct (chooseParkingSpot hypot (spots st) step_entrance) as [[i spot]|];
    try reflexivity;
    destruct (fst (advice toString36 random_stream now st)); reflexivity.
Qed.

Lemma arrivals_loop_averages (fuel : nat) (now : Q) (st st' : State) (ws : list Q) :
  averages (metrics st) ws ->
  arrivals_loop hypot log toString36 random_stream fuel now st = Some st' ->
  averages (metrics st') ws.
Proof.
  revert st. induction fuel as [|fuel IH]; intros st Ha; cbn [arrivals_loop].
  - destruct (nextArrival st <=? Fin 0)%num; [discriminate|].
    intro H; inversion H; now subst.
  - destruct (nextArrival st <=? Fin 0)%num.
    + apply IH. now apply admit_arrival_averages.
    + intro H; inversion H; now subst.
Qed.

Lemma order_service_metrics (dt now : Q) (L : Lane) (st : State) :
  metrics (order_service dt now L st) = metrics st.
Proof.
  unfold order_service.
  destruct (_ && _); [|destruct L; reflexivity].
  match goal with |- context [if ?c then _ else _] => destruct c end;
    [|destruct L; reflexivity].
  destruct (shift _) as [[car rest]|]; destruct L; reflexivity.
Qed.

Lemma pay_service_metrics (dt now : Q) (st : State) :
  metrics (pay_service dt now st) = metrics st.
Proof.
  unfold pay_service.
  destruct (_ && _); [|reflexivity].
  match goal with |- context [if ?c then _ else _] => destruct c end; [|reflexivity].
  destruct (shift _) as [[car rest]|]; reflexivity.
Qed.

Lemma pickup_service_averages (dt now : Q) (st : State) (ws : list Q) :
  averages (metrics st) ws ->
  averages (metrics (pickup_service dt now st)) (ws ++ pickup_samples dt now st).
Proof.
  intro Ha. unfold pickup_service, pickup_samples.
  destruct (_ && _); [|rewrite app_nil_r; exact Ha].
  cbn [pickupClock set_pickupClock].
  destruct (pickupClock st - Fin dt * of_Z (pickupServers (params st)) <=? Fin 0)%num;
    [|rewrite app_nil_r; exact Ha].
  cbn [queues set_pickupClock].
  destruct (q_pickup (queues st)) as [|car rest]; cbn [shift].
  - rewrite app_nil_r. exact Ha.
  - cbn [metrics set_pickupClock set_metrics].
    now apply recordCompletion_averages.
Qed.

Lemma curbside_loop_averages (now : Q) (todo kept : list Car) (st : State) (ws : list Q) :
  averages (metrics st) ws ->
  averages (metrics (curbside_loop random_stream now todo kept st))
           (ws ++ curbside_samples random_stream now todo st).
Proof.
  revert kept st ws. induction todo as [|car todo IH]; intros kept st ws Ha;
    cbn [curbside_loop curbside_samples].
  - rewrite app_nil_r. exact Ha.
  - assert (Hm : metrics (snd (assign_readyAt random_stream car st)) = metrics st).
    { unfold assign_readyAt. destruct (readyAt_falsy car); reflexivity. }
    destruct (assign_readyAt random_stream car st) as [car1 st1]. cbn [snd] in Hm.
    destruct (is_ready now car1).
    + replace (ws ++ (now - arrival car1) :: curbside_samples random_stream now todo
                                              (complete_curbside now car1 st1))
        with ((ws ++ [now - arrival car1])
              ++ curbside_samples random_stream now todo (complete_curbside now car1 st1))
        by (rewrite <- app_assoc; reflexivity).
      apply IH. unfold complete_curbside. cbn [metrics set_metrics set_spots].
      rewrite Hm. now apply recordCompletion_averages.
    + apply IH. now rewrite Hm.
Qed.

Lemma maybe_rebalance_metrics (st : State) :
  metrics (maybe_rebalance random_stream st) = metrics st.
Proof.
  unfold maybe_rebalance. destruct (autoRebalance (params st)); [|reflexivity].
  simpl. destruct (Qltb _ _); reflexivity.
Qed.

Lemma record_wip_averages (now : Q) (st : State) (ws : list Q) :
  averages (metrics st) ws -> averages (metrics (record_wip now st)) ws.
Proof. apply averages_same; reflexivity. Qed.

Lemma step_averages (fuel : nat) (now dt : Q) (st st' : State) (ws : list Q) :
  averages (metrics st) ws ->
  step hypot log toString36 random_stream fuel now dt st = Some st' ->
  averages (metrics st') (ws ++ step_samples hypot log toString36 random_stream fuel now dt st).
Proof.
  intros Ha. unfold step, step_samples.
  destruct (arrivals_loop _ _ _ _ fuel now _) as [st2|] eqn:E; [|discriminate].
  intro H. inversion H; subst st'; clear H.
  apply arrivals_loop_averages with (ws := ws) in E; [|exact Ha].
  rewrite maybe_rebalance_metrics.
  apply record_wip_averages.
  rewrite app_assoc. unfold curbside_completions.
  apply curbside_loop_averages, pickup_service_averages.
  now rewrite pay_service_metrics, !order_service_metrics.
Qed.

Lemma recorded_averages (st : State) (ws : list Q) :
  recorded hypot log toString36 random_stream st ws -> averages (metrics st) ws.
Proof.
  induction 1.
  - unfold cold_start.
    destruct (generateSpots random_stream st) as [sp st1].
    destruct (exp log random_stream _ st1) as [gap st2].
    split; simpl; [reflexivity | lra].
  - eapply step_averages; eauto.
  - exact IHrecorded.
Qed.

(** C9.  On each completion the code's update
    [avgWait := (avgWait * (served - 1) + w) / served], with [served]
    already counting that completion, computes the same value as the
    specification's [newAvg = oldAvg + (sample - oldAvg) / count]; after
    the completions with wait samples [ws] since a reset, [served] is their
    number and [avgWait] is their arithmetic mean; and this holds of every
    state the engine reaches, for the samples its pickup and curbside
    completions recorded since the reset (exact arithmetic). *)
Theorem running_average_is_mean :
  (forall (m : Metrics) (w : Q),
      avgWait (recordCompletion m w)
      == welford (avgWait m) w (served (recordCompletion m w)))
  /\ (forall ws : list Q,
        ws <> [] ->
        served (fold_left recordCompletion ws zero_metrics) = List.length ws
        /\ avgWait (fold_left recordCompletion ws zero_metrics) == mean ws)
  /\ (forall (st : State) (ws : list Q),
        recorded hypot log toString36 random_stream st ws ->
        served (metrics st) = List.length ws
        /\ (ws <> [] -> avgWait (metrics st) == mean ws)).
Proof.
  assert (Hmean : forall m ws, averages m ws -> ws <> [] -> avgWait m == mean ws).
  { intros m ws [Hn Ha] Hne. unfold mean. rewrite <- Ha, Hn.
    assert (Hpos : 0 < inject_Z (Z.of_nat (List.length ws))).
    { apply inject_Z_pos. destruct ws; [congruence | simpl; lia]. }
    field. lra. }
  split; [|split].
  - intros m w. unfold recordCompletion, welford. simpl served. simpl avgWait.
    apply avg_update_welford, inject_nat_S_pos.
  - intros ws Hne.
    assert (Ha : averages (fold_left recordCompletion ws zero_metrics) ws).
    { apply (fold_recordCompletion_averages ws [] zero_metrics).
      split; simpl; [reflexivity | lra]. }
    split; [apply Ha | now apply Hmean].
  - intros st ws Hrec. apply recorded_averages in Hrec.
    split; [apply Hrec | now apply Hmean].
Qed.

End RunningAverage.

(** ** Analytic estimator: the stable case *)

Lemma fact_loop_spec (iters j : nat) :
  fact_loop iters (Z.of_nat (S j)) (Z.of_nat (Factorial.fact j))
  = Z.of_nat (Factorial.fact (j + iters)).
Proof.
  revert j. induction iters as [|iters IH]; intro j; cbn [fact_loop].
  - now rewrite Nat.add_0_r.
  - replace (Z.of_nat (S j) + 1)%Z with (Z.of_nat (S (S j))) by lia.
    replace (Z.of_nat (Factorial.fact j) * Z.of_nat (S j))%Z
      with (Z.of_nat (Factorial.fact (S j)))
      by (cbn [Factorial.fact]; lia).
    rewrite IH. f_equal. f_equal. lia.
Qed.

(** The loop of [fact] computes the factorial. *)
Lemma fact_spec (n : nat) : fact (Z.of_nat n) = Z.of_nat (Factorial.fact n).
Proof.
  unfold fact. destruct n as [|n].
  - reflexivity.
  - replace (Z.to_nat (Z.of_nat (S n) - 1)) with n by lia.
    change 2%Z with (Z.of_nat 2). change 1%Z with (Z.of_nat (Factorial.fact 1)).
    rewrite fact_loop_spec. reflexivity.
Qed.

Lemma fact_pos (n : nat) : 0 < inject_Z (Z.of_nat (Factorial.fact n)).
Proof. apply inject_Z_pos. pose proof (lt_O_fact n). lia. Qed.

Lemma pow_Fin (a : Q) (k : nat) : JS.pow (Fin a) k = Fin (Qpow_nat a k).
Proof.
  induction k as [|k IH]; simpl; [reflexivity|]. now rewrite IH.
Qed.

Lemma Qpow_nat_power (a : Q) (k : nat) : Qpow_nat a k == a ^ Z.of_nat k.
Proof.
  induction k as [|k IH].
  - reflexivity.
  - cbn [Qpow_nat]. rewrite IH, Nat2Z.inj_succ. unfold Z.succ.
    rewrite Qpower_plus' by lia. rewrite Qpower_1_r. ring.
Qed.

Lemma Qpow_nat_nonneg (a : Q) (k : nat) : 0 <= a -> 0 <= Qpow_nat a k.
Proof.
  intro Ha. induction k as [|k IH]; simpl; [lra | nra].
Qed.

Lemma Qpow_nat_pos (a : Q) (k : nat) : 0 < a -> 0 < Qpow_nat a k.
Proof.
  intro Ha. induction k as [|k IH]; simpl; [lra | nra].
Qed.

Lemma code_term_formula (a : Q) (k : nat) : code_term a k == erlang_term a k.
Proof. unfold code_term, erlang_term. now rewrite Qpow_nat_power. Qed.

Lemma code_term_nonneg (a : Q) (k : nat) : 0 <= a -> 0 <= code_term a k.
Proof.
  intro Ha. unfold code_term.
  apply Qle_shift_div_l; [apply fact_pos|].
  pose proof (Qpow_nat_nonneg a k Ha). lra.
Qed.

Lemma code_term_pos (a : Q) (k : nat) : 0 < a -> 0 < code_term a k.
Proof.
  intro Ha. unfold code_term.
  apply Qlt_shift_div_l; [apply fact_pos|].
  pose proof (Qpow_nat_pos a k Ha). lra.
Qed.

Lemma term_Fin (a : Q) (k : nat) :
  (JS.pow (Fin a) k / of_Z (fact (Z.of_nat k)))%num = Fin (code_term a k).
Proof.
  rewrite pow_Fin, fact_spec. unfold of_Z. rewrite div_Fin; [reflexivity|].
  pose proof (fact_pos k). lra.
Qed.

Lemma erlang_sum_loop_Fin (iters k : nat) (lam mu acc : Q) :
  ~ mu == 0 ->
  exists q, erlang_sum_loop iters k (Fin lam) (Fin mu) (Fin acc) = Fin q
            /\ q == acc + code_sum (lam / mu) k iters.
Proof.
  intro Hmu. revert k acc. induction iters as [|iters IH]; intros k acc.
  - exists acc. split; [reflexivity|]. unfold code_sum. simpl. lra.
  - cbn [erlang_sum_loop]. rewrite (div_Fin lam mu Hmu), term_Fin.
    cbn [JS.add].
    destruct (IH (S k) (acc + code_term (lam / mu) k)) as (q & E & Hq).
    exists q. split; [exact E|].
    rewrite Hq. unfold code_sum. simpl. lra.
Qed.

Lemma code_sum_formula (a : Q) (k n : nat) :
  code_sum a k n == fold_right Qplus 0 (map (erlang_term a) (seq k n)).
Proof.
  unfold code_sum. revert k. induction n as [|n IH]; intro k; simpl.
  - reflexivity.
  - rewrite IH, code_term_formula. reflexivity.
Qed.

Lemma code_sum_ge_1 (a : Q) (n : nat) : 0 <= a -> 1 <= code_sum a 0 (S n).
Proof.
  intro Ha. unfold code_sum. cbn [seq map Qsum fold_right].
  assert (H0 : code_term a 0 == 1) by (unfold code_term; simpl; reflexivity).
  assert (Hrest : forall k m, 0 <= fold_right Qplus 0 (map (code_term a) (seq k m))).
  { intros k m. revert k. induction m as [|m IH]; intro k; simpl; [lra|].
    pose proof (code_term_nonneg a k Ha). specialize (IH (S k)). lra. }
  specialize (Hrest 1%nat n). unfold Qsum. lra.
Qed.

(** The value [erlangC] computes on a stable input, step by step. *)
Lemma erlangC_stable (lam mu : Q) (s : Z) :
  stable lam mu s ->
  exists sum : Q,
    sum == code_sum (lam / mu) 0 (Z.to_nat s)
    /\ let rho := lam / (inject_Z s * mu) in
       let top := Qpow_nat (lam / mu) (Z.to_nat s) / (inject_Z (fact s) * (1 + - rho)) in
       erlangC (Fin lam) (Fin mu) s = Fin (top * (1 / (sum + top)))
       /\ 0 < inject_Z (fact s) * (1 + - rho)
       /\ 0 <= top /\ 1 <= sum.
Proof.
  intros (Hs & Hmu & Hlam & Hrho).
  assert (Hs' : 0 < inject_Z s) by (apply inject_Z_pos; lia).
  assert (Hsm : 0 < inject_Z s * mu) by nra.
  assert (Hsm0 : ~ inject_Z s * mu == 0) by lra.
  assert (Hmu0 : ~ mu == 0) by lra.
  assert (Ha : 0 <= lam / mu) by (apply Qle_shift_div_l; lra).
  destruct (erlang_sum_loop_Fin (Z.to_nat s) 0 lam mu 0 Hmu0) as (sum & Eloop & Hsum).
  exists sum. split; [rewrite Hsum; lra|].
  intros rho top.
  assert (Hfact : 0 < inject_Z (fact s)).
  { rewrite <- (Z2Nat.id s) by lia. rewrite fact_spec. apply fact_pos. }
  assert (Hden : 0 < inject_Z (fact s) * (1 + - rho)) by (unfold rho; nra).
  assert (Htop : 0 <= top).
  { unfold top. apply Qle_shift_div_l; [assumption|].
    pose proof (Qpow_nat_nonneg (lam / mu) (Z.to_nat s) Ha). lra. }
  assert (Hsum1 : 1 <= sum).
  { rewrite Hsum. destruct (Z.to_nat s) as [|n] eqn:E; [lia|].
    pose proof (code_sum_ge_1 (lam / mu) n Ha). lra. }
  split; [|auto].
  unfold erlangC, of_Z. cbn [JS.leb JS.geb JS.mul].
  replace (Qle_bool (inject_Z s) 0) with false by (symmetry; now apply Qle_bool_false).
  replace (Qle_bool mu 0) with false by (symmetry; now apply Qle_bool_false).
  cbn [orb].
  rewrite (div_Fin lam (inject_Z s * mu) Hsm0). fold rho. cbn [JS.leb].
  replace (Qle_bool 1 rho) with false by (symmetry; now apply Qle_bool_false).
  rewrite Eloop, (div_Fin lam mu Hmu0), pow_Fin.
  cbn [JS.sub JS.neg JS.add JS.mul].
  rewrite (div_Fin _ (inject_Z (fact s) * (1 + - rho))) by lra.
  fold top. cbn [JS.add].
  rewrite (div_Fin 1 (sum + top)) by lra.
  reflexivity.
Qed.

(** C4 (as amended).  Over exact arithmetic, on every stable input (an
    integer [s >= 1], [mu > 0], [0 <= lam] and [lam / (s * mu) < 1])
    [erlangC] returns the value of the finite-sum Erlang-C formula, and
    [expectedWaitMinutes] returns that value divided by [s * mu - lam],
    which is also [erlangC(lam, mu, s)] divided by it. *)
Theorem erlangC_is_formula (lam mu : Q) (s : Z) :
  stable lam mu s ->
  (erlangC (Fin lam) (Fin mu) s ~= Fin (erlangC_formula lam mu (Z.to_nat s)))%num
  /\ (expectedWaitMinutes (Fin lam) (Fin mu) s
      ~= Fin (expectedWait_formula lam mu (Z.to_nat s)))%num
  /\ expectedWaitMinutes (Fin lam) (Fin mu) s
     = (erlangC (Fin lam) (Fin mu) s / Fin (inject_Z s * mu - lam))%num.
Proof.
  intros Hst.
  destruct (erlangC_stable lam mu s Hst) as (sum & Hsum & HC & Hden & Htop & Hsum1).
  destruct Hst as (Hs & Hmu & Hlam & Hrho).
  set (rho := lam / (inject_Z s * mu)) in *.
  set (top := Qpow_nat (lam / mu) (Z.to_nat s) / (inject_Z (fact s) * (1 + - rho))) in *.
  assert (Hs' : 0 < inject_Z s) by (apply inject_Z_pos; lia).
  assert (Hsm : 0 < inject_Z s * mu) by nra.
  assert (Hgap : 0 < inject_Z s * mu - lam).
  { assert (E : lam == rho * (inject_Z s * mu)) by (unfold rho; field; lra).
    assert (0 < (1 - rho) * (inject_Z s * mu)) by (apply Qmult_lt_0_compat; lra).
    nra. }
  assert (Hz : inject_Z (Z.of_nat (Z.to_nat s)) = inject_Z s) by (rewrite Z2Nat.id; [reflexivity | lia]).
  assert (Eform : top * (1 / (sum + top)) == erlangC_formula lam mu (Z.to_nat s)).
  { unfold erlangC_formula. rewrite Hz. fold rho.
    assert (Elast : erlang_term (lam / mu) (Z.to_nat s) / (1 - rho) == top).
    { unfold top. rewrite <- code_term_formula. unfold code_term.
      rewrite <- fact_spec, Z2Nat.id by lia.
      field. split; [unfold rho in *; nra|].
      intro E. rewrite E in Hden. lra. }
    rewrite Elast. unfold erlang_partial_sum. rewrite <- code_sum_formula, <- Hsum.
    field. lra. }
  assert (Ewait : expectedWaitMinutes (Fin lam) (Fin mu) s
                  = (erlangC (Fin lam) (Fin mu) s / Fin (inject_Z s * mu - lam))%num).
  { unfold expectedWaitMinutes, of_Z. cbn [JS.leb JS.geb JS.mul].
    replace (Qle_bool (inject_Z s) 0) with false by (symmetry; now apply Qle_bool_false).
    replace (Qle_bool mu 0) with false by (symmetry; now apply Qle_bool_false).
    cbn [orb].
    rewrite (div_Fin lam (inject_Z s * mu)) by lra. cbn [JS.leb].
    replace (Qle_bool 1 (lam / (inject_Z s * mu))) with false
      by (symmetry; now apply Qle_bool_false).
    reflexivity. }
  split; [|split].
  - rewrite HC. simpl. exact Eform.
  - rewrite Ewait, HC. rewrite div_Fin by lra. simpl.
    unfold expectedWait_formula. rewrite Hz, Eform. reflexivity.
  - exact Ewait.
Qed.

(** C4 as stated fails on binary64 numbers: [lam = 100], [mu = 1],
    [s = 155] is a stable input, [Math.pow(100, 155)] is [Infinity], and
    [erlangC] returns [Infinity * (1 / (sum + Infinity))], which is NaN and
    so the value of no formula. *)
Lemma erlangC_overflow_counterexample :
  stable 100 1 155
  /\ Binary64.pow 100 155 = infinity
  /\ PrimFloat.is_nan (Binary64.erlangC 100 1 155) = true
  /\ PrimFloat.is_nan (Binary64.expectedWaitMinutes 100 1 155) = true.
Proof.
  split; [|split; [|split]]; try (vm_compute; reflexivity).
  unfold stable, Qlt, Qle; simpl; lia.
Qed.

(** ** Analytic estimator: more servers, shorter wait *)

Ltac Qpos := repeat apply Qmult_lt_0_compat; lra.

Lemma wait_step_poly (t S d mu lam X : Q) :
  0 < t -> 1 <= S -> 0 < d -> 0 < mu -> 0 < lam -> X == lam + d ->
  (t * lam) * ((S * d + t * X) * d) < (t * X) * (((S + t) * (d + mu) + t * lam) * (d + mu)).
Proof.
  intros Ht HS Hd Hmu Hlam HX.
  assert (HXpos : 0 < X) by lra.
  set (P := t * lam). set (R := t * X).
  set (U := S * d * d). set (V := (S + t) * (d + mu) * (d + mu)).
  assert (HP : 0 < P) by (unfold P; Qpos).
  assert (HR : 0 < R) by (unfold R; Qpos).
  assert (HPR : P < R).
  { unfold P, R. apply Qmult_lt_l; lra. }
  assert (HU : 0 < U) by (unfold U; Qpos).
  assert (HUV : U <= V).
  { unfold U, V.
    assert (E : (S + t) * (d + mu) * (d + mu) - S * d * d
                == S * mu * (d + d + mu) + t * (d + mu) * (d + mu)) by ring.
    assert (0 < S * mu * (d + d + mu)) by Qpos.
    assert (0 < t * (d + mu) * (d + mu)) by Qpos.
    lra. }
  assert (A1 : P * U < R * V).
  { apply Qlt_le_trans with (R * U).
    - apply Qmult_lt_r; assumption.
    - apply Qmult_le_l; assumption. }
  assert (A2 : P * (R * d) < R * (P * (d + mu))).
  { assert (E : R * (P * (d + mu)) - P * (R * d) == P * R * mu) by ring.
    assert (0 < P * R * mu) by Qpos. lra. }
  assert (EL : P * ((S * d + R) * d) == P * U + P * (R * d)) by (unfold U; ring).
  assert (ER : R * (((S + t) * (d + mu) + P) * (d + mu)) == R * V + R * (P * (d + mu)))
    by (unfold V; ring).
  fold P R. rewrite EL, ER. lra.
Qed.

Lemma Qdiv_lt_cross (a b c e : Q) : 0 < b -> 0 < e -> a * e < c * b -> a / b < c / e.
Proof.
  intros Hb He H. apply Qlt_shift_div_r; [assumption|].
  setoid_replace (c / e * b) with (c * b / e) by (field; lra).
  apply Qlt_shift_div_l; assumption.
Qed.

Lemma stable_gap (lam mu : Q) (s : Z) :
  stable lam mu s -> 0 < inject_Z s * mu /\ 0 < inject_Z s * mu - lam.
Proof.
  intros (Hs & Hmu & Hlam & Hrho).
  assert (Hs' : 0 < inject_Z s) by (apply inject_Z_pos; lia).
  assert (Hsm : 0 < inject_Z s * mu) by Qpos.
  split; [assumption|].
  set (rho := lam / (inject_Z s * mu)) in *.
  assert (E : lam == rho * (inject_Z s * mu)) by (unfold rho; field; lra).
  assert (0 < (1 - rho) * (inject_Z s * mu)) by (apply Qmult_lt_0_compat; lra).
  nra.
Qed.

Lemma expectedWait_closed (lam mu : Q) (s : Z) :
  stable lam mu s ->
  exists w sum : Q,
    expectedWaitMinutes (Fin lam) (Fin mu) s = Fin w
    /\ sum == code_sum (lam / mu) 0 (Z.to_nat s)
    /\ 1 <= sum
    /\ w == wait_closed (code_term (lam / mu) (Z.to_nat s)) sum
             (inject_Z s * mu) (inject_Z s * mu - lam).
Proof.
  intros Hst.
  destruct (erlangC_stable lam mu s Hst) as (sum & Hsum & HC & Hden & Htop & Hsum1).
  destruct (stable_gap lam mu s Hst) as (HX & Hd).
  pose proof Hst as (Hs & Hmu & Hlam & Hrho).
  set (X := inject_Z s * mu) in *. set (d := X - lam) in *.
  set (top := Qpow_nat (lam / mu) (Z.to_nat s) / (inject_Z (fact s) * (1 + - (lam / X)))) in *.
  set (t := code_term (lam / mu) (Z.to_nat s)).
  assert (Ht : 0 <= t).
  { apply code_term_nonneg. apply Qle_shift_div_l; lra. }
  assert (Hfact : 0 < inject_Z (fact s)).
  { rewrite <- (Z2Nat.id s) by lia. rewrite fact_spec. apply fact_pos. }
  assert (Etop : top == t * X / d).
  { unfold top, t, code_term, d.
    rewrite <- fact_spec, Z2Nat.id by lia.
    field. repeat split; try lra.
    intro E. unfold d in Hd. lra. }
  assert (HtX : 0 <= t * X) by (apply Qmult_le_0_compat; lra).
  assert (Hsd : 0 < sum * d) by (apply Qmult_lt_0_compat; lra).
  exists (top * (1 / (sum + top)) / d), sum.
  split; [|split; [assumption|split; [assumption|]]].
  - unfold expectedWaitMinutes, of_Z. cbn [JS.leb JS.geb JS.mul].
    assert (Hs' : 0 < inject_Z s) by (apply inject_Z_pos; lia).
    replace (Qle_bool (inject_Z s) 0) with false by (symmetry; now apply Qle_bool_false).
    replace (Qle_bool mu 0) with false by (symmetry; now apply Qle_bool_false).
    cbn [orb]. fold X.
    rewrite (div_Fin lam X) by lra. cbn [JS.leb].
    replace (Qle_bool 1 (lam / X)) with false by (symmetry; now apply Qle_bool_false).
    rewrite HC. cbn [JS.sub JS.neg JS.add].
    rewrite div_Fin by (unfold d in Hd; lra).
    reflexivity.
  - unfold wait_closed. fold t. rewrite Etop.
    field. repeat split; lra.
Qed.

Lemma stable_succ (lam mu : Q) (s : Z) : stable lam mu s -> stable lam mu (s + 1).
Proof.
  intros Hst. destruct (stable_gap lam mu s Hst) as (HX & Hd).
  destruct Hst as (Hs & Hmu & Hlam & Hrho).
  repeat split; try assumption; try lia.
  rewrite inject_Z_plus.
  apply Qlt_shift_div_r.
  - assert (0 < inject_Z s) by (apply inject_Z_pos; lia).
    apply Qmult_lt_0_compat; [change (inject_Z 1) with 1; lra | assumption].
  - change (inject_Z 1) with 1. lra.
Qed.

Lemma code_sum_succ (a : Q) (n : nat) :
  code_sum a 0 (S n) == code_sum a 0 n + code_term a n.
Proof.
  unfold code_sum. rewrite seq_S, map_app, Qsum_app. simpl. lra.
Qed.

Lemma code_term_succ (a : Q) (n : nat) :
  code_term a (S n) == code_term a n * a / inject_Z (Z.of_nat (S n)).
Proof.
  unfold code_term. cbn [Qpow_nat].
  assert (E : inject_Z (Z.of_nat (Factorial.fact (S n)))
              == inject_Z (Z.of_nat (S n)) * inject_Z (Z.of_nat (Factorial.fact n))).
  { rewrite <- inject_Z_mult, <- Nat2Z.inj_mul. reflexivity. }
  rewrite E.
  pose proof (fact_pos n). pose proof (inject_nat_S_pos n).
  field. split; lra.
Qed.

(** One more server strictly shortens the mean wait of a stable system
    with a positive arrival rate. *)
Lemma expectedWait_succ (lam mu : Q) (s : Z) :
  stable lam mu s -> 0 < lam ->
  exists w w' : Q,
    expectedWaitMinutes (Fin lam) (Fin mu) s = Fin w
    /\ expectedWaitMinutes (Fin lam) (Fin mu) (s + 1) = Fin w'
    /\ 0 < w' /\ w' < w.
Proof.
  intros Hst Hpos.
  destruct (expectedWait_closed lam mu s Hst) as (w & S & Ew & HS & HS1 & Hw).
  destruct (expectedWait_closed lam mu (s + 1) (stable_succ _ _ _ Hst))
    as (w' & S' & Ew' & HS' & HS1' & Hw').
  destruct (stable_gap lam mu s Hst) as (HX & Hd).
  pose proof Hst as (Hs & Hmu & Hlam & Hrho).
  exists w, w'. split; [assumption|]. split; [assumption|].
  replace (Z.to_nat (s + 1)) with (Datatypes.S (Z.to_nat s)) in HS', Hw' by lia.
  set (n := Z.to_nat s) in *.
  set (a := lam / mu) in *.
  set (t := code_term a n) in *.
  set (X := inject_Z s * mu) in *.
  set (d := X - lam) in *.
  assert (Ha : 0 < a) by (unfold a; apply Qlt_shift_div_l; lra).
  assert (Ht : 0 < t) by (apply code_term_pos; assumption).
  assert (Hn : inject_Z (Z.of_nat (Datatypes.S n)) == inject_Z s + 1).
  { unfold n. rewrite Nat2Z.inj_succ, Z2Nat.id by lia.
    unfold Z.succ. rewrite inject_Z_plus. reflexivity. }
  assert (Hs' : 0 < inject_Z s) by (apply inject_Z_pos; lia).
  assert (EX' : inject_Z (s + 1) * mu == X + mu).
  { rewrite inject_Z_plus. change (inject_Z 1) with 1. unfold X. ring. }
  assert (EtX : code_term a (Datatypes.S n) * (X + mu) == t * lam).
  { rewrite code_term_succ, Hn. fold t. unfold X, a. field. split; lra. }
  assert (Ew1 : w' == t * lam / (((S + t) * (d + mu) + t * lam) * (d + mu))).
  { rewrite Hw'. unfold wait_closed. rewrite EX', HS', code_sum_succ, <- HS.
    fold t. rewrite EtX.
    setoid_replace (X + mu - lam) with (d + mu) by (unfold d; ring).
    reflexivity. }
  assert (HtX : 0 < t * X) by (apply Qmult_lt_0_compat; assumption).
  assert (Htl : 0 < t * lam) by (apply Qmult_lt_0_compat; assumption).
  assert (Hden : 0 < (S * d + t * X) * d).
  { apply Qmult_lt_0_compat; [|assumption].
    assert (0 < S * d) by (apply Qmult_lt_0_compat; lra). lra. }
  assert (Hden' : 0 < ((S + t) * (d + mu) + t * lam) * (d + mu)).
  { apply Qmult_lt_0_compat; [|lra].
    assert (0 < (S + t) * (d + mu)) by (apply Qmult_lt_0_compat; lra). lra. }
  split.
  - rewrite Ew1. apply Qlt_shift_div_l; lra.
  - rewrite Ew1, Hw. unfold wait_closed. fold t.
    apply Qdiv_lt_cross; try assumption.
    apply wait_step_poly; try assumption. unfold d. ring.
Qed.

Lemma expectedWait_decreasing (lam mu : Q) (s : Z) (k : nat) :
  stable lam mu s -> 0 < lam ->
  exists w w' : Q,
    expectedWaitMinutes (Fin lam) (Fin mu) s = Fin w
    /\ expectedWaitMinutes (Fin lam) (Fin mu) (s + 1 + Z.of_nat k) = Fin w'
    /\ 0 < w' /\ w' < w.
Proof.
  intros Hst Hpos. revert s Hst. induction k as [|k IH]; intros s Hst.
  - rewrite Z.add_0_r. now apply expectedWait_succ.
  - destruct (expectedWait_succ lam mu s Hst Hpos) as (w & w1 & Ew & Ew1 & Hw1 & Hlt).
    destruct (IH (s + 1)%Z (stable_succ _ _ _ Hst)) as (w1' & w' & Ea & Eb & Hw' & Hlt').
    rewrite Ew1 in Ea. inversion Ea; subst w1'.
    exists w, w'. split; [assumption|].
    replace (s + 1 + Z.of_nat (S k))%Z with (s + 1 + 1 + Z.of_nat k)%Z by lia.
    split; [assumption|]. split; [assumption | lra].
Qed.

(** C8 (as amended).  For [lam = 0.5], [mu = 1], [s = 1] the value of
    [erlangC] lies strictly between 0 and 1 and [expectedWaitMinutes] is
    finite and strictly positive, in exact arithmetic and on binary64
    numbers (0.5 and 1); and in exact arithmetic, for these [lam] and
    [mu], whenever [s] is stable and [s < s'], [expectedWaitMinutes] at
    [s'] is finite, positive and strictly smaller than at [s]. *)
Theorem expectedWait_half_decreasing :
  (exists c, erlangC (Fin (1 # 2)) (Fin 1) 1 = Fin c /\ 0 < c /\ c < 1)
  /\ (exists w, expectedWaitMinutes (Fin (1 # 2)) (Fin 1) 1 = Fin w /\ 0 < w)
  /\ (forall s s' : Z,
        stable (1 # 2) 1 s -> (s < s')%Z ->
        exists w w' : Q,
          expectedWaitMinutes (Fin (1 # 2)) (Fin 1) s = Fin w
          /\ expectedWaitMinutes (Fin (1 # 2)) (Fin 1) s' = Fin w'
          /\ 0 < w' /\ w' < w)
  /\ Binary64.erlangC 0.5 1 1 = 0.5%float
  /\ Binary64.expectedWaitMinutes 0.5 1 1 = 1%float.
Proof.
  split; [|split; [|split; [|split]]].
  - eexists. split; [vm_compute; reflexivity|]. split; reflexivity.
  - eexists. split; [vm_compute; reflexivity|]. reflexivity.
  - intros s s' Hst Hlt.
    replace s' with (s + 1 + Z.of_nat (Z.to_nat (s' - s - 1)))%Z by lia.
    apply expectedWait_decreasing; [assumption | reflexivity].
  - vm_compute; reflexivity.
  - vm_compute; reflexivity.
Qed.

(** C8 as stated fails on binary64 numbers: with [lam = 0.5] and [mu = 1]
    the inputs [s = 155], [156] and [157] are stable, and
    [expectedWaitMinutes] returns a positive number at 155 but 0 at 156
    and at 157 (the value of [erlangC] at 156 is the smallest positive
    binary64 number times two, and the quotient rounds to 0): from 155 to
    156 the result is no longer positive, and from 156 to 157 it does not
    decrease. *)
Lemma expectedWait_underflow_counterexample :
  stable (1 # 2) 1 155 /\ stable (1 # 2) 1 156 /\ stable (1 # 2) 1 157
  /\ (0 <? Binary64.expectedWaitMinutes 0.5 1 155)%float = true
  /\ Binary64.expectedWaitMinutes 0.5 1 156 = 0%float
  /\ Binary64.expectedWaitMinutes 0.5 1 157 = 0%float
  /\ (0 <? Binary64.expectedWaitMinutes 0.5 1 156)%float = false
  /\ (Binary64.expectedWaitMinutes 0.5 1 157 <? Binary64.expectedWaitMinutes 0.5 1 156)%float
     = false.
Proof.
  repeat split; try (vm_compute; reflexivity);
    try (unfold Qlt, Qle; simpl; lia).
Qed.

(** ** Engine: the arrivals loop ends *)

Section EngineTermination.

Variable hypot : Q -> Q -> Q.
Variable log : Q -> num.
Variable toString36 : Q -> string.
Variable random_stream : nat -> Q.

(** Every exponential draw [-Math.log(1 - Math.random())] is a finite
    number and at least [delta > 0]. *)
Variable delta : Q.
Hypothesis delta_pos : 0 < delta.
Hypothesis draws_bounded :
  forall n, exists g, JS.neg (log (1 - random_stream n)) = Fin g /\ delta <= g.

Local Abbreviation loop := (arrivals_loop hypot log toString36 random_stream).
Local Abbreviation body := (admit_arrival hypot log toString36 random_stream).

Lemma arrivals_loop_more_fuel (fuel extra : nat) (now : Q) (st st' : State) :
  loop fuel now st = Some st' -> loop (fuel + extra) now st = Some st'.
Proof.
  revert st. induction fuel as [|fuel IH]; intros st; simpl.
  - destruct (nextArrival st <=? Fin 0)%num eqn:E; [discriminate|].
    intro H. destruct extra; simpl; now rewrite E.
  - destruct (nextArrival st <=? Fin 0)%num; [apply IH | trivial].
Qed.

Lemma admit_route_untouched (now : Q) (st : State) :
  nextArrival (admit_route hypot toString36 random_stream now st) = nextArrival st
  /\ params (admit_route hypot toString36 random_stream now st) = params st.
Proof.
  rewrite admit_route_cases.
  destruct (snd (advice toString36 random_stream now st) >? _)%num;
    [destruct (chooseParkingSpot hypot (spots st) step_entrance) as [[i spot]|]|];
    split; reflexivity.
Qed.

(** What one round of the loop does to the countdown. *)
Lemma admit_arrival_countdown (now : Q) (st : State) :
  params (body now st) = params st
  /\ (arrivalRate (params st) / 60 <= 0 ->
      nextArrival (body now st) = (nextArrival st + PInf)%num)
  /\ (0 < arrivalRate (params st) / 60 ->
      exists g, delta <= g
                /\ nextArrival (body now st)
                   = (nextArrival st + Fin (g / (arrivalRate (params st) / 60)))%num).
Proof.
  destruct (admit_route_untouched now st) as (Hn & Hp).
  unfold admit_arrival, exp. rewrite Hp.
  set (st1 := admit_route hypot toString36 random_stream now st) in *.
  cbn [JS.leb].
  split; [|split].
  - destruct (Qle_bool (arrivalRate (params st) / 60) 0); simpl; assumption.
  - intro H. apply Qle_bool_iff in H. rewrite H. simpl. now rewrite Hn.
  - intro H. pose proof H as H'. apply Qle_bool_false in H'. rewrite H'.
    destruct (draws_bounded (rng st1)) as (g & Eg & Hg).
    exists g. split; [assumption|].
    simpl. rewrite Eg, Hn. rewrite div_Fin by lra. reflexivity.
Qed.

Lemma countdown_advance (v g d r k : Q) :
  0 < r -> d <= g -> 0 < v + (k + 1) * (d / r) -> 0 < v + g / r + k * (d / r).
Proof.
  intros Hr Hg H.
  assert (Hstep : d / r <= g / r).
  { apply Qle_shift_div_l; [assumption|].
    setoid_replace (d / r * r) with d by (field; lra). assumption. }
  setoid_replace ((k + 1) * (d / r)) with (k * (d / r) + d / r) in H by ring.
  lra.
Qed.

Lemma countdown_bound (v q P : Q) : 0 < q -> - v / q < P -> 0 < v + P * q.
Proof.
  intros Hq H.
  apply (proj2 (Qmult_lt_r _ _ q Hq)) in H.
  setoid_replace (- v / q * q) with (- v) in H by (field; lra).
  lra.
Qed.

Lemma arrivals_loop_ends (m : nat) (now : Q) (st : State) (v : Q) :
  nextArrival st = Fin v ->
  0 < arrivalRate (params st) / 60 ->
  0 < v + inject_Z (Z.of_nat m) * (delta / (arrivalRate (params st) / 60)) ->
  exists st', loop m now st = Some st'.
Proof.
  revert st v. induction m as [|m IH]; intros st v Hv Hr Hm;
    cbn [arrivals_loop]; rewrite Hv; cbn [JS.leb].
  - assert (Qle_bool v 0 = false) as ->; [|eauto].
    apply Qle_bool_false.
    change (inject_Z (Z.of_nat 0)) with 0 in Hm.
    setoid_replace (0 * (delta / (arrivalRate (params st) / 60))) with 0 in Hm by ring.
    lra.
  - destruct (Qle_bool v 0) eqn:E; [|eauto].
    destruct (admit_arrival_countdown now st) as (Hp & _ & Hgap).
    destruct (Hgap Hr) as (g & Hg & Hn).
    rewrite Hv in Hn. cbn [JS.add] in Hn.
    apply (IH _ _ Hn); rewrite Hp; [assumption|].
    rewrite inject_nat_S in Hm.
    now apply countdown_advance.
Qed.

(** The arrivals loop ends after finitely many rounds unless the countdown
    is -infinity (which no step produces from a finite or +infinite one). *)
Lemma arrivals_loop_terminates (now : Q) (st : State) :
  nextArrival st <> NInf -> exists fuel st', loop fuel now st = Some st'.
Proof.
  intro Hn. destruct (nextArrival st) as [v| | |] eqn:Hv; try congruence.
  - destruct (Qlt_le_dec 0 (arrivalRate (params st) / 60)) as [Hr | Hr].
    + set (r := arrivalRate (params st) / 60) in *.
      assert (Hd : 0 < delta / r) by (apply Qlt_shift_div_l; lra).
      destruct (Qarchimedean (- v / (delta / r))) as [p Hp].
      exists (Pos.to_nat p).
      apply (arrivals_loop_ends _ now st v Hv Hr). fold r.
      rewrite positive_nat_Z.
      change (Z.pos p # 1) with (inject_Z (Z.pos p)) in Hp.
      now apply countdown_bound.
    + exists 1%nat. cbn [arrivals_loop]. rewrite Hv. cbn [JS.leb].
      destruct (Qle_bool v 0); [|eexists; reflexivity].
      destruct (admit_arrival_countdown now st) as (_ & Hinf & _).
      rewrite (Hinf Hr), Hv. cbn [JS.add JS.leb]. eexists; reflexivity.
  - exists 0%nat. cbn [arrivals_loop]. rewrite Hv. eexists; reflexivity.
  - exists 0%nat. cbn [arrivals_loop]. rewrite Hv. eexists; reflexivity.
Qed.

(** With enough fuel [step] returns a state. *)
Lemma step_terminates (now dt : Q) (st : State) :
  nextArrival st <> NInf ->
  exists fuel st', step hypot log toString36 random_stream fuel now dt st = Some st'.
Proof.
  intro Hn. unfold step.
  destruct (arrivals_loop_terminates now
              (set_nextArrival st (nextArrival st - Fin dt)%num)) as (fuel & st2 & E).
  - simpl. destruct (nextArrival st); simpl; congruence.
  - exists fuel. rewrite E. eauto.
Qed.

End EngineTermination.

(** The hypotheses on the draws hold for a generator that always returns
    0.5, with [log_pade]: each draw is 2/3. *)
Lemma step_terminates_constant (now dt : Q) (st : State) :
  nextArrival st <> NInf ->
  exists fuel st',
    step hypot_milli log_pade toString36_const (fun _ => 1 # 2) fuel now dt st = Some st'.
Proof.
  intro Hn.
  apply (step_terminates hypot_milli log_pade toString36_const (fun _ => 1 # 2) (2 # 3));
    [reflexivity | | assumption].
  intro n. eexists. split; [vm_compute; reflexivity | unfold Qle; simpl; lia].
Qed.

(* ================================================================== *)
(** * Further properties *)

(** ** [generateSpots] *)

Section SpotLayout.

Variable rs : nat -> Q.

Lemma generate_cells_fixed (cells : list (nat * nat)) (id : nat) (arr : list Spot) (st : State) :
  map spot_fixed (fst (generate_cells rs cells id arr st))
  = map spot_fixed arr ++ map fixed_of (combine cells (seq id (List.length cells))).
Proof.
  revert id arr st. induction cells as [|[r c] cells IH]; intros id arr st; cbn [generate_cells].
  - simpl. now rewrite app_nil_r.
  - unfold generate_spot, random. cbn -[spot_name Qplus Qmult inject_Z].
    rewrite IH. unfold push. rewrite map_app, <- app_assoc. reflexivity.
Qed.

Lemma generateSpots_fixed (st : State) :
  map spot_fixed (fst (generateSpots rs st))
  = map fixed_of (combine spot_cells (seq 1 56)).
Proof.
  unfold generateSpots. rewrite generate_cells_fixed. reflexivity.
Qed.

Lemma generate_cells_params (cells : list (nat * nat)) (id : nat) (arr : list Spot) (st : State) :
  params (snd (generate_cells rs cells id arr st)) = params st.
Proof.
  revert id arr st. induction cells as [|[r c] cells IH]; intros id arr st; [reflexivity|].
  cbn [generate_cells generate_spot random]. now rewrite IH.
Qed.

Lemma generateSpots_params (st : State) :
  params (snd (generateSpots rs st)) = params st.
Proof. unfold generateSpots. apply generate_cells_params. Qed.

End SpotLayout.

Lemma spot_name_inj (a b : nat) : spot_name a = spot_name b -> a = b.
Proof.
  unfold spot_name. simpl. intro H. inversion H as [E].
  apply Unsigned.to_uint_inj.
  assert (G : forall d d', NilEmpty.string_of_uint d = NilEmpty.string_of_uint d' -> d = d').
  { intros d d' Hd.
    pose proof (NilEmpty.usu d) as H1. pose proof (NilEmpty.usu d') as H2.
    rewrite Hd in H1. congruence. }
  now apply G.
Qed.

Lemma layout_ids (l : list Spot) :
  map spot_fixed l = map fixed_of (combine spot_cells (seq 1 56)) ->
  map spot_id l = map spot_name (seq 1 56).
Proof.
  intro H.
  change spot_id with (fun s => fst (fst (fst (fst (spot_fixed s))))).
  rewrite <- (map_map spot_fixed (fun x => fst (fst (fst (fst x))))).
  rewrite H. reflexivity.
Qed.

Lemma layout_nodup (l : list Spot) :
  map spot_fixed l = map fixed_of (combine spot_cells (seq 1 56)) ->
  NoDup (map spot_id l).
Proof.
  intro H. rewrite (layout_ids l H).
  apply Finite.Injective_map_NoDup; [|apply seq_NoDup].
  intros a b. apply spot_name_inj.
Qed.

(** The bounds of the layout, for a spot of a lot with this layout. *)
Lemma layout_bounds (l : list Spot) (s : Spot) :
  map spot_fixed l = map fixed_of (combine spot_cells (seq 1 56)) ->
  In s l ->
  6 <= spot_x s /\ spot_x s <= 84 /\ 60 <= spot_y s /\ spot_y s <= 84
  /\ 4 # 10 <= exitFriction s /\ exitFriction s <= 16 # 10
  /\ (reserved s = true <-> spot_id s = "S1"%string \/ spot_id s = "S2"%string).
Proof.
  intros L Hin.
  assert (Hok : fixed_ok (spot_fixed s) = true).
  { apply (in_map spot_fixed) in Hin. rewrite L in Hin.
    revert Hin. generalize (spot_fixed s). intros f Hin.
    assert (Hall : forallb fixed_ok (map fixed_of (combine spot_cells (seq 1 56))) = true)
      by (vm_compute; reflexivity).
    rewrite forallb_forall in Hall. now apply Hall. }
  unfold fixed_ok, spot_fixed in Hok.
  repeat (apply andb_true_iff in Hok; destruct Hok as [Hok ?]).
  repeat match goal with H : Qle_bool _ _ = true |- _ => apply Qle_bool_iff in H end.
  apply Bool.eqb_prop in H.
  repeat split; try assumption.
  - intro Hr. rewrite Hr in H. symmetry in H. apply orb_true_iff in H.
    destruct H as [H | H]; apply String.eqb_eq in H; [left | right]; exact H.
  - intros [E | E]; rewrite H, E; reflexivity.
Qed.

(** X1.  [generateSpots] returns 56 spots whose ids are S1, S2, ..., S56 in
    this order; no two spots share an id. *)
Theorem generateSpots_ids (rs : nat -> Q) (st : State) :
  let spots := fst (generateSpots rs st) in
  List.length spots = 56%nat
  /\ map spot_id spots = map spot_name (seq 1 56)
  /\ NoDup (map spot_id spots).
Proof.
  intro spots.
  pose proof (layout_ids spots (generateSpots_fixed rs st)) as E.
  split; [|split].
  - rewrite <- (length_map spot_id), E, length_map, length_seq. reflexivity.
  - exact E.
  - exact (layout_nodup spots (generateSpots_fixed rs st)).
Qed.

(** X2.  Every spot that [generateSpots] returns lies in the rectangle
    6 <= x <= 84, 60 <= y <= 84, has an exit friction between 0.4 and 1.6,
    and is reserved exactly when it is S1 or S2. *)
Theorem generateSpots_layout (rs : nat -> Q) (st : State) (s : Spot) :
  In s (fst (generateSpots rs st)) ->
  6 <= spot_x s /\ spot_x s <= 84 /\ 60 <= spot_y s /\ spot_y s <= 84
  /\ 4 # 10 <= exitFriction s /\ exitFriction s <= 16 # 10
  /\ (reserved s = true <-> spot_id s = "S1"%string \/ spot_id s = "S2"%string).
Proof. apply layout_bounds, generateSpots_fixed. Qed.

(** X3.  When every [Math.random()] value lies in [0, 1), the local
    congestion of every generated spot lies in [0, 0.6). *)
Theorem generateSpots_congestion (rs : nat -> Q) (st : State) (s : Spot) :
  unit_stream rs ->
  In s (fst (generateSpots rs st)) ->
  0 <= localCongestion s /\ localCongestion s < 6 # 10.
Proof.
  intros Hu. unfold generateSpots.
  assert (G : forall cells id arr st0,
             Forall (fun s => 0 <= localCongestion s /\ localCongestion s < 6 # 10) arr ->
             Forall (fun s => 0 <= localCongestion s /\ localCongestion s < 6 # 10)
                    (fst (generate_cells rs cells id arr st0))).
  { induction cells as [|[r c] cells IH]; intros id arr st0 Harr; cbn [generate_cells].
    - exact Harr.
    - unfold generate_spot, random. cbn -[spot_name Qplus Qmult inject_Z Qltb].
      apply IH. unfold push. apply Forall_app. split; [exact Harr|].
      constructor; [|constructor]. cbn [localCongestion].
      destruct (Hu (S (rng st0))) as [H0 H1]. split; nra. }
  intro Hin. specialize (G spot_cells 1%nat [] st (Forall_nil _)).
  rewrite Forall_forall in G. exact (G s Hin).
Qed.

(** ** The lot: parking and releasing *)

Lemma occupy_at_ids (i : nat) (b : bool) (l : list Spot) :
  map spot_id (occupy_at i b l) = map spot_id l.
Proof.
  revert i. induction l as [|x l IH]; intros [|i]; simpl; try reflexivity.
  now rewrite IH.
Qed.

Lemma release_spot_ids (id : string) (l : list Spot) :
  map spot_id (release_spot id l) = map spot_id l.
Proof.
  induction l as [|x l IH]; simpl; [reflexivity|].
  destruct (String.eqb (spot_id x) id); simpl; [reflexivity | now rewrite IH].
Qed.

Lemma occupy_at_static (i : nat) (b : bool) (l : list Spot) :
  map spot_static (occupy_at i b l) = map spot_static l.
Proof.
  revert i. induction l as [|x l IH]; intros [|i]; simpl; try reflexivity.
  now rewrite IH.
Qed.

Lemma release_spot_static (id : string) (l : list Spot) :
  map spot_static (release_spot id l) = map spot_static l.
Proof.
  induction l as [|x l IH]; simpl; [reflexivity|].
  destruct (String.eqb (spot_id x) id); simpl; [reflexivity | now rewrite IH].
Qed.

Lemma static_fixed (l l' : list Spot) :
  map spot_static l' = map spot_static l -> map spot_fixed l' = map spot_fixed l.
Proof.
  intro H.
  assert (E : forall k, map spot_fixed k
                        = map (fun x : string * Q * Q * bool * Q * Q * bool =>
                                 fst (fst x)) (map spot_static k)).
  { intro k. rewrite map_map. reflexivity. }
  now rewrite (E l'), (E l), H.
Qed.

Lemma release_spot_other (id : string) (l : list Spot) (s : Spot) :
  In s l -> spot_id s <> id -> In s (release_spot id l).
Proof.
  induction l as [|x l IH]; simpl; [tauto|].
  intros [-> | Hin] Hne.
  - destruct (String.eqb (spot_id s) id) eqn:E.
    + apply String.eqb_eq in E. contradiction.
    + now left.
  - destruct (String.eqb (spot_id x) id); [now right | right; auto].
Qed.

Lemma same_id_same_spot (l : list Spot) (a b : Spot) :
  NoDup (map spot_id l) -> In a l -> In b l -> spot_id a = spot_id b -> a = b.
Proof.
  induction l as [|x l IH]; simpl; [tauto|].
  intros Hnd [-> | Ha] [-> | Hb] E; inversion Hnd as [|? ? Hx Hl]; subst.
  - reflexivity.
  - exfalso. apply Hx. rewrite E. now apply in_map.
  - exfalso. apply Hx. rewrite <- E. now apply in_map.
  - now apply IH.
Qed.

Lemma lot_ok_park (spots : list Spot) (held : list (option string)) (i : nat) (spot : Spot) :
  lot_ok spots held ->
  nth_error spots i = Some spot -> occupied spot = false -> reserved spot = false ->
  lot_ok (occupy_at i true spots) (held ++ [Some (spot_id spot)]).
Proof.
  intros (Hids & Hnd & Hheld) Hn Ho Hr.
  assert (Hin : In spot spots) by (eapply nth_error_In; eauto).
  split; [|split].
  - now rewrite occupy_at_ids.
  - apply NoDup_app; [assumption | repeat constructor; simpl; tauto |].
    intros o Hoin [<- | []].
    destruct (Hheld _ Hoin) as (s & Hs & E & Hso & _).
    inversion E as [E'].
    assert (s = spot) by (eapply same_id_same_spot; eauto).
    subst s. congruence.
  - intros o Hoin. apply in_app_or in Hoin. destruct Hoin as [Hoin | [<- | []]].
    + destruct (Hheld _ Hoin) as (s & Hs & E & Hso & Hsr).
      exists s. repeat split; try assumption.
      destruct (In_nth_error _ _ Hs) as (j & Hj).
      assert (i <> j) by (intros ->; congruence).
      apply nth_error_In with (n := j). now rewrite occupy_at_other.
    + exists (spot_set_occupied spot true). repeat split; try assumption.
      apply nth_error_In with (n := i). now apply occupy_at_nth.
Qed.

Lemma lot_ok_release (spots : list Spot) (h1 h2 : list (option string)) (id : string) :
  lot_ok spots (h1 ++ Some id :: h2) ->
  lot_ok (release_spot id spots) (h1 ++ h2).
Proof.
  intros (Hids & Hnd & Hheld).
  split; [|split].
  - now rewrite release_spot_ids.
  - now apply NoDup_remove_1 in Hnd.
  - intros o Hoin.
    assert (Hne : o <> Some id).
    { intros ->. apply NoDup_remove_2 in Hnd. contradiction. }
    destruct (Hheld o) as (s & Hs & E & Hso & Hsr).
    { apply in_app_or in Hoin. apply in_or_app. simpl. tauto. }
    exists s. repeat split; try assumption.
    apply release_spot_other; [assumption|]. congruence.
Qed.

Lemma lot_ok_held_some (spots : list Spot) (h1 h2 : list (option string)) (o : option string) :
  lot_ok spots (h1 ++ o :: h2) -> exists id, o = Some id.
Proof.
  intros (_ & _ & Hheld). destruct (Hheld o) as (s & _ & E & _).
  - apply in_or_app. simpl. tauto.
  - eauto.
Qed.

Lemma spot_set_occupied_undo (s : Spot) :
  occupied s = false -> spot_set_occupied (spot_set_occupied s true) false = s.
Proof. destruct s; simpl. now intros ->. Qed.

(** X4.  Parking on a free spot and then releasing it by its id gives the
    lot back as it was, whenever the ids of the lot are distinct. *)
Theorem park_then_release (spots : list Spot) (i : nat) (s : Spot) :
  NoDup (map spot_id spots) ->
  nth_error spots i = Some s -> occupied s = false ->
  release_spot (spot_id s) (occupy_at i true spots) = spots.
Proof.
  revert i. induction spots as [|x l IH]; intros [|i] Hnd Hn Ho; simpl in Hn; try discriminate.
  - inversion Hn; subst x. simpl. rewrite String.eqb_refl.
    now rewrite spot_set_occupied_undo.
  - inversion Hnd as [|? ? Hx Hl]; subst. simpl.
    destruct (String.eqb (spot_id x) (spot_id s)) eqn:E.
    + apply String.eqb_eq in E. exfalso. apply Hx. rewrite E.
      apply in_map. eapply nth_error_In; eauto.
    + f_equal. now apply IH.
Qed.

(** ** The engine, phase by phase *)

Lemma gtb_of_Z_nonpos (s : Z) : (s <= 0)%Z -> (of_Z s >? Fin 0)%num = false.
Proof.
  intro H. unfold of_Z. cbn. apply Qltb_ge.
  change 0 with (inject_Z 0). rewrite <- Zle_Qle. exact H.
Qed.

Lemma move_server_rates (p : Params) (from to : Stage) :
  rates_of (move_server p from to) = rates_of p.
Proof. destruct from, to; reflexivity. Qed.

Lemma rebalance_loop_null (h : Stage) (names : list Stage) (p p' : Params) :
  rebalance_loop h names p = (None, p') -> p' = p.
Proof.
  induction names as [|name rest IH]; cbn [rebalance_loop].
  - intro H. now inversion H.
  - destruct (Stage_eqb name h); [exact IH|].
    destruct (stage_min name <? stage_get p name)%Z; [discriminate|exact IH].
Qed.

Lemma rebalanceServers_params (sys : Sys) :
  let p := sys_params sys in
  let p' := snd (rebalanceServers sys) in
  total_servers p' = total_servers p
  /\ rates_of p' = rates_of p
  /\ (staffed p -> staffed p').
Proof.
  cbv zeta. rewrite rebalanceServers_unfold.
  destruct (rebalance_loop _ _ _) as [[[from to]|] p'] eqn:E; cbn [snd].
  - apply rebalance_loop_some in E. destruct E as (-> & Hne & _ & Hgt & ->).
    split; [now apply move_server_total|]. split; [apply move_server_rates|].
    intros Hst name. rewrite move_server_get by assumption.
    specialize (Hst name). unfold stage_min in *.
    destruct (Stage_eqb name (hottest_of sys)); destruct (Stage_eqb name from) eqn:Ef; try lia.
    apply Stage_eqb_eq in Ef. subst name. lia.
  - apply rebalance_loop_null in E. subst p'. repeat split. auto.
Qed.

Lemma recordCompletion_counts (m : Metrics) (w : Q) :
  arrivals (recordCompletion m w) = arrivals m
  /\ parked (recordCompletion m w) = parked m
  /\ maxWip (recordCompletion m w) = maxWip m
  /\ history (recordCompletion m w) = history m.
Proof. repeat split. Qed.

Lemma record_wip_frame (now : Q) (st : State) :
  spots (record_wip now st) = spots st /\ queues (record_wip now st) = queues st
  /\ params (record_wip now st) = params st /\ heap (record_wip now st) = heap st
  /\ arrivals (metrics (record_wip now st)) = arrivals (metrics st)
  /\ parked (metrics (record_wip now st)) = parked (metrics st).
Proof. repeat split. Qed.

Lemma record_wip_nextArrival (now : Q) (st : State) :
  nextArrival (record_wip now st) = nextArrival st.
Proof. reflexivity. Qed.

Lemma order_service_frame (dt now : Q) (L : Lane) (st : State) :
  let st' := order_service dt now L st in
  spots st' = spots st /\ q_curbside (queues st') = q_curbside (queues st)
  /\ params st' = params st /\ heap st' = heap st.
Proof.
  unfold order_service.
  destruct (_ && _); [|destruct L; repeat split].
  match goal with |- context [if ?c then _ else _] => destruct c end;
    [|destruct L; repeat split].
  destruct (shift _) as [[car rest]|]; destruct L; repeat split.
Qed.

Lemma pay_service_frame (dt now : Q) (st : State) :
  let st' := pay_service dt now st in
  spots st' = spots st /\ q_curbside (queues st') = q_curbside (queues st)
  /\ params st' = params st /\ heap st' = heap st.
Proof.
  unfold pay_service.
  destruct (_ && _); [|repeat split].
  match goal with |- context [if ?c then _ else _] => destruct c end; [|repeat split].
  destruct (shift _) as [[car rest]|]; repeat split.
Qed.

Lemma pickup_service_frame (dt now : Q) (st : State) :
  let st' := pickup_service dt now st in
  spots st' = spots st /\ q_curbside (queues st') = q_curbside (queues st)
  /\ params st' = params st /\ heap st' = heap st.
Proof.
  unfold pickup_service.
  destruct (_ && _); [|repeat split].
  match goal with |- context [if ?c then _ else _] => destruct c end; [|repeat split].
  destruct (shift _) as [[car rest]|]; repeat split.
Qed.

Lemma pickup_service_counts (dt now : Q) (st : State) :
  let m' := metrics (pickup_service dt now st) in
  arrivals m' = arrivals (metrics st) /\ parked m' = parked (metrics st)
  /\ maxWip m' = maxWip (metrics st) /\ history m' = history (metrics st).
Proof.
  unfold pickup_service.
  destruct (_ && _); [|repeat split].
  match goal with |- context [if ?c then _ else _] => destruct c end; [|repeat split].
  destruct (shift _) as [[car rest]|]; repeat split.
Qed.

Lemma served_stages_counts (dt now : Q) (st : State) :
  let st' := served_stages dt now st in
  arrivals (metrics st') = arrivals (metrics st) /\ parked (metrics st') = parked (metrics st)
  /\ maxWip (metrics st') = maxWip (metrics st) /\ history (metrics st') = history (metrics st)
  /\ spots st' = spots st /\ q_curbside (queues st') = q_curbside (queues st)
  /\ params st' = params st /\ heap st' = heap st.
Proof.
  unfold served_stages.
  destruct (order_service_frame dt now LaneA st) as (E1 & E2 & E3 & E4).
  pose proof (order_service_metrics dt now LaneA st) as E5.
  set (a := order_service dt now LaneA st) in *. clearbody a.
  destruct (order_service_frame dt now LaneB a) as (D1 & D2 & D3 & D4).
  pose proof (order_service_metrics dt now LaneB a) as D5.
  set (b := order_service dt now LaneB a) in *. clearbody b.
  destruct (pay_service_frame dt now b) as (C1 & C2 & C3 & C4).
  pose proof (pay_service_metrics dt now b) as C5.
  set (c := pay_service dt now b) in *. clearbody c.
  destruct (pickup_service_counts dt now c) as (A1 & A2 & A3 & A4).
  destruct (pickup_service_frame dt now c) as (B1 & B2 & B3 & B4).
  cbv zeta. rewrite A1, A2, A3, A4, B1, B2, B3, B4, C1, C2, C3, C4, C5, D1, D2, D3, D4, D5,
    E1, E2, E3, E4, E5. repeat split.
Qed.

Lemma order_service_nextArrival (dt now : Q) (L : Lane) (st : State) :
  nextArrival (order_service dt now L st) = nextArrival st.
Proof.
  unfold order_service.
  destruct (_ && _); [|destruct L; reflexivity].
  match goal with |- context [if ?c then _ else _] => destruct c end;
    [|destruct L; reflexivity].
  destruct (shift _) as [[car rest]|]; destruct L; reflexivity.
Qed.

Lemma pay_service_nextArrival (dt now : Q) (st : State) :
  nextArrival (pay_service dt now st) = nextArrival st.
Proof.
  unfold pay_service.
  destruct (_ && _); [|reflexivity].
  match goal with |- context [if ?c then _ else _] => destruct c end; [|reflexivity].
  destruct (shift _) as [[car rest]|]; reflexivity.
Qed.

Lemma pickup_service_nextArrival (dt now : Q) (st : State) :
  nextArrival (pickup_service dt now st) = nextArrival st.
Proof.
  unfold pickup_service.
  destruct (_ && _); [|reflexivity].
  match goal with |- context [if ?c then _ else _] => destruct c end; [|reflexivity].
  destruct (shift _) as [[car rest]|]; reflexivity.
Qed.

(** *** The service stages, queue by queue *)

Lemma order_service_queues (dt now : Q) (L : Lane) (st : State) :
  let st' := order_service dt now L st in
  exists k,
    (k <= 1)%nat
    /\ ((orderServers (params st) L <= 0)%Z -> k = 0%nat)
    /\ order_queue (queues st') L = skipn k (order_queue (queues st) L)
    /\ order_queue (queues st') (other_lane L) = order_queue (queues st) (other_lane L)
    /\ q_pay (queues st')
       = q_pay (queues st)
         ++ map (fun c => car_set_progress_order c now) (firstn k (order_queue (queues st) L))
    /\ q_pickup (queues st') = q_pickup (queues st).
Proof.
  unfold order_service.
  destruct (0 <? _)%nat eqn:Hlen; cbn [andb];
    [destruct (of_Z (orderServers (params st) L) >? Fin 0)%num eqn:Hs|].
  - match goal with |- context [if ?c then _ else _] => destruct c end.
    + assert (Hq : queues (set_orderClock st L
                     (orderClock st L - Fin dt * of_Z (orderServers (params st) L))%num)
                   = queues st) by (destruct L; reflexivity).
      rewrite Hq.
      destruct (order_queue (queues st) L) as [|car rest] eqn:E; cbn [shift].
      * exists 0%nat. cbv zeta. rewrite Hq, E.
        repeat split; try lia; try (destruct L; reflexivity).
        cbn. now rewrite app_nil_r.
      * exists 1%nat. cbv zeta.
        assert (Hgt : ~ (orderServers (params st) L <= 0)%Z).
        { intro Hle. rewrite (gtb_of_Z_nonpos _ Hle) in Hs. discriminate. }
        repeat split; try lia; destruct L; cbn in E |- *; try reflexivity;
          rewrite ?E; reflexivity.
    + exists 0%nat. cbv zeta. repeat split; try lia; destruct L; cbn; try reflexivity;
        now rewrite app_nil_r.
  - exists 0%nat. cbv zeta. repeat split; try lia; destruct L; cbn; try reflexivity;
      now rewrite app_nil_r.
  - exists 0%nat. cbv zeta. repeat split; try lia; destruct L; cbn; try reflexivity;
      now rewrite app_nil_r.
Qed.

Lemma pay_service_queues (dt now : Q) (st : State) :
  let st' := pay_service dt now st in
  exists k,
    (k <= 1)%nat
    /\ ((payServers (params st) <= 0)%Z -> k = 0%nat)
    /\ q_pay (queues st') = skipn k (q_pay (queues st))
    /\ q_pickup (queues st')
       = q_pickup (queues st)
         ++ map (fun c => car_set_progress_pay c now) (firstn k (q_pay (queues st)))
    /\ q_orderA (queues st') = q_orderA (queues st)
    /\ q_orderB (queues st') = q_orderB (queues st).
Proof.
  unfold pay_service.
  destruct (0 <? _)%nat eqn:Hlen; cbn [andb];
    [destruct (of_Z (payServers (params st)) >? Fin 0)%num eqn:Hs|].
  - match goal with |- context [if ?c then _ else _] => destruct c end.
    + cbn [queues set_payClock].
      destruct (q_pay (queues st)) as [|car rest] eqn:E; cbn [shift].
      * exists 0%nat. cbv zeta. cbn [queues set_payClock]. rewrite E.
        repeat split; try lia. cbn. now rewrite app_nil_r.
      * exists 1%nat. cbv zeta.
        assert (Hgt : ~ (payServers (params st) <= 0)%Z).
        { intro Hle. rewrite (gtb_of_Z_nonpos _ Hle) in Hs. discriminate. }
        repeat split; try lia; cbn; rewrite ?E; reflexivity.
    + exists 0%nat. cbv zeta. repeat split; try lia; cbn; try reflexivity;
        now rewrite app_nil_r.
  - exists 0%nat. cbv zeta. repeat split; try lia; cbn; try reflexivity;
      now rewrite app_nil_r.
  - exists 0%nat. cbv zeta. repeat split; try lia; cbn; try reflexivity;
      now rewrite app_nil_r.
Qed.

Lemma pickup_service_queues (dt now : Q) (st : State) :
  let st' := pickup_service dt now st in
  exists k,
    (k <= 1)%nat
    /\ ((pickupServers (params st) <= 0)%Z -> k = 0%nat)
    /\ q_pickup (queues st') = skipn k (q_pickup (queues st))
    /\ q_pay (queues st') = q_pay (queues st)
    /\ q_orderA (queues st') = q_orderA (queues st)
    /\ q_orderB (queues st') = q_orderB (queues st).
Proof.
  unfold pickup_service.
  destruct (0 <? _)%nat eqn:Hlen; cbn [andb];
    [destruct (of_Z (pickupServers (params st)) >? Fin 0)%num eqn:Hs|].
  - match goal with |- context [if ?c then _ else _] => destruct c end.
    + cbn [queues set_pickupClock].
      destruct (q_pickup (queues st)) as [|car rest] eqn:E; cbn [shift].
      * exists 0%nat. cbv zeta. cbn [queues set_pickupClock]. rewrite E.
        repeat split; lia.
      * exists 1%nat. cbv zeta.
        assert (Hgt : ~ (pickupServers (params st) <= 0)%Z).
        { intro Hle. rewrite (gtb_of_Z_nonpos _ Hle) in Hs. discriminate. }
        repeat split; try lia; cbn; rewrite ?E; reflexivity.
    + exists 0%nat. cbv zeta. repeat split; lia.
  - exists 0%nat. cbv zeta. repeat split; lia.
  - exists 0%nat. cbv zeta. repeat split; lia.
Qed.

Section EngineRun.

Variable hypot : Q -> Q -> Q.
Variable log : Q -> num.
Variable toString36 : Q -> string.
Variable random_stream : nat -> Q.

Local Abbreviation loop := (arrivals_loop hypot log toString36 random_stream).
Local Abbreviation body := (admit_arrival hypot log toString36 random_stream).
Local Abbreviation step' := (step hypot log toString36 random_stream).
Local Abbreviation reachable' := (reachable hypot log toString36 random_stream).

Lemma step_phases (fuel : nat) (now dt : Q) (st st' : State) :
  step' fuel now dt st = Some st' ->
  exists st2,
    loop fuel now (set_nextArrival st (nextArrival st - Fin dt)%num) = Some st2
    /\ st' = maybe_rebalance random_stream
               (record_wip now (curbside_completions random_stream now
                                  (served_stages dt now st2))).
Proof.
  unfold step.
  destruct (arrivals_loop _ _ _ _ fuel now _) as [st2|]; [|discriminate].
  intro H. exists st2. split; [reflexivity|]. injection H as H. symmetry. exact H.
Qed.

Lemma maybe_rebalance_frame (st : State) :
  let st' := maybe_rebalance random_stream st in
  spots st' = spots st /\ queues st' = queues st /\ metrics st' = metrics st
  /\ heap st' = heap st.
Proof.
  unfold maybe_rebalance. destruct (autoRebalance (params st)); [|repeat split].
  simpl. destruct (Qltb _ _); repeat split.
Qed.

Lemma maybe_rebalance_nextArrival (st : State) :
  nextArrival (maybe_rebalance random_stream st) = nextArrival st.
Proof.
  unfold maybe_rebalance. destruct (autoRebalance (params st)); [|reflexivity].
  cbn [random]. destruct (Qltb _ _); reflexivity.
Qed.

Lemma maybe_rebalance_params (st : State) :
  let p := params st in
  let p' := params (maybe_rebalance random_stream st) in
  total_servers p' = total_servers p
  /\ rates_of p' = rates_of p
  /\ (staffed p -> staffed p')
  /\ (autoRebalance p = false -> p' = p).
Proof.
  unfold maybe_rebalance. destruct (autoRebalance (params st)); [|repeat split; auto].
  cbn [random fst snd]. destruct (Qltb _ _).
  - destruct (rebalanceServers_params
                (mkSys (queues (set_rng st (S (rng st)))) (params (set_rng st (S (rng st))))))
      as (A & B & C).
    cbn [sys_params params set_rng] in A, B, C.
    cbv zeta. cbn [params set_params]. repeat split; try assumption; discriminate.
  - repeat split; auto; discriminate.
Qed.

(** *** The arrivals *)

Lemma admit_arrival_effect (now : Q) (st : State) :
  let st' := body now st in
  arrivals (metrics st') = S (arrivals (metrics st))
  /\ maxWip (metrics st') = maxWip (metrics st)
  /\ history (metrics st') = history (metrics st)
  /\ params st' = params st
  /\ q_pay (queues st') = q_pay (queues st)
  /\ q_pickup (queues st') = q_pickup (queues st)
  /\ forall L, exists new,
       order_queue (queues st') L = order_queue (queues st) L ++ new
       /\ Forall (fun c => car_lane c = Some L) new.
Proof.
  destruct (admit_frame hypot log toString36 random_stream now st) as (Fq & Fp & _ & Fm & _).
  cbv zeta. rewrite Fq, Fp, Fm, admit_route_cases.
  assert (J : forall lane,
    let s := join_lane (arriving_car toString36 random_stream now st) lane
               (counted toString36 random_stream now st) in
    arrivals (metrics s) = S (arrivals (metrics st))
    /\ maxWip (metrics s) = maxWip (metrics st)
    /\ history (metrics s) = history (metrics st)
    /\ params s = params st
    /\ q_pay (queues s) = q_pay (queues st)
    /\ q_pickup (queues s) = q_pickup (queues st)
    /\ forall L, exists new,
       order_queue (queues s) L = order_queue (queues st) L ++ new
       /\ Forall (fun c => car_lane c = Some L) new).
  { intro lane. cbv zeta.
    repeat split; try (destruct lane; reflexivity).
    intro L. destruct lane, L; simpl; unfold push.
    - eexists; split; [reflexivity|]. repeat constructor.
    - exists []; split; [now rewrite app_nil_r|constructor].
    - exists []; split; [now rewrite app_nil_r|constructor].
    - eexists; split; [reflexivity|]. repeat constructor. }
  destruct (snd (advice toString36 random_stream now st) >? _)%num;
    [destruct (chooseParkingSpot hypot (spots st) step_entrance) as [[i spot]|]|];
    try apply J.
  repeat split.
  intro L. exists []. split; [|constructor]. rewrite app_nil_r. destruct L; reflexivity.
Qed.

Lemma arrivals_loop_effect (fuel : nat) (now : Q) (st st' : State) :
  loop fuel now st = Some st' ->
  (arrivals (metrics st) <= arrivals (metrics st'))%nat
  /\ ((nextArrival st <=? Fin 0)%num = true ->
      (arrivals (metrics st) < arrivals (metrics st'))%nat)
  /\ ((nextArrival st <=? Fin 0)%num = false -> st' = st)
  /\ maxWip (metrics st') = maxWip (metrics st)
  /\ history (metrics st') = history (metrics st)
  /\ params st' = params st
  /\ q_pay (queues st') = q_pay (queues st)
  /\ q_pickup (queues st') = q_pickup (queues st)
  /\ forall L, exists new,
       order_queue (queues st') L = order_queue (queues st) L ++ new
       /\ Forall (fun c => car_lane c = Some L) new.
Proof.
  revert st. induction fuel as [|fuel IH]; intros st; cbn [arrivals_loop];
    destruct (nextArrival st <=? Fin 0)%num eqn:T; try discriminate.
  - intro H; inversion H; subst st'. repeat split; try discriminate; try lia.
    intro L. exists []. split; [now rewrite app_nil_r|constructor].
  - intro H. apply IH in H. clear IH.
    destruct (admit_arrival_effect now st) as (A1 & A2 & A3 & A4 & A5 & A6 & A7).
    destruct H as (B1 & _ & _ & B2 & B3 & B4 & B5 & B6 & B7).
    set (s1 := body now st) in *. clearbody s1.
    rewrite B2, B3, B4, B5, B6, A2, A3, A4, A5, A6.
    repeat split; try discriminate; try lia.
    intro L. destruct (A7 L) as (n1 & E1 & F1). destruct (B7 L) as (n2 & E2 & F2).
    exists (n1 ++ n2). split.
    + now rewrite E2, E1, app_assoc.
    + apply Forall_app. split; assumption.
  - intro H; inversion H; subst st'. repeat split; try discriminate; try lia.
    intro L. exists []. split; [now rewrite app_nil_r|constructor].
Qed.

Lemma arrivals_loop_exit (fuel : nat) (now : Q) (st st' : State) :
  loop fuel now st = Some st' -> (nextArrival st' <=? Fin 0)%num = false.
Proof.
  revert st. induction fuel as [|fuel IH]; intros s; cbn [arrivals_loop];
    destruct (nextArrival s <=? Fin 0)%num eqn:T; try discriminate.
  - intro H; inversion H; now subst.
  - apply IH.
  - intro H; inversion H; now subst.
Qed.

(** *** The curbside loop *)

Lemma curbside_loop_counts (now : Q) (todo kept : list Car) (st : State) :
  let st' := curbside_loop random_stream now todo kept st in
  arrivals (metrics st') = arrivals (metrics st) /\ parked (metrics st') = parked (metrics st)
  /\ maxWip (metrics st') = maxWip (metrics st) /\ history (metrics st') = history (metrics st)
  /\ params st' = params st /\ heap st' = heap st
  /\ (List.length (q_curbside (queues st')) <= List.length todo + List.length kept)%nat.
Proof.
  revert kept st. induction todo as [|car todo IH]; intros kept st; cbn [curbside_loop].
  - cbn. repeat split. lia.
  - assert (Hf : metrics (snd (assign_readyAt random_stream car st)) = metrics st
                 /\ params (snd (assign_readyAt random_stream car st)) = params st
                 /\ heap (snd (assign_readyAt random_stream car st)) = heap st).
    { unfold assign_readyAt. destruct (readyAt_falsy car); repeat split. }
    destruct (assign_readyAt random_stream car st) as [car1 st1]. cbn [snd] in Hf.
    destruct Hf as (Hm & Hp & Hh).
    destruct (is_ready now car1).
    + destruct (IH kept (complete_curbside now car1 st1)) as (A & B & C & D & E & F & G).
      cbv zeta. rewrite A, B, C, D, E, F.
      repeat split; try (cbn [List.length]; lia);
        unfold complete_curbside; cbn [metrics params heap set_metrics set_spots];
        rewrite ?Hm, ?Hp, ?Hh; reflexivity.
    + destruct (IH (car1 :: kept) st1) as (A & B & C & D & E & F & G).
      cbv zeta. rewrite A, B, C, D, E, F, Hm, Hp, Hh. repeat split.
      cbn [List.length] in G |- *. lia.
Qed.

Lemma curbside_completions_counts (now : Q) (st : State) :
  let st' := curbside_completions random_stream now st in
  arrivals (metrics st') = arrivals (metrics st) /\ parked (metrics st') = parked (metrics st)
  /\ maxWip (metrics st') = maxWip (metrics st) /\ history (metrics st') = history (metrics st)
  /\ params st' = params st /\ heap st' = heap st
  /\ (List.length (q_curbside (queues st')) <= List.length (q_curbside (queues st)))%nat.
Proof.
  unfold curbside_completions.
  destruct (curbside_loop_counts now (rev (q_curbside (queues st))) [] st)
    as (A & B & C & D & E & F & G).
  rewrite length_rev in G. cbn [List.length] in G. rewrite Nat.add_0_r in G.
  cbv zeta. auto 10.
Qed.

Lemma curbside_loop_queues (now : Q) (todo kept : list Car) (st : State) :
  let st' := curbside_loop random_stream now todo kept st in
  q_orderA (queues st') = q_orderA (queues st) /\ q_orderB (queues st') = q_orderB (queues st)
  /\ q_pay (queues st') = q_pay (queues st) /\ q_pickup (queues st') = q_pickup (queues st).
Proof.
  revert kept st. induction todo as [|car todo IH]; intros kept st; cbn [curbside_loop].
  - repeat split.
  - assert (Hf : queues (snd (assign_readyAt random_stream car st)) = queues st).
    { unfold assign_readyAt. destruct (readyAt_falsy car); reflexivity. }
    destruct (assign_readyAt random_stream car st) as [car1 st1]. cbn [snd] in Hf.
    destruct (is_ready now car1).
    + destruct (IH kept (complete_curbside now car1 st1)) as (A & B & C & D).
      cbv zeta. rewrite A, B, C, D. unfold complete_curbside.
      cbn [queues set_metrics set_spots]. rewrite Hf. repeat split.
    + destruct (IH (car1 :: kept) st1) as (A & B & C & D).
      cbv zeta. rewrite A, B, C, D, Hf. repeat split.
Qed.

Lemma curbside_loop_nextArrival (now : Q) (todo kept : list Car) (st : State) :
  nextArrival (curbside_loop random_stream now todo kept st) = nextArrival st.
Proof.
  revert kept st. induction todo as [|car todo IH]; intros kept st; cbn [curbside_loop].
  - reflexivity.
  - assert (Hf : nextArrival (snd (assign_readyAt random_stream car st)) = nextArrival st).
    { unfold assign_readyAt. destruct (readyAt_falsy car); reflexivity. }
    destruct (assign_readyAt random_stream car st) as [car1 st1]. cbn [snd] in Hf.
    destruct (is_ready now car1); rewrite IH; [|exact Hf].
    unfold complete_curbside. cbn [nextArrival set_metrics set_spots]. exact Hf.
Qed.

Lemma curbside_loop_static (now : Q) (todo kept : list Car) (st : State) :
  map spot_static (spots (curbside_loop random_stream now todo kept st))
  = map spot_static (spots st).
Proof.
  revert kept st. induction todo as [|car todo IH]; intros kept st; cbn [curbside_loop].
  - reflexivity.
  - assert (Hf : spots (snd (assign_readyAt random_stream car st)) = spots st).
    { unfold assign_readyAt. destruct (readyAt_falsy car); reflexivity. }
    destruct (assign_readyAt random_stream car st) as [car1 st1]. cbn [snd] in Hf.
    destruct (is_ready now car1); rewrite IH; [|now rewrite Hf].
    unfold complete_curbside. cbn [spots set_metrics set_spots]. rewrite Hf.
    destruct (parkingSpotId car1); [apply release_spot_static|reflexivity].
Qed.

Lemma assign_readyAt_some (car : Car) (st : State) :
  exists t, readyAt (fst (assign_readyAt random_stream car st)) = Some t
            /\ arrival (fst (assign_readyAt random_stream car st)) = arrival car.
Proof.
  unfold assign_readyAt, readyAt_falsy.
  destruct (readyAt car) as [t|] eqn:E.
  - destruct (Qeq_bool t 0); cbn; eauto.
  - cbn. eauto.
Qed.

Lemma curbside_loop_waiting (now : Q) (todo kept : list Car) (st : State) :
  Forall (waiting now) kept ->
  Forall (waiting now) (q_curbside (queues (curbside_loop random_stream now todo kept st))).
Proof.
  revert kept st. induction todo as [|car todo IH]; intros kept st Hk; cbn [curbside_loop].
  - exact Hk.
  - destruct (assign_readyAt_some car st) as (t & Ht & _).
    destruct (assign_readyAt random_stream car st) as [car1 st1]. cbn [fst] in Ht.
    destruct (is_ready now car1) eqn:R.
    + now apply IH.
    + apply IH. constructor; [|exact Hk]. exists t. split; [exact Ht|].
      unfold is_ready in R. rewrite Ht in R. apply Qle_bool_false in R. exact R.
Qed.

(** The state after a step, seen from the state [st2] that the arrivals
    loop leaves: what the later phases keep. *)
Lemma step_tail_frame (dt now : Q) (st2 : State) :
  let st' := maybe_rebalance random_stream
               (record_wip now (curbside_completions random_stream now
                                  (served_stages dt now st2))) in
  arrivals (metrics st') = arrivals (metrics st2)
  /\ parked (metrics st') = parked (metrics st2)
  /\ nextArrival st' = nextArrival st2
  /\ map spot_static (spots st') = map spot_static (spots st2)
  /\ (List.length (q_curbside (queues st')) <= List.length (q_curbside (queues st2)))%nat
  /\ Forall (waiting now) (q_curbside (queues st')).
Proof.
  cbv zeta.
  destruct (served_stages_counts dt now st2) as (A1 & A2 & _ & _ & A5 & A6 & _).
  assert (An : nextArrival (served_stages dt now st2) = nextArrival st2).
  { unfold served_stages.
    now rewrite pickup_service_nextArrival, pay_service_nextArrival,
      !order_service_nextArrival. }
  set (s3 := served_stages dt now st2) in *. clearbody s3.
  destruct (curbside_completions_counts now s3) as (B1 & B2 & _ & _ & _ & _ & B7).
  pose proof (curbside_loop_nextArrival now (rev (q_curbside (queues s3))) [] s3) as Bn.
  pose proof (curbside_loop_static now (rev (q_curbside (queues s3))) [] s3) as Bs.
  pose proof (curbside_loop_waiting now (rev (q_curbside (queues s3))) [] s3 (Forall_nil _))
    as Bw.
  fold (curbside_completions random_stream now s3) in Bn, Bs, Bw.
  set (s4 := curbside_completions random_stream now s3) in *. clearbody s4.
  destruct (record_wip_frame now s4) as (Rs & Rq & _ & _ & Ra & Rp).
  pose proof (record_wip_nextArrival now s4) as Rn.
  set (s5 := record_wip now s4) in *. clearbody s5.
  destruct (maybe_rebalance_frame s5) as (Fs & Fq & Fm & _).
  rewrite maybe_rebalance_nextArrival, Fs, Fq, Fm, Rs, Rq, Ra, Rp, Rn, B1, B2, Bn, Bs,
    A1, A2, An, A5.
  rewrite A6 in B7. repeat split; assumption.
Qed.

(** The four service queues after a step, in terms of the state [st2]
    that the arrivals loop leaves. *)
Lemma step_tail_queues (dt now : Q) (st2 : State) :
  let st' := maybe_rebalance random_stream
               (record_wip now (curbside_completions random_stream now
                                  (served_stages dt now st2))) in
  exists kA kB kP kK,
    (kA <= 1 /\ kB <= 1 /\ kP <= 1 /\ kK <= 1)%nat
    /\ ((orderServersA (params st2) <= 0)%Z -> kA = 0%nat)
    /\ ((orderServersB (params st2) <= 0)%Z -> kB = 0%nat)
    /\ ((payServers (params st2) <= 0)%Z -> kP = 0%nat)
    /\ ((pickupServers (params st2) <= 0)%Z -> kK = 0%nat)
    /\ q_orderA (queues st') = skipn kA (q_orderA (queues st2))
    /\ q_orderB (queues st') = skipn kB (q_orderB (queues st2))
    /\ q_pay (queues st')
       = skipn kP (q_pay (queues st2)
                   ++ map (fun c => car_set_progress_order c now)
                        (firstn kA (q_orderA (queues st2)))
                   ++ map (fun c => car_set_progress_order c now)
                        (firstn kB (q_orderB (queues st2))))
    /\ q_pickup (queues st')
       = skipn kK (q_pickup (queues st2)
                   ++ map (fun c => car_set_progress_pay c now)
                        (firstn kP (q_pay (queues st2)
                           ++ map (fun c => car_set_progress_order c now)
                                (firstn kA (q_orderA (queues st2)))
                           ++ map (fun c => car_set_progress_order c now)
                                (firstn kB (q_orderB (queues st2)))))).
Proof.
  cbv zeta. unfold served_stages.
  destruct (order_service_queues dt now LaneA st2) as (kA & A1 & A2 & A3 & A4 & A5 & A6).
  destruct (order_service_frame dt now LaneA st2) as (_ & _ & Ap & _).
  cbn [order_queue other_lane orderServers] in A2, A3, A4, A5.
  set (a := order_service dt now LaneA st2) in *. clearbody a.
  destruct (order_service_queues dt now LaneB a) as (kB & B1 & B2 & B3 & B4 & B5 & B6).
  destruct (order_service_frame dt now LaneB a) as (_ & _ & Bp & _).
  cbn [order_queue other_lane orderServers] in B2, B3, B4, B5.
  set (b := order_service dt now LaneB a) in *. clearbody b.
  destruct (pay_service_queues dt now b) as (kP & C1 & C2 & C3 & C4 & C5 & C6).
  destruct (pay_service_frame dt now b) as (_ & _ & Cp & _).
  set (c := pay_service dt now b) in *. clearbody c.
  destruct (pickup_service_queues dt now c) as (kK & D1 & D2 & D3 & D5 & D6 & D7).
  set (d := pickup_service dt now c) in *. clearbody d.
  destruct (curbside_loop_queues now (rev (q_curbside (queues d))) [] d) as (E1 & E2 & E3 & E4).
  fold (curbside_completions random_stream now d) in E1, E2, E3, E4.
  set (e := curbside_completions random_stream now d) in *. clearbody e.
  destruct (record_wip_frame now e) as (_ & Fq & _).
  destruct (maybe_rebalance_frame (record_wip now e)) as (_ & Gq & _).
  rewrite Gq, Fq, E1, E2, E3, E4, D3, D5, D6, D7, C3, C4, C5, C6, B3, B4, B5, B6, A3, A4, A5, A6.
  rewrite <- app_assoc.
  exists kA, kB, kP, kK. rewrite Cp, Bp, Ap in *.
  repeat split; assumption.
Qed.

(** X5.  Every service queue is first in, first out: in a step at most
    one car leaves each of the queues order A, order B, pay and pickup,
    from the front, and the newcomers join at the back; a stage without
    servers lets nobody leave.  The newcomers of an order queue are cars
    sent to that lane, those of the pay queue (at most two) and of the
    pickup queue (at most one) were served by the stage before in this
    step. *)
Theorem step_queue_discipline (fuel : nat) (now dt : Q) (st st' : State) :
  step' fuel now dt st = Some st' ->
  (forall L, exists new k,
      fifo k new (order_queue (queues st) L) (order_queue (queues st') L)
      /\ ((orderServers (params st) L <= 0)%Z -> k = 0%nat)
      /\ Forall (fun c => car_lane c = Some L) new)
  /\ (exists new k,
        fifo k new (q_pay (queues st)) (q_pay (queues st'))
        /\ ((payServers (params st) <= 0)%Z -> k = 0%nat)
        /\ (List.length new <= 2)%nat
        /\ Forall (fun c => progress_order c = Some now) new)
  /\ (exists new k,
        fifo k new (q_pickup (queues st)) (q_pickup (queues st'))
        /\ ((pickupServers (params st) <= 0)%Z -> k = 0%nat)
        /\ (List.length new <= 1)%nat
        /\ Forall (fun c => progress_pay c = Some now) new).
Proof.
  intro Hstep. destruct (step_phases _ _ _ _ _ Hstep) as (st2 & E & ->).
  destruct (arrivals_loop_effect _ _ _ _ E) as (_ & _ & _ & _ & _ & Hp & Hpay & Hpick & Hord).
  cbn [params set_nextArrival queues] in Hp, Hpay, Hpick, Hord.
  destruct (step_tail_queues dt now st2)
    as (kA & kB & kP & kK & (LA & LB & LP & LK) & ZA & ZB & ZP & ZK & QA & QB & QP & QK).
  rewrite Hp in ZA, ZB, ZP, ZK.
  set (fin := maybe_rebalance random_stream _) in *. clearbody fin.
  split; [|split].
  - intros [|].
    + destruct (Hord LaneA) as (new & En & Fn). cbn [order_queue] in En |- *.
      exists new, kA. repeat split; try assumption. now rewrite QA, En.
    + destruct (Hord LaneB) as (new & En & Fn). cbn [order_queue] in En |- *.
      exists new, kB. repeat split; try assumption. now rewrite QB, En.
  - eexists. exists kP. split; [split; [exact LP|]|split; [exact ZP|]].
    + rewrite QP, Hpay. reflexivity.
    + split.
      * rewrite length_app, !length_map, !length_firstn. lia.
      * apply Forall_app; split; apply Forall_forall; intros c Hc;
          apply in_map_iff in Hc; destruct Hc as (c0 & <- & _); reflexivity.
  - eexists. exists kK. split; [split; [exact LK|]|split; [exact ZK|]].
    + rewrite QK, Hpick. reflexivity.
    + split.
      * rewrite length_map, length_firstn. lia.
      * apply Forall_forall; intros c Hc.
        apply in_map_iff in Hc; destruct Hc as (c0 & <- & _); reflexivity.
Qed.

(** X6.  A step leaves the rates, the mobile share, the divert threshold
    and the auto-rebalance switch alone, keeps the total number of servers,
    and keeps at least one server at every stage that had one; with
    auto-rebalance off it changes no parameter at all. *)
Theorem step_keeps_staff (fuel : nat) (now dt : Q) (st st' : State) :
  step' fuel now dt st = Some st' ->
  total_servers (params st') = total_servers (params st)
  /\ rates_of (params st') = rates_of (params st)
  /\ (staffed (params st) -> staffed (params st'))
  /\ (autoRebalance (params st) = false -> params st' = params st).
Proof.
  intro Hstep.
  destruct (step_phases _ _ _ _ _ Hstep) as (st2 & E & ->).
  destruct (arrivals_loop_effect _ _ _ _ E) as (_ & _ & _ & _ & _ & Hp & _).
  cbn [params set_nextArrival] in Hp.
  destruct (served_stages_counts dt now st2) as (_ & _ & _ & _ & _ & _ & Sp & _).
  set (s3 := served_stages dt now st2) in *. clearbody s3.
  destruct (curbside_completions_counts now s3) as (_ & _ & _ & _ & Cp & _).
  set (s4 := curbside_completions random_stream now s3) in *. clearbody s4.
  destruct (record_wip_frame now s4) as (_ & _ & Rp & _).
  destruct (maybe_rebalance_params (record_wip now s4)) as (A & B & C & D).
  rewrite Rp, Cp, Sp, Hp in A, B, C, D. auto.
Qed.

(** *** History and high-water mark *)

Lemma step_history (fuel : nat) (now dt : Q) (st st' : State) :
  step' fuel now dt st = Some st' ->
  history (metrics st')
  = history (metrics st)
    ++ [mkHistoryEntry now (wip_of (queues st')) (avgWait (metrics st'))]
  /\ maxWip (metrics st') = Nat.max (maxWip (metrics st)) (wip_of (queues st')).
Proof.
  intro Hstep.
  destruct (step_phases _ _ _ _ _ Hstep) as (st2 & E & ->).
  destruct (arrivals_loop_effect _ _ _ _ E) as (_ & _ & _ & Hw & Hh & _).
  cbn [metrics set_nextArrival] in Hw, Hh.
  destruct (served_stages_counts dt now st2) as (_ & _ & Sw & Sh & _).
  set (s3 := served_stages dt now st2) in *. clearbody s3.
  destruct (curbside_completions_counts now s3) as (_ & _ & Cw & Ch & _).
  set (s4 := curbside_completions random_stream now s3) in *. clearbody s4.
  destruct (maybe_rebalance_frame (record_wip now s4)) as (_ & Fq & Fm & _).
  rewrite Fq, Fm. cbn [record_wip metrics queues set_metrics history maxWip avgWait].
  unfold push. rewrite Cw, Ch, Sw, Sh, Hw, Hh. split; reflexivity.
Qed.

(** X7.  Each step appends exactly one entry to the history: the time of
    the step, the work in progress at its end and the running average at
    its end; and [maxWip] becomes the larger of its old value and this work
    in progress, so it never decreases. *)
Theorem step_records_history (fuel : nat) (now dt : Q) (st st' : State) :
  step' fuel now dt st = Some st' ->
  history (metrics st')
  = history (metrics st)
    ++ [mkHistoryEntry now (wip_of (queues st')) (avgWait (metrics st'))]
  /\ maxWip (metrics st') = Nat.max (maxWip (metrics st)) (wip_of (queues st'))
  /\ (maxWip (metrics st) <= maxWip (metrics st'))%nat.
Proof.
  intro Hstep. destruct (step_history _ _ _ _ _ Hstep) as (Eh & Ew).
  split; [exact Eh|]. split; [exact Ew|]. rewrite Ew. lia.
Qed.

Lemma step_history_ok (fuel : nat) (now dt : Q) (st st' : State) :
  history_ok st -> step' fuel now dt st = Some st' -> history_ok st'.
Proof.
  intros (H1 & H2 & H3 & H4 & H5) Hstep.
  destruct (step_history _ _ _ _ _ Hstep) as (Eh & Ew).
  unfold history_ok. cbv zeta. rewrite Eh, Ew.
  set (w := wip_of (queues st')) in *. set (a := avgWait (metrics st')) in *.
  set (h := history (metrics st)) in *. set (m := maxWip (metrics st)) in *.
  split; [|split; [|split; [|split]]].
  - apply Forall_app. split.
    + eapply Forall_impl; [|exact H1]. cbv beta. intros e He. lia.
    + repeat constructor. cbn. lia.
  - rewrite map_app. cbn [map]. rewrite last_last. reflexivity.
  - lia.
  - intro Hnil. now apply app_eq_nil in Hnil as [_ Hnil].
  - intros _. destruct (Nat.max_spec m w) as [[Hlt ->]|[Hle ->]].
    + exists (mkHistoryEntry now w a). split; [apply in_or_app; right; now left|reflexivity].
    + destruct h as [|e0 h0] eqn:Eh0.
      * rewrite (H4 eq_refl) in *. exists (mkHistoryEntry now w a).
        split; [now left|]. cbn. lia.
      * destruct H5 as (e & He & Hm); [discriminate|].
        exists e. split; [apply in_or_app; now left|exact Hm].
Qed.

(** X8.  In every state the engine reaches from a reset, no history
    entry holds more work in progress than [maxWip], the last entry (0
    before the first step) holds the present work in progress, and once
    the history is not empty one of its entries attains [maxWip]. *)
Theorem history_watermark (st : State) :
  reachable' st ->
  let h := history (metrics st) in
  Forall (fun e => (h_wip e <= maxWip (metrics st))%nat) h
  /\ last (map h_wip h) 0%nat = wip_of (queues st)
  /\ (h <> [] -> exists e, In e h /\ h_wip e = maxWip (metrics st)).
Proof.
  intro H.
  assert (Hok : history_ok st).
  { induction H as [st|st st' fuel now dt _ IH Hs|st p _ IH].
    - unfold cold_start, history_ok.
      destruct (generateSpots random_stream st) as [sp st1].
      destruct (exp log random_stream _ st1) as [gap st2]. cbn.
      repeat split; try constructor; try lia. intro Hx; now destruct Hx.
    - eapply step_history_ok; eauto.
    - exact IH. }
  destruct Hok as (H1 & H2 & _ & _ & H5). cbv zeta. auto.
Qed.

(** *** Admissions *)

(** X9.  A step admits at least one car exactly when the arrival
    countdown, lowered by [dt], is at most 0; otherwise the counter of
    arrivals stays and the countdown is the lowered one.  The countdown a
    step leaves is never at most 0. *)
Theorem step_admits_iff (fuel : nat) (now dt : Q) (st st' : State) :
  step' fuel now dt st = Some st' ->
  (arrivals (metrics st) <= arrivals (metrics st'))%nat
  /\ ((arrivals (metrics st) < arrivals (metrics st'))%nat
      <-> (nextArrival st - Fin dt <=? Fin 0)%num = true)
  /\ ((nextArrival st - Fin dt <=? Fin 0)%num = false ->
      nextArrival st' = (nextArrival st - Fin dt)%num)
  /\ (nextArrival st' <=? Fin 0)%num = false.
Proof.
  intro Hstep.
  destruct (step_phases _ _ _ _ _ Hstep) as (st2 & E & ->).
  pose proof (arrivals_loop_exit _ _ _ _ E) as Hend.
  destruct (arrivals_loop_effect _ _ _ _ E) as (A1 & A2 & A3 & _).
  cbn [metrics set_nextArrival nextArrival] in A1, A2, A3.
  destruct (step_tail_frame dt now st2) as (Ta & _ & Tn & _).
  set (fin := maybe_rebalance random_stream _) in *. clearbody fin.
  rewrite Ta, Tn.
  split; [exact A1|]. split; [|split; [|exact Hend]].
  - split; [|exact A2].
    intro Hlt. destruct (nextArrival st - Fin dt <=? Fin 0)%num; [reflexivity|].
    rewrite (A3 eq_refl) in Hlt. cbn in Hlt. lia.
  - intro Hf. now rewrite (A3 Hf).
Qed.

Lemma step_stalled (fuel : nat) (now dt : Q) (st st' : State) :
  nextArrival st = PInf -> step' fuel now dt st = Some st' ->
  nextArrival st' = PInf /\ arrivals (metrics st') = arrivals (metrics st).
Proof.
  intros Hinf Hstep.
  destruct (step_phases _ _ _ _ _ Hstep) as (st2 & E & ->).
  destruct (arrivals_loop_effect _ _ _ _ E) as (_ & _ & A3 & _).
  cbn [nextArrival set_nextArrival] in A3. rewrite Hinf in A3.
  specialize (A3 eq_refl). subst st2.
  destruct (step_tail_frame dt now (set_nextArrival st (PInf - Fin dt)%num))
    as (Ta & _ & Tn & _).
  split; [exact Tn|exact Ta].
Qed.

(** From the arrivals loop on, a step only moves cars on and serves them. *)
Lemma step_tail_evolves (dt now : Q) (st2 : State) :
  evolves st2
    (maybe_rebalance random_stream
       (record_wip now (curbside_completions random_stream now (served_stages dt now st2)))).
Proof.
  unfold served_stages.
  eapply evolves_trans; [apply (order_service_evolves dt now LaneA)|].
  eapply evolves_trans; [apply (order_service_evolves dt now LaneB)|].
  eapply evolves_trans; [apply pay_service_evolves|].
  eapply evolves_trans; [apply pickup_service_evolves|].
  eapply evolves_trans; [apply curbside_completions_evolves|].
  eapply evolves_trans; [apply record_wip_evolves|].
  apply maybe_rebalance_evolves.
Qed.

Lemma step_stalled_wip (fuel : nat) (now dt : Q) (st st' : State) :
  nextArrival st = PInf -> step' fuel now dt st = Some st' ->
  (wip_of (queues st') <= wip_of (queues st))%nat.
Proof.
  intros Hinf Hstep.
  destruct (step_phases _ _ _ _ _ Hstep) as (st2 & E & ->).
  destruct (arrivals_loop_effect _ _ _ _ E) as (_ & _ & A3 & _).
  cbn [nextArrival set_nextArrival] in A3. rewrite Hinf in A3.
  specialize (A3 eq_refl). subst st2.
  destruct (step_tail_evolves dt now (set_nextArrival st (PInf - Fin dt)%num))
    as (gone & P & _).
  set (fin := maybe_rebalance random_stream _) in *. clearbody fin.
  apply Permutation_length in P. rewrite length_app in P.
  rewrite !wip_of_objs. cbn [queues set_nextArrival] in P. lia.
Qed.

(** A rate of 0 or less: [exp] returns [Infinity] and draws nothing. *)
Lemma exp_stalled (rate : Q) (st : State) :
  rate <= 0 -> exp log random_stream (rate / 60) st = (PInf, st).
Proof.
  intro H. unfold exp.
  replace (Fin (rate / 60) <=? Fin 0)%num with true; [reflexivity|].
  symmetry. cbn. apply Qle_bool_iff.
  apply Qle_shift_div_r; [reflexivity|]. now rewrite Qmult_0_l.
Qed.

Lemma reachable_conserved (st : State) : reachable' st -> conserved st.
Proof.
  induction 1 as [st|st st' fuel now dt _ IH Hs|st p _ IH].
  - apply cold_start_conserved.
  - eapply step_conserved; eauto.
  - destruct IH as [H1 H2 H3]. constructor; assumption.
Qed.

(** *** Counters *)

Lemma admit_arrival_counters (now : Q) (st : State) :
  counters_ok st -> counters_ok (body now st).
Proof.
  intros (H1 & H2). unfold counters_ok.
  destruct (admit_frame hypot log toString36 random_stream now st) as (Fq & _ & _ & Fm & _).
  rewrite Fq, Fm, admit_route_cases.
  destruct (snd (advice toString36 random_stream now st) >? _)%num;
    [destruct (chooseParkingSpot hypot (spots st) step_entrance) as [[i spot]|]|].
  - unfold park, push. cbn [queues metrics q_curbside set_metrics set_queues set_curbside
      set_spots parked arrivals counted]. rewrite length_app. simpl. lia.
  - destruct (fst (advice toString36 random_stream now st)); simpl; lia.
  - destruct (fst (advice toString36 random_stream now st)); simpl; lia.
Qed.

Lemma arrivals_loop_counters (fuel : nat) (now : Q) (st st' : State) :
  counters_ok st -> loop fuel now st = Some st' -> counters_ok st'.
Proof.
  revert st. induction fuel as [|fuel IH]; intros st Hok; cbn [arrivals_loop].
  - destruct (nextArrival st <=? Fin 0)%num; [discriminate|].
    intro H; inversion H; now subst.
  - destruct (nextArrival st <=? Fin 0)%num.
    + apply IH. now apply admit_arrival_counters.
    + intro H; inversion H; now subst.
Qed.

Lemma step_counters (fuel : nat) (now dt : Q) (st st' : State) :
  counters_ok st -> step' fuel now dt st = Some st' -> counters_ok st'.
Proof.
  intros Hok Hstep. destruct (step_phases _ _ _ _ _ Hstep) as (st2 & E & ->).
  apply arrivals_loop_counters in E; [|exact Hok].
  destruct E as (H1 & H2). unfold counters_ok.
  destruct (step_tail_frame dt now st2) as (Ta & Tp & _ & _ & Tl & _).
  set (fin := maybe_rebalance random_stream _) in *. clearbody fin.
  rewrite Ta, Tp. lia.
Qed.

Lemma reachable_counters (st : State) : reachable' st -> counters_ok st.
Proof.
  induction 1 as [st|st st' fuel now dt _ IH Hs|st p _ IH].
  - unfold cold_start, counters_ok.
    destruct (generateSpots random_stream st) as [sp st1].
    destruct (exp log random_stream _ st1) as [gap st2]. split; simpl; lia.
  - eapply step_counters; eauto.
  - exact IH.
Qed.

Lemma admit_arrival_parked (now : Q) (st : State) :
  (parked (metrics st) <= arrivals (metrics st))%nat ->
  (parked (metrics (body now st)) <= arrivals (metrics (body now st)))%nat.
Proof.
  intros H.
  destruct (admit_frame hypot log toString36 random_stream now st) as (_ & _ & _ & Fm & _).
  rewrite Fm, admit_route_cases.
  destruct (snd (advice toString36 random_stream now st) >? _)%num;
    [destruct (chooseParkingSpot hypot (spots st) step_entrance) as [[i spot]|]|].
  - unfold park. cbn [metrics set_metrics set_queues set_spots parked arrivals counted].
    simpl. lia.
  - destruct (fst (advice toString36 random_stream now st)); simpl; lia.
  - destruct (fst (advice toString36 random_stream now st)); simpl; lia.
Qed.

Lemma arrivals_loop_parked (fuel : nat) (now : Q) (st st' : State) :
  (parked (metrics st) <= arrivals (metrics st))%nat -> loop fuel now st = Some st' ->
  (parked (metrics st') <= arrivals (metrics st'))%nat.
Proof.
  revert st. induction fuel as [|fuel IH]; intros st Hok; cbn [arrivals_loop].
  - destruct (nextArrival st <=? Fin 0)%num; [discriminate|].
    intro H; inversion H; now subst.
  - destruct (nextArrival st <=? Fin 0)%num.
    + apply IH. now apply admit_arrival_parked.
    + intro H; inversion H; now subst.
Qed.

Lemma step_parked (fuel : nat) (now dt : Q) (st st' : State) :
  (parked (metrics st) <= arrivals (metrics st))%nat -> step' fuel now dt st = Some st' ->
  (parked (metrics st') <= arrivals (metrics st'))%nat.
Proof.
  intros Hok Hstep. destruct (step_phases _ _ _ _ _ Hstep) as (st2 & E & ->).
  apply arrivals_loop_parked in E; [|exact Hok].
  destruct (step_tail_frame dt now st2) as (Ta & Tp & _).
  set (fin := maybe_rebalance random_stream _) in *. clearbody fin.
  rewrite Ta, Tp. exact E.
Qed.

(** *** Parked cars and their spots *)

Lemma assign_readyAt_spot (car : Car) (st : State) :
  parkingSpotId (fst (assign_readyAt random_stream car st)) = parkingSpotId car
  /\ spots (snd (assign_readyAt random_stream car st)) = spots st.
Proof.
  unfold assign_readyAt. destruct (readyAt_falsy car); split; reflexivity.
Qed.

Lemma curbside_loop_lot (now : Q) (todo kept : list Car) (st : State) :
  lot_ok (spots st) (map parkingSpotId (rev todo ++ kept)) ->
  lot_consistent (curbside_loop random_stream now todo kept st).
Proof.
  revert kept st. induction todo as [|car todo IH]; intros kept st Hok; cbn [curbside_loop].
  - exact Hok.
  - destruct (assign_readyAt_spot car st) as (Hp & Hs).
    destruct (assign_readyAt random_stream car st) as [car1 st1]. cbn [fst snd] in Hp, Hs.
    cbn [rev] in Hok. rewrite <- app_assoc in Hok. cbn [app] in Hok.
    rewrite map_app in Hok. cbn [map] in Hok. rewrite <- Hp in Hok.
    destruct (is_ready now car1).
    + apply IH. unfold complete_curbside. cbn [spots set_metrics set_spots].
      destruct (lot_ok_held_some _ _ _ _ Hok) as (id & Eid).
      rewrite Eid in Hok |- *. rewrite Hs. rewrite map_app.
      now apply lot_ok_release.
    + apply IH. rewrite Hs, map_app. exact Hok.
Qed.

Lemma curbside_completions_lot (now : Q) (st : State) :
  lot_consistent st -> lot_consistent (curbside_completions random_stream now st).
Proof.
  intro H. unfold curbside_completions. apply curbside_loop_lot.
  now rewrite rev_involutive, app_nil_r.
Qed.

Lemma lot_consistent_same (st st' : State) :
  spots st' = spots st -> q_curbside (queues st') = q_curbside (queues st) ->
  lot_consistent st -> lot_consistent st'.
Proof. unfold lot_consistent. now intros -> ->. Qed.

Lemma admit_arrival_lot (now : Q) (st : State) :
  lot_consistent st -> lot_consistent (body now st).
Proof.
  intro Hok.
  destruct (admit_frame hypot log toString36 random_stream now st) as (Fq & _ & Fs & _ & _).
  apply (lot_consistent_same (admit_route hypot toString36 random_stream now st));
    [assumption | now rewrite Fq |].
  rewrite admit_route_cases.
  destruct (snd (advice toString36 random_stream now st) >? _)%num.
  - destruct (chooseParkingSpot hypot (spots st) step_entrance) as [[i spot]|] eqn:E.
    + destruct (chooseParkingSpot_scanned hypot (spots st) step_entrance) as (b & Hsc).
      rewrite E in Hsc. destruct Hsc as (_ & Hn & He & _).
      apply eligible_flags in He. destruct He as [Ho Hr].
      unfold lot_consistent, park, push. cbn [spots queues q_curbside set_metrics set_queues
        set_curbside set_spots]. rewrite map_app. cbn [map parkingSpotId car_set_curbside].
      apply lot_ok_park; assumption.
    + apply (lot_consistent_same st); try assumption;
        destruct (fst (advice toString36 random_stream now st)); reflexivity.
  - apply (lot_consistent_same st); try assumption;
      destruct (fst (advice toString36 random_stream now st)); reflexivity.
Qed.

Lemma arrivals_loop_lot (fuel : nat) (now : Q) (st st' : State) :
  lot_consistent st -> loop fuel now st = Some st' -> lot_consistent st'.
Proof.
  revert st. induction fuel as [|fuel IH]; intros st Hok; cbn [arrivals_loop].
  - destruct (nextArrival st <=? Fin 0)%num; [discriminate|].
    intro H; inversion H; now subst.
  - destruct (nextArrival st <=? Fin 0)%num.
    + apply IH. now apply admit_arrival_lot.
    + intro H; inversion H; now subst.
Qed.

Lemma step_lot (fuel : nat) (now dt : Q) (st st' : State) :
  lot_consistent st -> step' fuel now dt st = Some st' -> lot_consistent st'.
Proof.
  intros Hok Hstep. destruct (step_phases _ _ _ _ _ Hstep) as (st2 & E & ->).
  apply arrivals_loop_lot in E; [|exact Hok].
  destruct (served_stages_counts dt now st2) as (_ & _ & _ & _ & Ss & Sq & _).
  apply (lot_consistent_same st2 (served_stages dt now st2) Ss Sq) in E.
  set (s3 := served_stages dt now st2) in *. clearbody s3.
  apply (curbside_completions_lot now) in E.
  set (s4 := curbside_completions random_stream now s3) in *. clearbody s4.
  destruct (record_wip_frame now s4) as (Rs & Rq & _).
  destruct (maybe_rebalance_frame (record_wip now s4)) as (Fs & Fq & _).
  apply (lot_consistent_same s4); [now rewrite Fs, Rs|now rewrite Fq, Rq|exact E].
Qed.

Lemma cold_start_lot (st : State) : lot_consistent (cold_start log random_stream st).
Proof.
  unfold cold_start, lot_consistent.
  pose proof (layout_nodup _ (generateSpots_fixed random_stream st)) as Hnd.
  destruct (generateSpots random_stream st) as [sp st1].
  destruct (exp log random_stream _ st1) as [gap st2].
  cbn [spots queues q_curbside empty_queues map fst] in *.
  split; [exact Hnd | split; [constructor | intros o []]].
Qed.

Lemma reachable_lot (st : State) : reachable' st -> lot_consistent st.
Proof.
  induction 1 as [st|st st' fuel now dt _ IH Hs|st p _ IH].
  - apply cold_start_lot.
  - eapply step_lot; eauto.
  - exact IH.
Qed.

(** X12.  In every state the engine reaches from a reset, the parked cars
    hold pairwise distinct spots, and the spot of each parked car is a
    spot of the lot that is occupied and not reserved. *)
Theorem curbside_spots_exclusive (st : State) :
  reachable' st ->
  NoDup (map parkingSpotId (q_curbside (queues st)))
  /\ forall car, In car (q_curbside (queues st)) ->
       exists s, In s (spots st) /\ parkingSpotId car = Some (spot_id s)
                 /\ occupied s = true /\ reserved s = false.
Proof.
  intro H. destruct (reachable_lot st H) as (_ & Hnd & Hheld).
  split; [exact Hnd|].
  intros car Hin. apply Hheld. now apply in_map.
Qed.

Lemma admit_arrival_static (now : Q) (st : State) :
  map spot_static (spots (body now st)) = map spot_static (spots st).
Proof.
  destruct (admit_frame hypot log toString36 random_stream now st) as (_ & _ & Fs & _).
  rewrite Fs, admit_route_cases.
  destruct (snd (advice toString36 random_stream now st) >? _)%num;
    [destruct (chooseParkingSpot hypot (spots st) step_entrance) as [[i spot]|]|].
  - unfold park. cbn [spots set_metrics set_queues set_spots counted].
    apply occupy_at_static.
  - destruct (fst (advice toString36 random_stream now st)); reflexivity.
  - destruct (fst (advice toString36 random_stream now st)); reflexivity.
Qed.

Lemma arrivals_loop_static (fuel : nat) (now : Q) (st st' : State) :
  loop fuel now st = Some st' -> map spot_static (spots st') = map spot_static (spots st).
Proof.
  revert st. induction fuel as [|fuel IH]; intros st; cbn [arrivals_loop];
    destruct (nextArrival st <=? Fin 0)%num; try discriminate.
  - intro H; inversion H; now subst.
  - intro H. rewrite (IH _ H). apply admit_arrival_static.
  - intro H; inversion H; now subst.
Qed.

Lemma step_static (fuel : nat) (now dt : Q) (st st' : State) :
  step' fuel now dt st = Some st' ->
  map spot_static (spots st') = map spot_static (spots st).
Proof.
  intro Hstep.
  destruct (step_phases _ _ _ _ _ Hstep) as (st2 & E & ->).
  apply arrivals_loop_static in E. cbn [spots set_nextArrival] in E.
  destruct (step_tail_frame dt now st2) as (_ & _ & _ & Ts & _).
  now rewrite Ts.
Qed.

Lemma reachable_layout (st : State) :
  reachable' st ->
  map spot_fixed (spots st) = map fixed_of (combine spot_cells (seq 1 56)).
Proof.
  induction 1 as [st|st st' fuel now dt _ IH Hs|st p _ IH].
  - pose proof (generateSpots_fixed random_stream st) as G.
    unfold cold_start. destruct (generateSpots random_stream st) as [sp st1].
    destruct (exp log random_stream _ st1) as [gap st2]. exact G.
  - rewrite <- IH. apply static_fixed. eapply step_static; eauto.
  - exact IH.
Qed.

(** X13.  Throughout a run the lot is the one [generateSpots] laid out
    (ids, coordinates, reserved flags and exit frictions), a step changes
    nothing in a spot but its [occupied] flag, and no car is ever parked
    on the reserved spots S1 and S2. *)
Theorem reserved_spots_never_used (st : State) :
  reachable' st ->
  map spot_fixed (spots st) = map fixed_of (combine spot_cells (seq 1 56))
  /\ (forall fuel now dt st',
        step' fuel now dt st = Some st' ->
        map spot_static (spots st') = map spot_static (spots st))
  /\ forall car, In car (q_curbside (queues st)) ->
       parkingSpotId car <> Some "S1"%string /\ parkingSpotId car <> Some "S2"%string.
Proof.
  intro Hr. pose proof (reachable_layout st Hr) as L.
  split; [exact L|]. split; [intros; eapply step_static; eauto|].
  intros car Hcar.
  destruct (reachable_lot st Hr) as (_ & _ & Hheld).
  destruct (Hheld (parkingSpotId car)) as (s & Hs & Eid & _ & Hres).
  { now apply in_map. }
  destruct (layout_bounds (spots st) s L Hs) as (_ & _ & _ & _ & _ & _ & Hrs).
  rewrite Eid. split; intro E; inversion E as [E'];
    assert (Ht : reserved s = true) by (apply Hrs; auto); congruence.
Qed.

(** X14.  After a step at time [now], every car that is still parked has
    a ready time, and this time lies after [now]: a parked car leaves at
    the first step whose time has reached its ready time. *)
Theorem curbside_still_waiting (fuel : nat) (now dt : Q) (st st' : State) :
  step' fuel now dt st = Some st' ->
  Forall (waiting now) (q_curbside (queues st')).
Proof.
  intro Hstep.
  destruct (step_phases _ _ _ _ _ Hstep) as (st2 & _ & ->).
  apply (step_tail_frame dt now st2).
Qed.

End EngineRun.

(** ** Curbside pickups *)

Lemma rand_range (lo hi u : Q) : lo <= hi -> 0 <= u -> u < 1 ->
  lo <= rand lo hi u /\ rand lo hi u <= hi /\ (lo < hi -> rand lo hi u < hi).
Proof. intros H H0 H1. unfold rand. split; [nra|split; [nra|intro; nra]]. Qed.

Section CurbsideWindow.

Variable hypot : Q -> Q -> Q.
Variable log : Q -> num.
Variable toString36 : Q -> string.
Variable random_stream : nat -> Q.
Hypothesis unit_draws : unit_stream random_stream.

Local Abbreviation loop := (arrivals_loop hypot log toString36 random_stream).
Local Abbreviation body := (admit_arrival hypot log toString36 random_stream).
Local Abbreviation step' := (step hypot log toString36 random_stream).
Local Abbreviation reachable' := (reachable hypot log toString36 random_stream).
Local Abbreviation curbside_step_samples' :=
  (curbside_step_samples hypot log toString36 random_stream).

Lemma assign_readyAt_window (car : Car) (st : State) :
  ready_window car -> ready_window (fst (assign_readyAt random_stream car st)).
Proof.
  intro H. unfold assign_readyAt. destruct (readyAt_falsy car); [|exact H].
  cbn. destruct (unit_draws (rng st)) as (H0 & H1).
  destruct (rand_range 4 10 (random_stream (rng st)) ltac:(lra) H0 H1) as (A & _ & B).
  unfold ready_window. cbn. specialize (B ltac:(lra)). lra.
Qed.

Lemma curbside_loop_window (now : Q) (todo kept : list Car) (st : State) :
  Forall ready_window todo -> Forall ready_window kept ->
  Forall ready_window (q_curbside (queues (curbside_loop random_stream now todo kept st))).
Proof.
  revert kept st. induction todo as [|car todo IH]; intros kept st Ht Hk; cbn [curbside_loop].
  - exact Hk.
  - inversion Ht as [|? ? Hc Ht']; subst.
    pose proof (assign_readyAt_window car st Hc) as Hw.
    destruct (assign_readyAt random_stream car st) as [car1 st1]. cbn [fst] in Hw.
    destruct (is_ready now car1).
    + now apply IH.
    + apply IH; [assumption|]. now constructor.
Qed.

Lemma curbside_samples_window (now : Q) (todo : list Car) (st : State) :
  Forall ready_window todo ->
  Forall (fun w => 4 <= w) (curbside_samples random_stream now todo st).
Proof.
  revert st. induction todo as [|car todo IH]; intros st Ht; cbn [curbside_samples].
  - constructor.
  - inversion Ht as [|? ? Hc Ht']; subst.
    pose proof (assign_readyAt_window car st Hc) as Hw.
    destruct (assign_readyAt_some random_stream car st) as (t & Et & _).
    destruct (assign_readyAt random_stream car st) as [car1 st1]. cbn [fst] in Hw, Et.
    destruct (is_ready now car1) eqn:R.
    + constructor; [|now apply IH].
      unfold is_ready in R. unfold ready_window in Hw. rewrite Et in R, Hw.
      apply Qle_bool_iff in R. lra.
    + now apply IH.
Qed.

Lemma admit_arrival_window (now : Q) (st : State) :
  Forall ready_window (q_curbside (queues st)) ->
  Forall ready_window (q_curbside (queues (body now st))).
Proof.
  intro H.
  destruct (admit_frame hypot log toString36 random_stream now st) as (Fq & _).
  rewrite Fq, admit_route_cases.
  destruct (snd (advice toString36 random_stream now st) >? _)%num;
    [destruct (chooseParkingSpot hypot (spots st) step_entrance) as [[i spot]|]|].
  - unfold park, push. cbn [queues q_curbside set_metrics set_queues set_curbside set_spots counted].
    apply Forall_app. split; [exact H|]. repeat constructor.
  - destruct (fst (advice toString36 random_stream now st)); exact H.
  - destruct (fst (advice toString36 random_stream now st)); exact H.
Qed.

Lemma arrivals_loop_window (fuel : nat) (now : Q) (st st' : State) :
  Forall ready_window (q_curbside (queues st)) -> loop fuel now st = Some st' ->
  Forall ready_window (q_curbside (queues st')).
Proof.
  revert st. induction fuel as [|fuel IH]; intros st Hc; cbn [arrivals_loop];
    destruct (nextArrival st <=? Fin 0)%num; try discriminate.
  - intro H; inversion H; now subst.
  - apply IH. now apply admit_arrival_window.
  - intro H; inversion H; now subst.
Qed.

Lemma reachable_window (st : State) :
  reachable' st -> Forall ready_window (q_curbside (queues st)).
Proof.
  induction 1 as [st|st st' fuel now dt _ IH Hs|st p _ IH].
  - unfold cold_start. destruct (generateSpots random_stream st) as [sp st1].
    destruct (exp log random_stream _ st1) as [gap st2]. constructor.
  - destruct (step_phases hypot log toString36 random_stream _ _ _ _ _ Hs) as (st2 & E & ->).
    apply arrivals_loop_window in E; [|exact IH].
    destruct (served_stages_counts dt now st2) as (_ & _ & _ & _ & _ & Sq & _).
    rewrite <- Sq in E.
    set (s3 := served_stages dt now st2) in *. clearbody s3.
    destruct (maybe_rebalance_frame random_stream
                (record_wip now (curbside_completions random_stream now s3))) as (_ & Fq & _).
    rewrite Fq. destruct (record_wip_frame now (curbside_completions random_stream now s3))
      as (_ & Rq & _).
    rewrite Rq. unfold curbside_completions. apply curbside_loop_window; [|constructor].
    apply Forall_rev. exact E.
  - exact IH.
Qed.

(** X15.  With [Math.random()] in [0, 1), in every state the engine
    reaches from a reset: the ready time of a parked car, once drawn, lies
    at least 4 and less than 10 minutes after its arrival, and every wait
    that the curbside loop of a step records is at least 4 minutes.  These
    samples are the samples of the step but for at most one, that of the
    pickup stage. *)
Theorem curbside_wait_at_least_4 (fuel : nat) (now dt : Q) (st : State) :
  reachable' st ->
  Forall ready_window (q_curbside (queues st))
  /\ Forall (fun w => 4 <= w) (curbside_step_samples' fuel now dt st)
  /\ exists ws, (List.length ws <= 1)%nat
                /\ step_samples hypot log toString36 random_stream fuel now dt st
                   = ws ++ curbside_step_samples' fuel now dt st.
Proof.
  intro Hr. pose proof (reachable_window st Hr) as Hw.
  split; [exact Hw|]. unfold curbside_step_samples, step_samples.
  destruct (loop fuel now _) as [st2|] eqn:E.
  - split.
    + apply arrivals_loop_window in E; [|exact Hw].
      destruct (served_stages_counts dt now st2) as (_ & _ & _ & _ & _ & Sq & _).
      cbv zeta. apply curbside_samples_window. apply Forall_rev. rewrite Sq. exact E.
    + exists (pickup_samples dt now
                (pay_service dt now (order_service dt now LaneB
                                       (order_service dt now LaneA st2)))).
      split; [|reflexivity].
      unfold pickup_samples. destruct (_ && _); [|cbn; lia].
      destruct (_ <=? _)%num; [|cbn; lia].
      destruct (q_pickup _); cbn; lia.
  - split; [constructor|]. exists []. split; [cbn; lia|reflexivity].
Qed.

End CurbsideWindow.

(** ** Termination of [step] in every reachable state *)

Section Returns.

Variable hypot : Q -> Q -> Q.
Variable log : Q -> num.
Variable toString36 : Q -> string.
Variable random_stream : nat -> Q.

(** Every exponential draw [-Math.log(1 - Math.random())] is a finite
    number and at least [delta > 0]. *)
Variable delta : Q.
Hypothesis delta_pos : 0 < delta.
Hypothesis draws_bounded :
  forall n, exists g, JS.neg (log (1 - random_stream n)) = Fin g /\ delta <= g.

Local Abbreviation loop := (arrivals_loop hypot log toString36 random_stream).
Local Abbreviation body := (admit_arrival hypot log toString36 random_stream).
Local Abbreviation step' := (step hypot log toString36 random_stream).
Local Abbreviation reachable' := (reachable hypot log toString36 random_stream).

Lemma exp_counting (rate : Q) (st : State) :
  counting (fst (exp log random_stream rate st)).
Proof.
  unfold exp. destruct (Fin rate <=? Fin 0)%num eqn:E; [now left|].
  cbn [random fst]. destruct (draws_bounded (rng st)) as (g & -> & _).
  right. cbn in E |- *.
  replace (Qeq_bool rate 0) with false; [eauto|].
  symmetry. apply Qeq_bool_false. apply Qle_bool_false in E. lra.
Qed.

Lemma counting_add (x y : num) : counting x -> counting y -> counting (x + y)%num.
Proof. intros [->|(a & ->)] [->|(b & ->)]; cbn; [left|left|left|right]; eauto. Qed.

Lemma admit_arrival_counting (now : Q) (st : State) :
  counting (nextArrival st) -> counting (nextArrival (body now st)).
Proof.
  intro H. unfold admit_arrival.
  destruct (admit_route_untouched hypot toString36 random_stream now st) as (Hn & _).
  pose proof (exp_counting (arrivalRate (params (admit_route hypot toString36 random_stream now st)) / 60)
                (admit_route hypot toString36 random_stream now st)) as Hg.
  assert (Hf : nextArrival (snd (exp log random_stream
                 (arrivalRate (params (admit_route hypot toString36 random_stream now st)) / 60)
                 (admit_route hypot toString36 random_stream now st)))
               = nextArrival (admit_route hypot toString36 random_stream now st)).
  { unfold exp. destruct (_ <=? _)%num; reflexivity. }
  destruct (exp log random_stream _ _) as [gap st2]. cbn [fst snd] in Hg, Hf.
  cbn [nextArrival set_nextArrival]. rewrite Hf, Hn. now apply counting_add.
Qed.

Lemma arrivals_loop_counting (fuel : nat) (now : Q) (st st' : State) :
  counting (nextArrival st) -> loop fuel now st = Some st' -> counting (nextArrival st').
Proof.
  revert st. induction fuel as [|fuel IH]; intros st Hc; cbn [arrivals_loop];
    destruct (nextArrival st <=? Fin 0)%num; try discriminate.
  - intro H; inversion H; now subst.
  - apply IH. now apply admit_arrival_counting.
  - intro H; inversion H; now subst.
Qed.

Lemma reachable_counting (st : State) : reachable' st -> counting (nextArrival st).
Proof.
  induction 1 as [st|st st' fuel now dt _ IH Hs|st p _ IH].
  - unfold cold_start. destruct (generateSpots random_stream st) as [sp st1].
    pose proof (exp_counting (arrivalRate (params st1) / 60) st1) as Hg.
    destruct (exp log random_stream _ st1) as [gap st2]. exact Hg.
  - destruct (step_phases hypot log toString36 random_stream _ _ _ _ _ Hs) as (st2 & E & ->).
    destruct (step_tail_frame random_stream dt now st2) as (_ & _ & Tn & _).
    rewrite Tn.
    apply (arrivals_loop_counting _ _ _ _) in E; [exact E|].
    cbn [nextArrival set_nextArrival].
    destruct IH as [->|(v & ->)]; [left|right]; cbn; eauto.
  - exact IH.
Qed.

(** X16.  When every exponential draw is a finite number of at least some
    [delta > 0], then in every state the engine reaches from a reset the
    arrivals loop ends: [step] returns a state, and the state does not
    depend on the fuel once there is enough of it. *)
Theorem step_always_returns (now dt : Q) (st : State) :
  reachable' st ->
  exists fuel st', forall extra, step' (fuel + extra) now dt st = Some st'.
Proof.
  intro Hr.
  assert (Hn' : nextArrival (set_nextArrival st (nextArrival st - Fin dt)%num) <> NInf).
  { cbn [nextArrival set_nextArrival].
    destruct (reachable_counting st Hr) as [->|(v & ->)]; discriminate. }
  destruct (arrivals_loop_terminates hypot log toString36 random_stream delta delta_pos
              draws_bounded now _ Hn') as (fuel & st2 & E).
  exists fuel. eexists. intro extra. unfold step.
  rewrite (arrivals_loop_more_fuel hypot log toString36 random_stream fuel extra now _ _ E).
  reflexivity.
Qed.

End Returns.

(* ================================================================== *)
(** ** The hook: what [reset()] leaves to a running interval *)

Section HookRuns.

Variable hypot : Q -> Q -> Q.
Variable log : Q -> num.
Variable toString36 : Q -> string.
Variable random_stream : nat -> Q.

Local Abbreviation reachable' := (reachable hypot log toString36 random_stream).
Local Abbreviation tick' := (tick hypot log toString36 random_stream).
Local Abbreviation ticks' := (ticks hypot log toString36 random_stream).
Local Abbreviation reset' := (reset log random_stream).
Local Abbreviation hook_run' := (hook_run hypot log toString36 random_stream).
Local Abbreviation live' := (live hypot log toString36 random_stream).
Local Abbreviation calm' := (calm hypot log toString36 random_stream).
Local Abbreviation since' := (since hypot log toString36 random_stream).

Lemma view_fields (a : Sim) :
  queues (view a) = shown_queues a /\ spots (view a) = shown_spots a
  /\ metrics (view a) = metrics (bound a) /\ params (view a) = params (bound a)
  /\ nextArrival (view a) = nextArrival (bound a).
Proof. unfold view. destruct (bound a); repeat split. Qed.

Lemma view_synced (a : Sim) :
  shown_queues a = queues (bound a) -> shown_spots a = spots (bound a) -> view a = bound a.
Proof. unfold view. intros -> ->. destruct (bound a); reflexivity. Qed.

Lemma view_rebind (a : Sim) : view (rebind a) = view a.
Proof. unfold rebind, view. cbn. destruct (bound a); reflexivity. Qed.

(** [reset()] followed by the effect: the state of a fresh start. *)
Lemma reset_view (a : Sim) : view (reset' a) = cold_start log random_stream (bound a).
Proof.
  unfold reset, cold_start, view.
  destruct (generateSpots random_stream (bound a)) as [sp st1].
  destruct (exp log random_stream _ st1) as [gap st2]. reflexivity.
Qed.

(** [reset()] under a running interval: what the next [step] finds. *)
Lemma reset_bound (a : Sim) :
  queues (bound (reset' a)) = queues (bound a)
  /\ spots (bound (reset' a)) = spots (bound a)
  /\ metrics (bound (reset' a)) = zero_metrics
  /\ params (bound (reset' a)) = params (bound a)
  /\ running (reset' a) = running a
  /\ shown_queues (reset' a) = empty_queues.
Proof.
  unfold reset.
  pose proof (generateSpots_params random_stream (bound a)) as Hp.
  destruct (generateSpots random_stream (bound a)) as [sp st1]. cbn [snd] in Hp.
  pose proof (exp_frame log random_stream (arrivalRate (params st1) / 60) st1)
    as (_ & Hq & _).
  destruct (exp log random_stream _ st1) as [gap st2]. cbn [snd] in Hq.
  cbn. rewrite Hq, Hp. repeat split.
Qed.

Lemma cold_start_metrics (st : State) :
  metrics (cold_start log random_stream st) = zero_metrics.
Proof.
  unfold cold_start.
  destruct (generateSpots random_stream st) as [sp st1].
  destruct (exp log random_stream _ st1) as [gap st2]. reflexivity.
Qed.

Lemma mount_view (st : State) :
  view (mount log random_stream st) = cold_start log random_stream st.
Proof.
  unfold mount, view. cbv zeta. cbn [bound shown_queues shown_spots].
  destruct (cold_start log random_stream st); reflexivity.
Qed.

Lemma tick_cases (fuel : nat) (a a' : Sim) :
  tick' fuel a = Some a' ->
  exists st',
    step hypot log toString36 random_stream fuel (bound_now a) minutesPerTick (bound a)
    = Some st'
    /\ a' = mkSim (running a) st' (bound_now a) (queues st') (spots st')
              (shown_now a + minutesPerTick).
Proof.
  unfold tick. destruct (step _ _ _ _ _ _ _ _) as [st'|]; [|discriminate].
  intro H. inversion H. eauto.
Qed.

Lemma ticks_run (start : Sim -> Prop) (resets : Sim -> bool) (fuel n : nat) (a a' : Sim) :
  hook_run' start resets a -> running a = true -> ticks' fuel n a = Some a' ->
  hook_run' start resets a' /\ running a' = true.
Proof.
  revert a. induction n as [|n IH]; intros a Ha Hr; cbn [ticks].
  - intro H. inversion H. subst. auto.
  - destruct (tick' fuel a) as [a1|] eqn:E; [|discriminate].
    apply IH.
    + eapply hook_tick; eauto.
    + destruct (tick_cases _ _ _ E) as (st' & _ & ->). exact Hr.
Qed.

(** As long as [reset()] is called while paused only, the hook shows a
    state that the engine reaches from a fresh start, and a running
    interval works on the queues and spots shown. *)
Lemma calm_reachable (a : Sim) :
  calm' a ->
  reachable' (view a)
  /\ (running a = true ->
      shown_queues a = queues (bound a) /\ shown_spots a = spots (bound a)).
Proof.
  induction 1 as [a [st ->]|a a' fuel _ IH Hr Ht|a _ IH Hr|a b _ IH|a p _ IH].
  - split; [|discriminate]. rewrite mount_view. apply reach_start.
  - destruct IH as (Hv & Hs). destruct (Hs Hr) as (Sq & Ss).
    rewrite (view_synced a Sq Ss) in Hv.
    destruct (tick_cases _ _ _ Ht) as (st' & Hstep & ->).
    split; [|intros _; split; reflexivity].
    rewrite view_synced by reflexivity. cbn [bound].
    eapply reach_step; eauto.
  - destruct (reset_bound a) as (_ & _ & _ & _ & Hrun & _).
    split; [rewrite reset_view; apply reach_start|].
    intro Hrt. rewrite Hrun in Hrt. rewrite Hrt in Hr. discriminate Hr.
  - destruct IH as (Hv & Hs). unfold setRunning.
    destruct (b && negb (running a)) eqn:E.
    + rewrite view_rebind. split; [exact Hv|].
      intros _. unfold rebind. cbn. destruct (bound a); split; reflexivity.
    + split; [exact Hv|]. cbn [running bound shown_queues shown_spots].
      intros ->. apply Hs. destruct (running a); [reflexivity|discriminate].
  - destruct IH as (Hv & Hs). unfold setParams.
    assert (Hview : view (mkSim (running a) (set_params (bound a) p) (bound_now a)
                            (shown_queues a) (shown_spots a) (shown_now a))
                    = set_params (view a) p).
    { unfold view. cbn. destruct (bound a); reflexivity. }
    destruct (running a) eqn:Hr.
    + rewrite view_rebind, Hview. split; [now apply reach_params|].
      intros _. unfold rebind. cbn. destruct (bound a); split; reflexivity.
    + rewrite Hview. split; [now apply reach_params|]. cbn [running]. congruence.
Qed.

(** X26.  As long as [reset()] is called only while the simulation is
    paused, the hook keeps the books: in every state it reaches from the
    mount (by ticks of the interval, pausing and resuming, parameter
    updates and such resets) the arrivals counter equals the served
    counter plus the number of cars in the five queues it shows, and no
    car object occurs twice in these queues, be it in one queue or in
    two. *)
Theorem engine_conservation (a : Sim) :
  calm' a ->
  arrivals (metrics (bound a))
  = (served (metrics (bound a))
     + (List.length (q_orderA (shown_queues a)) + List.length (q_orderB (shown_queues a))
        + List.length (q_pay (shown_queues a)) + List.length (q_pickup (shown_queues a))
        + List.length (q_curbside (shown_queues a))))%nat
  /\ NoDup (map car_obj
              (q_orderA (shown_queues a) ++ q_orderB (shown_queues a)
               ++ q_pay (shown_queues a) ++ q_pickup (shown_queues a)
               ++ q_curbside (shown_queues a))).
Proof.
  intro H. destruct (calm_reachable a H) as (Hv & _).
  apply reachable_conserved in Hv. destruct Hv as [H1 H2 _].
  destruct (view_fields a) as (Vq & _ & Vm & _).
  rewrite Vq, Vm in H1. rewrite Vq in H2. split; assumption.
Qed.

(** X11.  In every state of the hook the counter [parked] is at most the
    counter of arrivals.  As long as [reset()] is called only while the
    simulation is paused, the number of parked cars still waiting is at
    most [parked], and the counter [served] is at most the counter of
    arrivals. *)
Theorem parked_counters (a : Sim) :
  (live' a -> (parked (metrics (bound a)) <= arrivals (metrics (bound a)))%nat)
  /\ (calm' a ->
      (List.length (q_curbside (shown_queues a)) <= parked (metrics (bound a)))%nat
      /\ (served (metrics (bound a)) <= arrivals (metrics (bound a)))%nat).
Proof.
  split.
  - induction 1 as [a [st ->]|a a' fuel _ IH Hr Ht|a _ IH Hr|a b _ IH|a p _ IH].
    + unfold mount. cbn [bound]. rewrite cold_start_metrics. apply Nat.le_refl.
    + destruct (tick_cases _ _ _ Ht) as (st' & Hstep & ->). cbn [bound].
      eapply step_parked; eauto.
    + destruct (reset_bound a) as (_ & _ & -> & _). apply Nat.le_refl.
    + unfold setRunning. destruct (b && negb (running a)); [|exact IH].
      unfold rebind. cbn [bound running shown_queues shown_spots].
      destruct (view_fields (mkSim b (bound a) (bound_now a) (shown_queues a)
                               (shown_spots a) (shown_now a))) as (_ & _ & -> & _).
      exact IH.
    + unfold setParams. destruct (running a); [|exact IH].
      unfold rebind. cbn [bound running shown_queues shown_spots].
      destruct (view_fields (mkSim true (set_params (bound a) p) (bound_now a)
                               (shown_queues a) (shown_spots a) (shown_now a)))
        as (_ & _ & -> & _).
      exact IH.
  - intro H. destruct (calm_reachable a H) as (Hv & _).
    destruct (reachable_counters _ _ _ _ _ Hv) as (H1 & H2).
    destruct (reachable_conserved _ _ _ _ _ Hv) as [Hc _ _].
    destruct (view_fields a) as (Vq & _ & Vm & _).
    rewrite Vq, Vm in H1, Hc. rewrite Vm in H2. split; [exact H1|lia].
Qed.

(** X10.  When the arrival rate is 0 or less at a [reset()], the countdown
    is set to [Infinity] and stays there: in every state of the hook from
    this call up to the next [reset()] (ticks, pausing and resuming,
    parameter updates, so the rate may be raised again) no car has
    arrived, and the queues shown hold no more cars than the queues of the
    running [step] held at the call; they are empty when the simulation
    was paused at the call. *)
Theorem zero_rate_reset_stalls (a a' : Sim) :
  arrivalRate (params (bound a)) <= 0 ->
  since' (reset' a) a' ->
  nextArrival (bound a') = PInf
  /\ arrivals (metrics (bound a')) = 0%nat
  /\ (wip_of (shown_queues a') <= wip_of (queues (bound a)))%nat
  /\ (running a = false -> wip_of (shown_queues a') = 0%nat).
Proof.
  intros Hrate Hrun.
  assert (H : nextArrival (bound a') = PInf
              /\ arrivals (metrics (bound a')) = 0%nat
              /\ (wip_of (queues (bound a')) <= wip_of (queues (bound a)))%nat
              /\ (wip_of (shown_queues a') <= wip_of (queues (bound a)))%nat
              /\ (running a = false ->
                  wip_of (shown_queues a') = 0%nat
                  /\ (running a' = true -> wip_of (queues (bound a')) = 0%nat))).
  { induction Hrun as [a1 <-|a1 a2 fuel _ IH Hr Ht|a1 _ _ Hr|a1 b _ IH|a1 p _ IH].
    - destruct (reset_bound a) as (Rq & _ & Rm & _ & Rr & Rs).
      rewrite Rq, Rm, Rs, Rr.
      split; [|split; [reflexivity|split; [apply Nat.le_refl|split; [apply Nat.le_0_l|]]]].
      + unfold reset.
        pose proof (generateSpots_params random_stream (bound a)) as Hp.
        destruct (generateSpots random_stream (bound a)) as [sp st1]. cbn [snd] in Hp.
        rewrite Hp, (exp_stalled log random_stream _ st1 Hrate). reflexivity.
      + intros ->. split; [reflexivity|discriminate].
    - destruct IH as (In & Ia & Ib & Is & Ip).
      destruct (tick_cases _ _ _ Ht) as (st' & Hstep & ->).
      cbn [bound shown_queues running].
      destruct (step_stalled _ _ _ _ _ _ _ _ _ In Hstep) as (Hn & Ha).
      pose proof (step_stalled_wip _ _ _ _ _ _ _ _ _ In Hstep) as Hw.
      split; [exact Hn|]. split; [congruence|]. split; [lia|]. split; [lia|].
      intro Hp. destruct (Ip Hp) as (_ & Hz). specialize (Hz Hr).
      split; [lia|intros _; lia].
    - discriminate.
    - destruct IH as (In & Ia & Ib & Is & Ip). unfold setRunning.
      destruct (b && negb (running a1)) eqn:E.
      + unfold rebind. cbn [bound running shown_queues shown_spots].
        destruct (view_fields (mkSim b (bound a1) (bound_now a1) (shown_queues a1)
                                 (shown_spots a1) (shown_now a1)))
          as (Vq & _ & Vm & _ & Vn).
        cbn [bound shown_queues] in Vq, Vm, Vn. rewrite Vq, Vm, Vn.
        split; [exact In|]. split; [exact Ia|]. split; [exact Is|]. split; [exact Is|].
        intro Hp. destruct (Ip Hp) as (Hz & _). split; [exact Hz|intros _; exact Hz].
      + cbn [bound running shown_queues].
        split; [exact In|]. split; [exact Ia|]. split; [exact Ib|]. split; [exact Is|].
        intro Hp. destruct (Ip Hp) as (Hz & Hb). split; [exact Hz|].
        intros ->. apply Hb. destruct (running a1); [reflexivity|discriminate].
    - destruct IH as (In & Ia & Ib & Is & Ip). unfold setParams.
      destruct (running a1) eqn:Hr.
      + unfold rebind. cbn [bound running shown_queues shown_spots].
        destruct (view_fields (mkSim true (set_params (bound a1) p) (bound_now a1)
                                 (shown_queues a1) (shown_spots a1) (shown_now a1)))
          as (Vq & _ & Vm & _ & Vn).
        cbn [bound shown_queues] in Vq, Vm, Vn. rewrite Vq, Vm, Vn.
        split; [exact In|]. split; [exact Ia|]. split; [exact Is|]. split; [exact Is|].
        intro Hp. destruct (Ip Hp) as (Hz & _). split; [exact Hz|intros _; exact Hz].
      + cbn [bound running shown_queues].
        split; [exact In|]. split; [exact Ia|]. split; [exact Ib|]. split; [exact Is|].
        intro Hp. destruct (Ip Hp) as (Hz & _). split; [exact Hz|discriminate]. }
  destruct H as (Hn & Ha & _ & Hs & Hp).
  split; [exact Hn|]. split; [exact Ha|]. split; [exact Hs|].
  intro Hr. now destruct (Hp Hr).
Qed.

End HookRuns.

(** The hook on the concrete host functions: the states of the run. *)
Lemma busy_sim_run (start : Sim -> Prop) (resets : Sim -> bool) :
  start (mount log_pade stream_tenths blank_state) ->
  hook_run hypot_milli log_pade toString36_const stream_tenths start resets busy_sim
  /\ running busy_sim = true.
Proof.
  intro Hs.
  apply (ticks_run hypot_milli log_pade toString36_const stream_tenths start resets
           10 35 started_sim busy_sim).
  - apply (hook_setRunning hypot_milli log_pade toString36_const stream_tenths start resets
             (mount log_pade stream_tenths blank_state) true).
    now apply hook_start.
  - reflexivity.
  - vm_compute; reflexivity.
Qed.

Lemma stale_sim_run :
  tick hypot_milli log_pade toString36_const stream_tenths 10 reset_sim = Some stale_sim
  /\ live hypot_milli log_pade toString36_const stream_tenths stale_sim.
Proof.
  assert (Ht : tick hypot_milli log_pade toString36_const stream_tenths 10 reset_sim
               = Some stale_sim) by (vm_compute; reflexivity).
  split; [exact Ht|].
  destruct (busy_sim_run (mounted log_pade stream_tenths) (fun _ => true)) as (Hb & Hr);
    [exists blank_state; reflexivity|].
  apply (hook_tick hypot_milli log_pade toString36_const stream_tenths
           (mounted log_pade stream_tenths) (fun _ => true) reset_sim stale_sim 10).
  - apply (hook_reset hypot_milli log_pade toString36_const stream_tenths
             (mounted log_pade stream_tenths) (fun _ => true) busy_sim Hb eq_refl).
  - vm_compute; reflexivity.
  - exact Ht.
Qed.

(** C2 fails on the code.  The hook is mounted with the default parameters
    and started; after 35 ticks the first car has arrived and waits in the
    order queue of lane A ([arrivals] 1, [served] 0, one car).  [reset()]
    is called with the interval running: the counters are at 0 and the
    queues shown are empty, but the [step] that the interval calls still
    holds the queue with the car.  At the next tick this car is served
    and the old queues are shown again: [arrivals] is 0, [served] is 1 and
    the queues are empty, so [arrivals] is not [served] plus the number of
    cars in the queues. *)
Theorem reset_while_running_breaks_conservation :
  live hypot_milli log_pade toString36_const stream_tenths stale_sim
  /\ ticks hypot_milli log_pade toString36_const stream_tenths 10 35 started_sim
     = Some busy_sim
  /\ running busy_sim = true
  /\ (arrivals (metrics (bound busy_sim)), served (metrics (bound busy_sim)),
      wip_of (shown_queues busy_sim)) = (1, 0, 1)%nat
  /\ (arrivals (metrics (bound reset_sim)), served (metrics (bound reset_sim)),
      wip_of (shown_queues reset_sim), wip_of (queues (bound reset_sim))) = (0, 0, 0, 1)%nat
  /\ tick hypot_milli log_pade toString36_const stream_tenths 10 reset_sim = Some stale_sim
  /\ (arrivals (metrics (bound stale_sim)), served (metrics (bound stale_sim)),
      wip_of (shown_queues stale_sim)) = (0, 1, 0)%nat
  /\ arrivals (metrics (bound stale_sim))
     <> (served (metrics (bound stale_sim)) + wip_of (shown_queues stale_sim))%nat.
Proof.
  destruct stale_sim_run as (Ht & Hl).
  split; [exact Hl|]. split; [vm_compute; reflexivity|]. split; [vm_compute; reflexivity|].
  split; [vm_compute; reflexivity|]. split; [vm_compute; reflexivity|].
  split; [exact Ht|]. split; [vm_compute; reflexivity|].
  vm_compute. discriminate.
Qed.

(** ** The analytic estimator: range *)

Lemma stable_dec (lam mu : Q) (s : Z) :
  stable lam mu s
  \/ ((s <= 0)%Z \/ mu <= 0 \/ lam < 0 \/ ((0 < s)%Z /\ 0 < mu /\ 1 <= lam / (inject_Z s * mu))).
Proof.
  unfold stable.
  destruct (Z_le_gt_dec s 0); [now right; left|].
  destruct (Qlt_le_dec 0 mu); [|now right; right; left].
  destruct (Qlt_le_dec lam 0); [now right; right; right; left|].
  destruct (Qlt_le_dec (lam / (inject_Z s * mu)) 1).
  - left. repeat split; try assumption; lia.
  - right. right. right. right. repeat split; try assumption; lia.
Qed.

Lemma estimator_unstable (lam mu : Q) (s : Z) :
  (s <= 0)%Z \/ mu <= 0 \/ ((0 < s)%Z /\ 0 < mu /\ 1 <= lam / (inject_Z s * mu)) ->
  erlangC (Fin lam) (Fin mu) s = Fin 1
  /\ expectedWaitMinutes (Fin lam) (Fin mu) s = PInf.
Proof.
  intro H. unfold erlangC, expectedWaitMinutes, of_Z. cbn [JS.leb JS.geb JS.mul].
  destruct H as [H|[H|(Hs & Hmu & H)]].
  - apply inject_Z_le0, Qle_bool_iff in H. rewrite H. split; reflexivity.
  - apply Qle_bool_iff in H. rewrite H, orb_true_r. split; reflexivity.
  - pose proof (inject_Z_pos _ Hs) as Hs'.
    replace (Qle_bool (inject_Z s) 0) with false by (symmetry; now apply Qle_bool_false).
    replace (Qle_bool mu 0) with false by (symmetry; now apply Qle_bool_false).
    cbn [orb].
    assert (Hsm : 0 < inject_Z s * mu) by nra.
    rewrite (div_Fin lam (inject_Z s * mu)) by lra. cbn [JS.leb].
    apply Qle_bool_iff in H. rewrite H. split; reflexivity.
Qed.

Lemma expectedWait_stable (lam mu : Q) (s : Z) (c : Q) :
  stable lam mu s -> erlangC (Fin lam) (Fin mu) s = Fin c ->
  expectedWaitMinutes (Fin lam) (Fin mu) s = Fin (c / (inject_Z s * mu + - lam)).
Proof.
  intros Hst HC. destruct (stable_gap lam mu s Hst) as (Hsm & Hgap).
  destruct Hst as (Hs & Hmu & Hlam & Hrho).
  pose proof (inject_Z_pos s ltac:(lia)) as Hs'.
  unfold expectedWaitMinutes. rewrite HC. unfold of_Z. cbn [JS.leb JS.geb JS.mul].
  replace (Qle_bool (inject_Z s) 0) with false by (symmetry; now apply Qle_bool_false).
  replace (Qle_bool mu 0) with false by (symmetry; now apply Qle_bool_false).
  cbn [orb].
  rewrite (div_Fin lam (inject_Z s * mu)) by lra. cbn [JS.leb].
  replace (Qle_bool 1 (lam / (inject_Z s * mu))) with false
    by (symmetry; now apply Qle_bool_false).
  cbn [JS.sub JS.neg JS.add]. apply div_Fin. lra.
Qed.

Lemma ratio_bounds (top sum : Q) :
  0 <= top -> 1 <= sum ->
  0 <= top * (1 / (sum + top)) /\ top * (1 / (sum + top)) < 1
  /\ (0 < top -> 0 < top * (1 / (sum + top))).
Proof.
  intros Ht Hs.
  assert (Hd : 0 < sum + top) by lra.
  assert (E : top * (1 / (sum + top)) == top / (sum + top)) by (field; lra).
  rewrite E. split; [|split].
  - apply Qle_shift_div_l; lra.
  - apply Qlt_shift_div_r; lra.
  - intro Hp. apply Qlt_shift_div_l; lra.
Qed.

(** X17.  For a rate [lam >= 0], [erlangC] returns a number between 0 and
    1, and it returns less than 1 exactly on the stable inputs (an integer
    [s >= 1], [mu > 0] and [lam / (s * mu) < 1]). *)
Theorem erlangC_probability (lam mu : Q) (s : Z) :
  0 <= lam ->
  exists c, erlangC (Fin lam) (Fin mu) s = Fin c
            /\ 0 <= c /\ c <= 1
            /\ (c < 1 <-> stable lam mu s).
Proof.
  intro Hlam. destruct (stable_dec lam mu s) as [Hst|Hun].
  - destruct (erlangC_stable lam mu s Hst) as (sum & _ & HC & _ & Htop & Hsum).
    cbv zeta in HC, Htop.
    destruct (ratio_bounds _ sum Htop Hsum) as (B1 & B2 & _).
    eexists. split; [exact HC|]. split; [exact B1|]. split; [apply Qlt_le_weak; exact B2|].
    split; [intros _; exact Hst|intros _; exact B2].
  - assert (Hun' : (s <= 0)%Z \/ mu <= 0
                   \/ (0 < s)%Z /\ 0 < mu /\ 1 <= lam / (inject_Z s * mu)).
    { destruct Hun as [H|[H|[H|H]]]; auto. lra. }
    destruct (estimator_unstable lam mu s Hun') as (HC & _).
    exists 1. split; [exact HC|]. split; [lra|]. split; [lra|]. split; [lra|].
    intros (Hs & Hmu & _ & Hrho).
    destruct Hun' as [H|[H|(_ & _ & H)]]; try lia; lra.
Qed.

Lemma expectedWait_cases (lam mu : Q) (s : Z) :
  0 <= lam ->
  (stable lam mu s ->
     exists w, expectedWaitMinutes (Fin lam) (Fin mu) s = Fin w
               /\ 0 <= w /\ (0 < lam -> 0 < w))
  /\ (~ stable lam mu s -> expectedWaitMinutes (Fin lam) (Fin mu) s = PInf).
Proof.
  intro Hlam. split.
  - intro Hst.
    destruct (erlangC_stable lam mu s Hst) as (sum & _ & HC & Hfd & Htop & Hsum).
    cbv zeta in HC, Htop, Hfd.
    destruct (stable_gap lam mu s Hst) as (Hsm & Hgap).
    set (top := Qpow_nat (lam / mu) (Z.to_nat s)
                / (inject_Z (fact s) * (1 + - (lam / (inject_Z s * mu))))) in *.
    destruct (ratio_bounds top sum Htop Hsum) as (B1 & B2 & B3).
    eexists. split; [exact (expectedWait_stable lam mu s _ Hst HC)|].
    split.
    + apply Qle_shift_div_l; lra.
    + intro Hpos. apply Qlt_shift_div_l; [lra|]. rewrite Qmult_0_l. apply B3.
      unfold top. apply Qlt_shift_div_l; [exact Hfd|]. rewrite Qmult_0_l.
      apply Qpow_nat_pos. destruct Hst as (_ & Hmu & _).
      apply Qlt_shift_div_l; lra.
  - intro Hn. destruct (stable_dec lam mu s) as [Hst|Hun]; [contradiction|].
    apply estimator_unstable. destruct Hun as [H|[H|[H|H]]]; auto. lra.
Qed.

(** X18.  For a rate [lam >= 0], [expectedWaitMinutes] returns a number
    that is not negative on the stable inputs (positive when [lam > 0])
    and [Infinity] on all other inputs: never NaN, never a negative
    number. *)
Theorem expectedWait_range (lam mu : Q) (s : Z) :
  0 <= lam ->
  (stable lam mu s ->
     exists w, expectedWaitMinutes (Fin lam) (Fin mu) s = Fin w
               /\ 0 <= w /\ (0 < lam -> 0 < w))
  /\ (~ stable lam mu s -> expectedWaitMinutes (Fin lam) (Fin mu) s = PInf)
  /\ is_nan (expectedWaitMinutes (Fin lam) (Fin mu) s) = false
  /\ (expectedWaitMinutes (Fin lam) (Fin mu) s <? Fin 0)%num = false.
Proof.
  intro Hlam. destruct (expectedWait_cases lam mu s Hlam) as (Hs & Hu).
  split; [exact Hs|]. split; [exact Hu|].
  destruct (stable_dec lam mu s) as [Hst|Hun].
  - destruct (Hs Hst) as (w & -> & Hw & _). split; [reflexivity|].
    cbn. apply Qltb_ge. exact Hw.
  - rewrite Hu; [split; reflexivity|].
    intros (H1 & H2 & H3 & H4). destruct Hun as [H|[H|[H|(_ & _ & H)]]]; try lia; lra.
Qed.

(** ** [fact] *)

(** X19.  [fact(n)] is [n!] for every natural number [n], it is 1 for
    every [n < 2] (negative numbers included), and
    [fact(n) = n * fact(n - 1)] from 2 on. *)
Theorem fact_values (n : Z) :
  ((0 <= n)%Z -> fact n = Z.of_nat (Factorial.fact (Z.to_nat n)))
  /\ ((n < 2)%Z -> fact n = 1%Z)
  /\ ((2 <= n)%Z -> fact n = (n * fact (n - 1))%Z).
Proof.
  assert (H0 : forall k, (0 <= k)%Z -> fact k = Z.of_nat (Factorial.fact (Z.to_nat k))).
  { intros k Hk. rewrite <- (Z2Nat.id k) at 1 by assumption. apply fact_spec. }
  split; [apply H0|]. split.
  - intro H. unfold fact. replace (Z.to_nat (n - 1)) with 0%nat by lia. reflexivity.
  - intro H. rewrite !H0 by lia.
    replace (Z.to_nat n) with (S (Z.to_nat (n - 1))) by lia.
    cbn [Factorial.fact]. lia.
Qed.

(** ** Lane advisor: what decides the lane *)

Lemma ltb_asym (x y : num) : (x <? y)%num = true -> (y <? x)%num = false.
Proof.
  destruct x as [a| | |], y as [b| | |]; cbn; try reflexivity; try discriminate.
  intro H. apply Qltb_lt in H. apply Qltb_ge. lra.
Qed.

Lemma ltb_le_trans (x y z : num) :
  delay_like x -> delay_like y -> delay_like z ->
  (y <? x)%num = true -> (y <? z)%num = false -> (z <? x)%num = true.
Proof.
  intros [->|(a & -> & Ha)] [->|(b & -> & Hb)] [->|(c & -> & Hc)]; cbn;
    try reflexivity; try discriminate.
  intros H1 H2. apply Qltb_lt in H1. apply Qltb_ge in H2. apply Qltb_lt. lra.
Qed.

Lemma sub_gtb (x y : num) :
  delay_like x -> delay_like y -> ((x - y)%num >? Fin 0)%num = (y <? x)%num.
Proof.
  intros [->|(a & -> & Ha)] [->|(b & -> & Hb)]; cbn; try reflexivity.
  destruct (Qltb b a) eqn:E.
  - apply Qltb_lt. apply Qltb_lt in E. lra.
  - apply Qltb_ge. apply Qltb_ge in E. lra.
Qed.

Lemma lane_total_compare (dA dB dP dK : num) (m : bool) :
  delay_like dA -> delay_like dB -> delay_like dP -> delay_like dK ->
  (dB * Fin (mobileFactor m) + dP + dK <? dA * Fin (mobileFactor m) + dP + dK)%num
  = (dB <? dA)%num && negb (is_nan (dP - dP)%num) && negb (is_nan (dK - dK)%num).
Proof.
  intros [->|(a & -> & Ha)] [->|(b & -> & Hb)] [->|(c & -> & Hc)] [->|(d & -> & Hd)];
    destruct m; cbn; try reflexivity; rewrite ?andb_true_r, ?andb_false_r; try reflexivity.
  all: destruct (Qltb b a) eqn:E.
  all: try (apply Qltb_lt; apply Qltb_lt in E; lra).
  all: try (apply Qltb_ge; apply Qltb_ge in E; lra).
Qed.

(** X20.  In exact arithmetic (the three delays and their sum taken
    without rounding), [chooseBestLane] returns lane B exactly when the
    order delay of lane B is strictly below that of lane A and neither the
    pay delay nor the pickup delay is infinite.  So, in exact arithmetic,
    the lane does not depend on whether the order is a mobile one, and
    with the same number of order servers on both lanes, lane B is
    returned only when its order queue is strictly shorter.  (On binary64
    numbers each sum is rounded, and where the two order delays are close
    the rounded totals can compare differently.) *)
Theorem chooseBestLane_order_delay (sys : Sys) (m : bool) :
  (fst (chooseBestLane sys m) = LaneB
   <-> (order_delay sys LaneB <? order_delay sys LaneA)%num = true
       /\ pay_delay sys <> PInf /\ pickup_delay sys <> PInf)
  /\ fst (chooseBestLane sys true) = fst (chooseBestLane sys false)
  /\ (orderServersA (sys_params sys) = orderServersB (sys_params sys) ->
      fst (chooseBestLane sys m) = LaneB ->
      (List.length (q_orderB (sys_queues sys)) < List.length (q_orderA (sys_queues sys)))%nat).
Proof.
  assert (Hiff : forall m',
    fst (chooseBestLane sys m') = LaneB
    <-> (order_delay sys LaneB <? order_delay sys LaneA)%num = true
        /\ pay_delay sys <> PInf /\ pickup_delay sys <> PInf).
  { intro m'. rewrite chooseBestLane_unfold. unfold lane_total.
    fold (order_delay sys LaneA) (order_delay sys LaneB) (pay_delay sys) (pickup_delay sys).
    rewrite lane_total_compare by apply predictedQueueTime_delay.
    destruct (predictedQueueTime_delay (List.length (q_pay (sys_queues sys)))
                (payRate (sys_params sys)) (payServers (sys_params sys)))
      as [EP|(c & EP & _)];
    destruct (predictedQueueTime_delay (List.length (q_pickup (sys_queues sys)))
                (pickupRate (sys_params sys)) (pickupServers (sys_params sys)))
      as [EK|(d & EK & _)];
    fold (pay_delay sys) in EP; fold (pickup_delay sys) in EK; rewrite EP, EK;
    destruct (order_delay sys LaneB <? order_delay sys LaneA)%num; cbn;
    (split;
     [intro H; try discriminate H; repeat split; discriminate
     |intros (H0 & H1 & H2); try reflexivity; try discriminate H0;
      try (exfalso; apply H1; reflexivity); try (exfalso; apply H2; reflexivity)]). }
  split; [apply Hiff|]. split.
  - destruct (fst (chooseBestLane sys true)) eqn:E1;
      destruct (fst (chooseBestLane sys false)) eqn:E2; try reflexivity.
    + apply (proj1 (Hiff false)) in E2. apply (proj2 (Hiff true)) in E2. congruence.
    + apply (proj1 (Hiff true)) in E1. apply (proj2 (Hiff false)) in E1. congruence.
  - intros Hsrv HB. apply Hiff in HB. destruct HB as (Hlt & _).
    unfold order_delay in Hlt. cbn [order_queue orderServers] in Hlt. rewrite <- Hsrv in Hlt.
    set (r := orderRate (sys_params sys)) in *.
    set (s := orderServersA (sys_params sys)) in *.
    destruct (Qlt_le_dec 0 r) as [Hr|Hr];
      [destruct (Z_lt_le_dec 0 s) as [Hs|Hs]|].
    + rewrite !predictedQueueTime_ratio in Hlt by assumption. cbn in Hlt.
      apply Qltb_lt in Hlt.
      pose proof (inject_Z_pos _ Hs) as Hs'.
      assert (Hrs : 0 < r * inject_Z s) by nra.
      apply (Qmult_lt_r _ _ _ Hrs) in Hlt.
      setoid_replace (inject_Z (Z.of_nat (List.length (q_orderB (sys_queues sys))))
                      / (r * inject_Z s) * (r * inject_Z s))
        with (inject_Z (Z.of_nat (List.length (q_orderB (sys_queues sys))))) in Hlt
        by (field; lra).
      setoid_replace (inject_Z (Z.of_nat (List.length (q_orderA (sys_queues sys))))
                      / (r * inject_Z s) * (r * inject_Z s))
        with (inject_Z (Z.of_nat (List.length (q_orderA (sys_queues sys))))) in Hlt
        by (field; lra).
      rewrite <- Zlt_Qlt in Hlt. lia.
    + rewrite !predictedQueueTime_degenerate in Hlt by (now right). discriminate.
    + rewrite !predictedQueueTime_degenerate in Hlt by (now left). discriminate.
Qed.

(** ** Rebalancer: which stage gives and which receives *)

Lemma util_delay (q : nat) (rate : Q) (s : Z) : 0 <= rate -> delay_like (util q rate s).
Proof.
  intro Hr. unfold util. destruct (of_Z s >? Fin 0)%num eqn:E; [|now left].
  right. unfold of_Z, of_nat in *. cbn in E. apply Qltb_lt in E.
  assert (Hd : 0 < rate * inject_Z s + (1 # 1000000)) by nra.
  cbn. replace (Qeq_bool (rate * inject_Z s + (1 # 1000000)) 0) with false
    by (symmetry; apply Qeq_bool_false; lra).
  eexists. split; [reflexivity|].
  pose proof (inject_Z_nonneg (Z.of_nat q) (Nat2Z.is_nonneg q)).
  apply Qle_shift_div_l; lra.
Qed.

Section StableSort.

Context {A : Type} (key : A -> num).

Local Abbreviation cmp := (fun a b : A => (key b - key a)%num).

Lemma before_grow (input : list A) (x a b : A) :
  before input a b -> before (input ++ [x]) a b.
Proof.
  intros (l1 & l2 & -> & Ha & Hb). exists l1, (l2 ++ [x]).
  rewrite app_assoc. repeat split; [assumption|]. apply in_or_app. now left.
Qed.

Lemma before_last (input : list A) (x a : A) : In a input -> before (input ++ [x]) a x.
Proof. intro H. exists input, [x]. repeat split; [assumption|now left]. Qed.

Lemma sorted_before_grow (input : list A) (x a b : A) :
  sorted_before key input a b -> sorted_before key (input ++ [x]) a b.
Proof. intros (H1 & [H2|H2]); split; auto. right. now apply before_grow. Qed.

Lemma sort_insert_sorted (input : list A) (x : A) (acc : list A) :
  delay_like (key x) -> Forall (fun a => delay_like (key a)) acc ->
  Forall (fun a => In a input) acc ->
  StronglySorted (sorted_before key input) acc ->
  StronglySorted (sorted_before key (input ++ [x])) (sort_insert cmp x acc).
Proof.
  intros Hx. induction acc as [|y l IH]; intros Hd Hin Hs; cbn [sort_insert].
  - repeat constructor.
  - inversion Hd as [|? ? Hy Hd']; subst. inversion Hin as [|? ? Hyin Hin']; subst.
    apply StronglySorted_inv in Hs. destruct Hs as (Hs & Hall).
    rewrite (sub_gtb (key x) (key y) Hx Hy).
    assert (Htail : StronglySorted (sorted_before key (input ++ [x])) (y :: l)).
    { constructor.
      - clear IH. induction Hs; constructor.
        + inversion Hd'; inversion Hin'; inversion Hall; subst. auto.
        + eapply Forall_impl; [|eassumption]. intros b. apply sorted_before_grow.
      - eapply Forall_impl; [|exact Hall]. intros b. apply sorted_before_grow. }
    destruct (key y <? key x)%num eqn:E.
    + constructor; [exact Htail|]. constructor.
      * split; [now apply ltb_asym|now left].
      * rewrite Forall_forall in Hall, Hd' |- *. intros z Hz.
        destruct (Hall z Hz) as (Hyz & _).
        pose proof (ltb_le_trans (key x) (key y) (key z) Hx Hy (Hd' z Hz) E Hyz) as Hzx.
        split; [now apply ltb_asym|now left].
    + constructor.
      * apply IH; assumption.
      * rewrite Forall_forall in Hall |- *. intros w Hw.
        apply (Permutation_in _ (sort_insert_perm cmp x l)) in Hw. destruct Hw as [<-|Hw].
        -- split; [exact E|]. right. now apply before_last.
        -- apply sorted_before_grow. now apply Hall.
Qed.

(** On keys that are non-negative numbers or [Infinity], the sort leaves
    the elements in descending order of their keys, and elements with
    equal keys in the order in which they came. *)
Lemma js_sort_sorted (l : list A) :
  Forall (fun a => delay_like (key a)) l ->
  StronglySorted (sorted_before key l) (js_sort cmp l).
Proof.
  unfold js_sort.
  assert (G : forall rest pre acc,
    Forall (fun a => delay_like (key a)) rest ->
    Forall (fun a => delay_like (key a)) acc ->
    Forall (fun a => In a pre) acc ->
    StronglySorted (sorted_before key pre) acc ->
    StronglySorted (sorted_before key (pre ++ rest))
      (fold_left (fun a x => sort_insert cmp x a) rest acc)).
  { induction rest as [|x rest IH]; intros pre acc Hr Ha Hin Hs; cbn [fold_left].
    - now rewrite app_nil_r.
    - inversion Hr as [|? ? Hx Hr']; subst.
      replace (pre ++ x :: rest) with ((pre ++ [x]) ++ rest) by now rewrite <- app_assoc.
      apply IH; [assumption| | |].
      + rewrite Forall_forall in Ha |- *. intros w Hw.
        apply (Permutation_in _ (sort_insert_perm cmp x acc)) in Hw.
        destruct Hw as [<-|Hw]; auto.
      + rewrite Forall_forall in Hin |- *. intros w Hw.
        apply (Permutation_in _ (sort_insert_perm cmp x acc)) in Hw.
        apply in_or_app. destruct Hw as [<-|Hw]; [right; now left|left; auto].
      + now apply sort_insert_sorted. }
  intro H. apply (G l [] []); auto. constructor.
Qed.

Lemma sorted_middle (R : A -> A -> Prop) (l1 l2 : list A) (x : A) :
  StronglySorted R (l1 ++ x :: l2) -> forall a, In a l1 -> R a x.
Proof.
  induction l1 as [|y l1 IH]; intros Hs a Ha; [destruct Ha|].
  cbn in Hs. apply StronglySorted_inv in Hs. destruct Hs as (Hs & Hall).
  destruct Ha as [<-|Ha]; [|now apply IH].
  rewrite Forall_forall in Hall. apply Hall. apply in_or_app. right. now left.
Qed.

End StableSort.

Lemma pressure_entries (sys : Sys) :
  pressure sys = map (fun n => (n, stage_pressure sys n)) [orderA; orderB; pay; pickup].
Proof. reflexivity. Qed.

Lemma stage_pressure_delay (sys : Sys) (name : Stage) :
  rates_nonneg (sys_params sys) -> delay_like (stage_pressure sys name).
Proof. intros (H1 & H2 & H3). destruct name; now apply util_delay. Qed.

Lemma entry_pressure (sys : Sys) (e : Stage * num) :
  In e (sorted_entries sys) -> snd e = stage_pressure sys (fst e).
Proof.
  intro H. apply (Permutation_in _ (js_sort_perm _ _)) in H.
  rewrite pressure_entries in H. apply in_map_iff in H. destruct H as (n & <- & _).
  reflexivity.
Qed.

Lemma before_pressure (sys : Sys) (a b : Stage * num) :
  before (pressure sys) a b -> (stage_index (fst a) < stage_index (fst b))%nat.
Proof.
  intros (l1 & l2 & E & Ha & Hb). rewrite pressure_entries in E. cbn [map] in E.
  destruct l1 as [|a1 [|a2 [|a3 [|a4 [|a5 l1]]]]]; cbn in E, Ha;
    try contradiction; inversion E; subst; clear E;
    cbn in Hb; intuition (subst; cbn; try lia; try contradiction).
Qed.

Lemma sorted_entries_sorted (sys : Sys) :
  rates_nonneg (sys_params sys) ->
  StronglySorted (sorted_before snd (pressure sys)) (sorted_entries sys).
Proof.
  intro Hr. apply (js_sort_sorted snd). rewrite pressure_entries.
  apply Forall_forall. intros e He. apply in_map_iff in He. destruct He as (n & <- & _).
  now apply stage_pressure_delay.
Qed.

Lemma rebalance_loop_first (h : Stage) (names : list Stage) (p p' : Params) (from to : Stage) :
  rebalance_loop h names p = (Some (from, to), p') ->
  exists l1 l2, names = l1 ++ from :: l2
                /\ forall n, In n l1 -> n = h \/ (stage_get p n <= 1)%Z.
Proof.
  induction names as [|name rest IH]; cbn [rebalance_loop]; [discriminate|].
  destruct (Stage_eqb name h) eqn:Eh.
  - intro H. destruct (IH H) as (l1 & l2 & -> & Hl). exists (name :: l1), l2.
    split; [reflexivity|]. intros n [<-|Hn]; [left; now apply Stage_eqb_eq|auto].
  - unfold stage_min. destruct (1 <? stage_get p name)%Z eqn:Eg.
    + intro H. inversion H; subst. exists [], rest. split; [reflexivity|]. intros n [].
    + intro H. destruct (IH H) as (l1 & l2 & -> & Hl). exists (name :: l1), l2.
      split; [reflexivity|]. intros n [<-|Hn]; [right; lia|auto].
Qed.

(** X21.  With service rates that are not negative: the stage that
    [rebalanceServers] calls hottest has the highest pressure, and it is
    the first such stage in the order A, B, pay, pickup; when a server is
    moved, the stage that gives it has the lowest pressure among the
    stages other than the hottest that have more than one server, and it
    is the last such stage in that order. *)
Theorem rebalance_hot_and_cold (sys : Sys) :
  rates_nonneg (sys_params sys) ->
  let P := stage_pressure sys in
  (forall name,
      (P (hottest_of sys) <? P name)%num = false
      /\ ((stage_index name < stage_index (hottest_of sys))%nat ->
          (P name <? P (hottest_of sys))%num = true))
  /\ (forall from to p',
        rebalanceServers sys = (Some (from, to), p') ->
        forall name,
          name <> to -> (1 < stage_get (sys_params sys) name)%Z ->
          (P name <? P from)%num = false
          /\ ((stage_index from < stage_index name)%nat -> (P from <? P name)%num = true)).
Proof.
  intros Hr P. pose proof (sorted_entries_sorted sys Hr) as Hs.
  split.
  - intro name. destruct (sorted_entries_hottest sys) as (v & rest & E).
    pose proof (sorted_entries_names sys name) as Hn.
    apply in_map_iff in Hn. destruct Hn as (e & <- & He).
    pose proof (entry_pressure sys e He) as Ee.
    assert (Eh : v = P (hottest_of sys)).
    { apply (entry_pressure sys (hottest_of sys, v)). rewrite E. now left. }
    rewrite E in Hs, He. apply StronglySorted_inv in Hs. destruct Hs as (_ & Hall).
    destruct He as [<-|He].
    + cbn [fst]. split; [apply ltb_irrefl|lia].
    + rewrite Forall_forall in Hall. destruct (Hall e He) as (H1 & H2).
      cbn [snd] in H1, H2. rewrite Ee, Eh in H1, H2. fold P in H1, H2.
      split; [exact H1|]. intro Hlt. destruct H2 as [H2|H2]; [exact H2|].
      apply before_pressure in H2. cbn [fst] in H2. lia.
  - intros from to p' H name Hne Hgt. rewrite rebalanceServers_unfold in H.
    pose proof (rebalance_loop_some _ _ _ _ _ _ H) as (-> & _).
    destruct (rebalance_loop_first _ _ _ _ _ _ H) as (l1 & l2 & E & Hl1).
    pose proof (sorted_entries_names sys name) as Hn.
    apply in_rev in Hn. rewrite E in Hn. apply in_app_or in Hn.
    destruct Hn as [Hn|[<-|Hn]].
    + destruct (Hl1 name Hn) as [?|?]; [contradiction|lia].
    + split; [apply ltb_irrefl|lia].
    + apply (f_equal (@rev Stage)) in E. rewrite rev_involutive, rev_app_distr in E.
      cbn [rev] in E. rewrite <- app_assoc in E. cbn [app] in E.
      apply map_eq_app in E. destruct E as (E2 & E1' & Es & EE2 & EE1).
      apply map_eq_cons in EE1. destruct EE1 as (ef & E1 & -> & Ef & _).
      rewrite Es in Hs.
      apply in_rev in Hn. rewrite <- EE2 in Hn. apply in_map_iff in Hn.
      destruct Hn as (e & Ee & He).
      destruct (sorted_middle _ _ _ _ Hs e He) as (H1 & H2).
      assert (Ie : In e (sorted_entries sys)) by (rewrite Es; apply in_or_app; now left).
      assert (If : In ef (sorted_entries sys))
        by (rewrite Es; apply in_or_app; right; now left).
      rewrite (entry_pressure sys e Ie), (entry_pressure sys ef If) in H1, H2.
      rewrite Ee, Ef in H1, H2. fold P in H1, H2.
      split; [exact H1|]. intro Hlt. destruct H2 as [H2|H2]; [exact H2|].
      apply before_pressure in H2. rewrite Ee, Ef in H2. lia.
Qed.

(** ** The advice panel *)

Lemma eta_cases (len : nat) (rate : Q) (servers : Z) :
  (saturated len rate servers /\ App.eta len rate servers = PInf)
  \/ (~ saturated len rate servers
      /\ exists w, App.eta len rate servers = Fin w /\ 0 < w).
Proof.
  unfold App.eta. cbn [JS.add of_nat].
  set (lam := inject_Z (Z.of_nat len) + 1).
  assert (Hlam : 0 < lam).
  { unfold lam. pose proof (inject_Z_nonneg (Z.of_nat len) ltac:(lia)). lra. }
  destruct (expectedWait_cases lam rate servers ltac:(lra)) as (Hs & Hu).
  destruct (stable_dec lam rate servers) as [Hst|Hun].
  - right. destruct (Hs Hst) as (w & Ew & _ & Hw). split.
    + destruct Hst as (H1 & H2 & _ & H4). pose proof (inject_Z_pos servers ltac:(lia)) as Hp.
      assert (Hsm : 0 < inject_Z servers * rate) by nra.
      intros [H|[H|H]]; try lia; try lra.
      apply (Qmult_lt_r _ _ _ Hsm) in H4.
      assert (E : lam / (inject_Z servers * rate) * (inject_Z servers * rate) == lam)
        by (field; lra).
      rewrite E in H4. fold lam in H. lra.
    + exists w. split; [exact Ew|]. now apply Hw.
  - left. split.
    + destruct Hun as [H|[H|[H|(H1 & H2 & H3)]]].
      * now left.
      * right; now left.
      * lra.
      * right; right. fold lam.
        pose proof (inject_Z_pos servers H1) as Hp.
        assert (Hsm : 0 < inject_Z servers * rate) by nra.
        apply (Qmult_le_r _ _ _ Hsm) in H3.
        assert (E : lam / (inject_Z servers * rate) * (inject_Z servers * rate) == lam)
          by (field; lra).
        rewrite E in H3. lra.
    + apply Hu. intros (H1 & H2 & _ & H4).
      destruct Hun as [H|[H|[H|(_ & _ & H)]]]; try lia; lra.
Qed.

(** What [x || 0] makes of an [eta]: [Infinity] or a positive number. *)
Lemma or_zero_eta (len : nat) (rate : Q) (servers : Z) :
  (saturated len rate servers /\ or_zero (App.eta len rate servers) = PInf)
  \/ (~ saturated len rate servers
      /\ exists w, or_zero (App.eta len rate servers) = Fin w /\ 0 < w).
Proof.
  destruct (eta_cases len rate servers) as [(H & ->)|(H & w & -> & Hw)].
  - left. split; [exact H|reflexivity].
  - right. split; [exact H|]. exists w. split; [|exact Hw].
    cbn. replace (Qeq_bool w 0) with false; [reflexivity|].
    symmetry. apply Qeq_bool_false. lra.
Qed.

(** X22.  The panel takes the queue length plus one as the arrival rate
    of a stage.  Whenever this is not below the capacity [servers * rate]
    of the pay stage, of the pickup stage, or of both order lanes, both
    estimates of the panel are [Infinity] and the advice is "Divert to
    curbside", whatever the threshold. *)
Theorem advise_saturated (q : Queues) (p : Params) :
  saturated (List.length (q_pay q)) (payRate p) (payServers p)
  \/ saturated (List.length (q_pickup q)) (pickupRate p) (pickupServers p)
  \/ (saturated (List.length (q_orderA q)) (orderRate p) (orderServersA p)
      /\ saturated (List.length (q_orderB q)) (orderRate p) (orderServersB p)) ->
  App.etaA q p = PInf /\ App.etaB q p = PInf
  /\ App.advise q p = "Divert to curbside"%string.
Proof.
  intro H.
  assert (E : App.etaA q p = PInf /\ App.etaB q p = PInf).
  { unfold App.etaA, App.etaB, App.etaOrderA, App.etaOrderB, App.etaPay, App.etaPickup.
    destruct (or_zero_eta (List.length (q_orderA q)) (orderRate p) (orderServersA p))
      as [(SA & ->)|(SA & a & -> & _)];
    destruct (or_zero_eta (List.length (q_orderB q)) (orderRate p) (orderServersB p))
      as [(SB & ->)|(SB & b & -> & _)];
    destruct (or_zero_eta (List.length (q_pay q)) (payRate p) (payServers p))
      as [(SP & ->)|(SP & c & -> & _)];
    destruct (or_zero_eta (List.length (q_pickup q)) (pickupRate p) (pickupServers p))
      as [(SK & ->)|(SK & d & -> & _)];
    try (split; reflexivity);
    exfalso; destruct H as [H|[H|(H1 & H2)]]; contradiction. }
  destruct E as (EA & EB). split; [exact EA|]. split; [exact EB|].
  unfold App.advise. rewrite EA, EB. reflexivity.
Qed.

(** X23.  With order queues of the same length and the same number of
    order servers on both lanes, the engine's advisor sends the car to
    lane A, and the panel never shows "Use lane A": it shows "Divert to
    curbside" or "Use lane B". *)
Theorem advise_tie (q : Queues) (p : Params) (isMobile : bool) :
  List.length (q_orderA q) = List.length (q_orderB q) ->
  orderServersA p = orderServersB p ->
  fst (chooseBestLane (mkSys q p) isMobile) = LaneA
  /\ (App.advise q p = "Divert to curbside"%string
      \/ App.advise q p = "Use lane B"%string).
Proof.
  intros Hlen Hsrv. split.
  - unfold chooseBestLane. cbn [lane_loop].
    assert (E : lane_total (mkSys q p) isMobile LaneB = lane_total (mkSys q p) isMobile LaneA).
    { unfold lane_total. cbn [order_queue orderServers sys_queues sys_params].
      now rewrite Hlen, Hsrv. }
    rewrite E. set (t := lane_total (mkSys q p) isMobile LaneA).
    destruct (t <? PInf)%num eqn:T.
    + now rewrite ltb_irrefl.
    + reflexivity.
  - unfold App.advise.
    assert (E : App.etaB q p = App.etaA q p).
    { unfold App.etaA, App.etaB, App.etaOrderA, App.etaOrderB. now rewrite Hlen, Hsrv. }
    rewrite E, ltb_irrefl.
    destruct (_ >? _)%num; [now left|now right].
Qed.

(** ** The animation *)

Lemma clamp_range (v a b : Q) : a <= b -> a <= clamp v a b /\ clamp v a b <= b.
Proof.
  intro H. unfold clamp. split.
  - apply Q.le_max_l.
  - apply Q.max_lub; [assumption|apply Q.le_min_l].
Qed.

Lemma lerp_between (a b t lo hi : Q) :
  lo <= a -> a <= hi -> lo <= b -> b <= hi -> 0 <= t -> t <= 1 ->
  lo <= lerp a b t /\ lerp a b t <= hi.
Proof.
  intros. unfold lerp.
  assert (E : a + (b - a) * t == (1 - t) * a + t * b) by ring.
  rewrite E. split; nra.
Qed.

Lemma lanes_length (L : Lane) : List.length (lanes L) = 11%nat.
Proof. destruct L; reflexivity. Qed.

Lemma lanes_on_canvas (L : Lane) : Forall on_canvas (lanes L).
Proof.
  destruct L; repeat constructor; cbn; unfold Qle; cbn; lia.
Qed.

(** The wrap-around loop ends after [k] rounds when [k <= t < k + 1]. *)
Lemma wrap_loop_closed (k : nat) (len : nat) (t : Q) (seg : nat) (extra : nat) :
  inject_Z (Z.of_nat k) <= t -> t < inject_Z (Z.of_nat k) + 1 ->
  exists t',
    wrap_loop (k + extra) len t seg
    = Some (t', match k with O => seg | S _ => ((seg + k) mod len)%nat end)
    /\ t' == t - inject_Z (Z.of_nat k).
Proof.
  revert t seg. induction k as [|k IH]; intros t seg H1 H2.
  - cbn [Nat.add]. change (inject_Z (Z.of_nat 0)) with 0 in *.
    assert (E : Qle_bool 1 t = false) by (apply Qle_bool_false; lra).
    exists t. split; [|ring].
    destruct extra; cbn [wrap_loop]; now rewrite E.
  - rewrite inject_nat_S in H1, H2.
    pose proof (inject_Z_nonneg (Z.of_nat k) (Nat2Z.is_nonneg k)) as Hk.
    assert (E : Qle_bool 1 t = true) by (apply Qle_bool_iff; lra).
    cbn [Nat.add wrap_loop]. rewrite E.
    destruct (IH (t - 1) ((seg + 1) mod len)%nat) as (t' & Ew & Et); [lra|lra|].
    exists t'. split.
    + rewrite Ew. f_equal. f_equal. destruct k as [|k'].
      * reflexivity.
      * rewrite Nat.Div0.add_mod_idemp_l. f_equal. lia.
    + rewrite Et, inject_nat_S. ring.
Qed.

Lemma segPoint_on_canvas (L : Lane) (seg : nat) (t : Q) :
  (seg < 11)%nat -> 0 <= t -> t <= 1 ->
  exists pt, segPoint (lanes L) seg t = Some pt /\ on_canvas pt.
Proof.
  intros Hseg H0 H1. unfold segPoint. rewrite lanes_length.
  assert (Hnext : ((seg + 1) mod 11 < 11)%nat) by (apply Nat.mod_upper_bound; lia).
  destruct (nth_error (lanes L) seg) as [a|] eqn:Ea;
    [|apply nth_error_None in Ea; rewrite lanes_length in Ea; lia].
  destruct (nth_error (lanes L) ((seg + 1) mod 11)) as [b|] eqn:Eb;
    [|apply nth_error_None in Eb; rewrite lanes_length in Eb; lia].
  eexists. split; [reflexivity|].
  pose proof (lanes_on_canvas L) as Hall. rewrite Forall_forall in Hall.
  destruct (Hall a (nth_error_In _ _ Ea)) as (A1 & A2 & A3 & A4).
  destruct (Hall b (nth_error_In _ _ Eb)) as (B1 & B2 & B3 & B4).
  unfold on_canvas. cbn [fst snd].
  destruct (lerp_between (fst a) (fst b) t 0 1) as (X1 & X2); try assumption.
  destruct (lerp_between (snd a) (snd b) t 0 1) as (Y1 & Y2); try assumption.
  auto.
Qed.

Lemma frame_dt_range (ts last : Q) :
  last <= ts -> 0 <= frame_dt ts last /\ frame_dt ts last <= 5 # 100.
Proof.
  intro H. unfold frame_dt. split.
  - apply Q.min_glb; [lra|]. apply Qle_shift_div_l; lra.
  - apply Q.le_min_l.
Qed.

Section AnimationFacts.

Variable toString36 : Q -> string.
Variable random_stream : nat -> Q.
Hypothesis unit_draws : unit_stream random_stream.

Lemma stepCar_on_lane (dt : Q) (c : AnimCar) (n : nat) (extra : nat) :
  0 <= dt -> on_lane c ->
  exists c' pt n',
    stepCar random_stream
      (Z.to_nat (Qfloor (anim_t c + dt * anim_speed c)) + extra) dt c n
    = Some (c', Some pt, n')
    /\ on_lane c' /\ on_canvas pt /\ anim_lane c' = anim_lane c.
Proof.
  intros Hdt (Hseg & Ht0 & Ht1 & Hs0 & Hs1). unfold stepCar.
  rewrite lanes_length in *.
  set (t1 := anim_t c + dt * anim_speed c).
  assert (Ht1' : 0 <= t1) by (unfold t1; nra).
  assert (Hfl : (0 <= Qfloor t1)%Z).
  { change 0%Z with (Qfloor 0). now apply Qfloor_resp_le. }
  set (k := Z.to_nat (Qfloor t1)).
  assert (Ek : inject_Z (Z.of_nat k) = inject_Z (Qfloor t1))
    by (unfold k; now rewrite Z2Nat.id).
  destruct (wrap_loop_closed k 11 t1 (anim_seg c) extra) as (t' & -> & Et).
  { rewrite Ek. apply Qfloor_le. }
  { rewrite Ek. pose proof (Qlt_floor t1) as H. rewrite inject_Z_plus in H. exact H. }
  set (seg' := match k with O => anim_seg c | S _ => ((anim_seg c + k) mod 11)%nat end).
  assert (Hseg' : (seg' < 11)%nat).
  { unfold seg'. destruct k; [assumption|apply Nat.mod_upper_bound; lia]. }
  assert (Ht' : 0 <= t' /\ t' < 1).
  { rewrite Et, Ek. pose proof (Qfloor_le t1). pose proof (Qlt_floor t1) as H1.
    rewrite inject_Z_plus in H1. change (inject_Z 1) with 1 in H1. split; lra. }
  destruct (segPoint_on_canvas (anim_lane c) seg' t' Hseg') as (pt & -> & Hpt); try lra.
  destruct (Qltb (random_stream n) (2 # 100)).
  - do 3 eexists. split; [reflexivity|]. split; [|split; [exact Hpt|reflexivity]].
    unfold on_lane. cbn [anim_seg anim_t anim_speed anim_lane]. rewrite lanes_length.
    destruct (clamp_range (anim_speed c
                + rand (- (2 # 100)) (2 # 100) (random_stream (S n))) (8 # 100) (28 # 100))
      as (C1 & C2); [lra|].
    repeat split; try assumption; lra.
  - do 3 eexists. split; [reflexivity|]. split; [|split; [exact Hpt|reflexivity]].
    unfold on_lane. cbn [anim_seg anim_t anim_speed anim_lane]. rewrite lanes_length.
    repeat split; try assumption; lra.
Qed.

(** X24.  One frame of the animation, [ts] not before the last frame:
    [stepCars] ends (one round of the wrap-around loop is enough), every
    car that was on its lane (segment index in range, [0 <= t < 1], speed
    between 0.08 and 0.28) is so afterwards, on the same lane, and is
    drawn at a point inside the canvas. *)
Theorem frame_keeps_cars_on_canvas (ts last : Q) (cars : list AnimCar) (n extra : nat) :
  last <= ts -> Forall on_lane cars ->
  exists cars' pts n',
    stepCars random_stream (1 + extra) (frame_dt ts last) cars n
    = Some (cars', map Some pts, n')
    /\ Forall on_lane cars' /\ Forall on_canvas pts
    /\ map anim_lane cars' = map anim_lane cars
    /\ List.length pts = List.length cars.
Proof.
  intros Hts. destruct (frame_dt_range ts last Hts) as (D0 & D1).
  set (dt := frame_dt ts last) in *. clearbody dt.
  revert n. induction cars as [|c rest IH]; intros n Hall.
  - exists [], [], n. repeat split; constructor.
  - inversion Hall as [|? ? Hc Hrest]; subst.
    pose proof Hc as (Hseg & Ht0 & Ht1 & Hs0 & Hs1).
    assert (Hk : (Z.to_nat (Qfloor (anim_t c + dt * anim_speed c)) <= 1)%nat).
    { assert (Hlt : anim_t c + dt * anim_speed c < 2) by nra.
      assert (Hz : (Qfloor (anim_t c + dt * anim_speed c) < 2)%Z).
      { rewrite Zlt_Qlt. eapply Qle_lt_trans; [apply Qfloor_le|exact Hlt]. }
      lia. }
    destruct (stepCar_on_lane dt c n
                (1 - Z.to_nat (Qfloor (anim_t c + dt * anim_speed c)) + extra) D0 Hc)
      as (c' & pt & n1 & E & Hc' & Hpt & Hl).
    replace (Z.to_nat (Qfloor (anim_t c + dt * anim_speed c))
             + (1 - Z.to_nat (Qfloor (anim_t c + dt * anim_speed c)) + extra))%nat
      with (1 + extra)%nat in E by lia.
    destruct (IH n1 Hrest) as (cs & pts & n2 & Es & Hcs & Hpts & Hls & Hlen).
    exists (c' :: cs), (pt :: pts), n2.
    cbn [stepCars Nat.add]. cbn [Nat.add] in E, Es. rewrite E, Es.
    split; [reflexivity|]. split; [now constructor|]. split; [now constructor|].
    split; [cbn [map]; now rewrite Hl, Hls|cbn; now rewrite Hlen].
Qed.

Lemma init_cars_loop_on_lane (count i : nat) (arr : list AnimCar) (n : nat) :
  Forall (fun c => on_lane c /\ at_start c) arr ->
  let cars := fst (init_cars_loop toString36 random_stream count i arr n) in
  Forall (fun c => on_lane c /\ at_start c) cars
  /\ map anim_lane cars
     = map anim_lane arr
       ++ map (fun j => if (j mod 2 =? 0)%nat then LaneA else LaneB) (seq i count).
Proof.
  revert i arr n. induction count as [|count IH]; intros i arr n Harr; cbn [init_cars_loop].
  - cbn [fst seq map]. rewrite app_nil_r. split; [assumption|reflexivity].
  - unfold init_car.
    set (c := mkAnimCar _ _ _ _ _ _).
    assert (Hc : on_lane c /\ at_start c).
    { unfold on_lane, at_start, c.
      cbn [anim_seg anim_t anim_speed anim_lane anim_color]. rewrite lanes_length.
      destruct (unit_draws (S n)) as (A0 & A1). destruct (unit_draws (S (S n))) as (B0 & B1).
      destruct (rand_range (12 # 100) (22 # 100) (random_stream (S (S n)))) as (R0 & R1 & R2);
        try assumption; try lra.
      assert (R3 : rand (12 # 100) (22 # 100) (random_stream (S (S n))) < 22 # 100)
        by (apply R2; reflexivity).
      repeat split; try assumption; try lia; try lra. }
    destruct (IH (S i) (push arr c) (S (S (S n)))) as (H1 & H2).
    { apply Forall_app. split; [assumption|]. constructor; [exact Hc|constructor]. }
    cbv zeta in H1, H2 |- *. split; [exact H1|].
    rewrite H2. unfold push. rewrite map_app, <- app_assoc. cbn [map app seq].
    reflexivity.
Qed.

(** X25.  With [Math.random()] in [0, 1), the animation starts with 34
    cars, alternately on lane A and on lane B, each on segment 0 of its
    lane with [0 <= t < 1], a speed from 0.12 up to (and below) 0.22 and
    the colour of its lane; so each is on its lane in the sense of the
    frame update.  Three random numbers are drawn for each car. *)
Theorem init_cars_on_lane (n : nat) :
  let cars := fst (init_cars toString36 random_stream n) in
  List.length cars = 34%nat
  /\ Forall on_lane cars
  /\ map anim_lane cars
     = map (fun j => if (j mod 2 =? 0)%nat then LaneA else LaneB) (seq 0 34)
  /\ snd (init_cars toString36 random_stream n) = (n + 102)%nat
  /\ Forall (fun c => anim_seg c = 0%nat
                      /\ 0 <= anim_t c /\ anim_t c < 1
                      /\ 12 # 100 <= anim_speed c /\ anim_speed c < 22 # 100
                      /\ anim_color c = match anim_lane c with
                                        | LaneA => "#22c55e"%string
                                        | LaneB => "#22d3ee"%string
                                        end) cars.
Proof.
  destruct (init_cars_loop_on_lane 34 0 [] n (Forall_nil _)) as (H1 & H2).
  cbv zeta in H1, H2 |- *. fold (init_cars toString36 random_stream n) in H1, H2.
  split; [|split; [|split; [exact H2|split]]].
  - rewrite <- (length_map anim_lane), H2. reflexivity.
  - eapply Forall_impl; [|exact H1]. intros c [Hc _]. exact Hc.
  - unfold init_cars. cbn. lia.
  - eapply Forall_impl; [|exact H1]. intros c [_ Hc]. exact Hc.
Qed.

End AnimationFacts.

(* ================================================================== *)
(** * The properties on concrete inputs *)

Lemma estimator_degenerate_witness :
  erlangC (Fin 10) (Fin 1) 1 = Fin 1 /\ expectedWaitMinutes (Fin 10) (Fin 1) 1 = PInf.
Proof.
  apply estimator_degenerate. right; right. reflexivity.
Defined.

Lemma erlangC_is_formula_witness :
  stable (1 # 2) 1 2
  /\ (erlangC (Fin (1 # 2)) (Fin 1) 2 ~= Fin (erlangC_formula (1 # 2) 1 2))%num.
Proof.
  assert (H : stable (1 # 2) 1 2).
  { unfold stable, Qlt, Qle; simpl; lia. }
  split; [exact H | apply (erlangC_is_formula (1 # 2) 1 2 H)].
Defined.

Lemma expectedWait_half_decreasing_witness :
  exists w w' : Q,
    expectedWaitMinutes (Fin (1 # 2)) (Fin 1) 1 = Fin w
    /\ expectedWaitMinutes (Fin (1 # 2)) (Fin 1) 3 = Fin w'
    /\ 0 < w' /\ w' < w.
Proof.
  apply (proj1 (proj2 (proj2 expectedWait_half_decreasing)) 1%Z 3%Z).
  - unfold stable, Qlt, Qle; simpl; lia.
  - lia.
Defined.

Lemma running_average_is_mean_witness :
  (served (fold_left recordCompletion [1; 3; 8] zero_metrics) = 3%nat
   /\ avgWait (fold_left recordCompletion [1; 3; 8] zero_metrics) == mean [1; 3; 8])
  /\ (served (metrics second_step_state)
      = List.length (([] ++ first_step_samples) ++ second_step_samples)
      /\ avgWait (metrics second_step_state)
         == mean (([] ++ first_step_samples) ++ second_step_samples)).
Proof.
  split.
  - apply (proj1 (proj2 (running_average_is_mean hypot_milli log_pade toString36_const
                           stream_tenths)) [1; 3; 8]).
    discriminate.
  - assert (H : recorded hypot_milli log_pade toString36_const stream_tenths
                  second_step_state (([] ++ first_step_samples) ++ second_step_samples)).
    { apply (rec_step _ _ _ _ first_step_state ([] ++ first_step_samples) _ 10%nat 6 2).
      - apply (rec_step _ _ _ _ (cold_start log_pade stream_tenths blank_state) [] _ 10%nat 4 3).
        + apply rec_start.
        + vm_compute; reflexivity.
      - vm_compute; reflexivity. }
    destruct (proj2 (proj2 (running_average_is_mean hypot_milli log_pade
                              toString36_const stream_tenths)) _ _ H) as [Hn Hm].
    split; [exact Hn|]. apply Hm. vm_compute. discriminate.
Defined.

Lemma chooseBestLane_lower_total_witness :
  predictedQueueTime 3 0 1 = PInf
  /\ predictedQueueTime 3 (8 # 10) 2 = Fin (inject_Z 3 / ((8 # 10) * inject_Z 2))
  /\ fst (chooseBestLane (mkSys empty_queues default_params) true) = LaneA
  /\ chooseBestLane sys_two true = chooseBestLane sys_one true.
Proof.
  destruct (chooseBestLane_lower_total (mkSys empty_queues default_params) true)
    as (_ & Hinf & Hratio & _ & _ & _ & Htie & _).
  destruct (chooseBestLane_lower_total sys_one true)
    as (_ & _ & _ & _ & _ & _ & _ & _ & Hsame).
  split; [|split; [|split]].
  - apply Hinf. left. unfold Qle; simpl; lia.
  - apply Hratio; [unfold Qlt; simpl; lia | lia].
  - apply Htie. reflexivity.
  - apply Hsame. repeat split.
Defined.

Lemma chooseBestLane_all_infinite_witness :
  (chooseBestLane (mkSys empty_queues jammed_params) false = (LaneA, PInf)
   /\ forall threshold : Q,
        (snd (chooseBestLane (mkSys empty_queues jammed_params) false) >? Fin threshold)%num
        = true)
  /\ chooseBestLane (mkSys (sys_queues sys_one) jammed_params) true = (LaneA, PInf).
Proof.
  split.
  - apply (proj1 (chooseBestLane_all_infinite (mkSys empty_queues jammed_params) false));
      reflexivity.
  - apply (proj1 (proj2 (chooseBestLane_all_infinite
                           (mkSys (sys_queues sys_one) jammed_params) true))).
    left. unfold Qle; simpl; lia.
Defined.

Lemma rebalance_conserves_total_witness :
  (total_servers (snd (rebalanceServers (mkSys empty_queues spare_params)))
   = total_servers spare_params
   /\ staffed (snd (rebalanceServers (mkSys empty_queues spare_params))))
  /\ rebalanceServers (mkSys empty_queues default_params) = (None, default_params).
Proof.
  split.
  - destruct (proj1 (rebalance_conserves_total (mkSys empty_queues spare_params))
                orderB orderA (snd (rebalanceServers (mkSys empty_queues spare_params)))
                eq_refl) as (Ht & _ & _ & _ & _ & _ & Hs).
    split; [exact Ht|]. apply Hs.
    intros []; unfold stage_min; simpl; lia.
  - apply (proj2 (rebalance_conserves_total (mkSys empty_queues default_params))).
    intros [] _; simpl; lia.
Defined.

Lemma chooseParkingSpot_minimal_witness :
  (exists s, chooseParkingSpot hypot_milli small_lot
               (Some (mkOpts (Some side_entrance) (Some plain_w))) = Some (3%nat, s)
             /\ nth_error small_lot 3 = Some s
             /\ occupied s = false /\ reserved s = false
             /\ forall s', nth_error small_lot 2 = Some s' ->
                  (spot_score hypot_milli side_entrance plain_w s'
                   <? spot_score hypot_milli side_entrance plain_w s)%num = false)
  /\ chooseParkingSpot hypot_milli full_lot
       (Some (mkOpts (Some side_entrance) (Some plain_w))) = None
  /\ (exists s, chooseParkingSpot hypot_milli small_lot None = Some (2%nat, s)).
Proof.
  split; [|split].
  - eexists. split; [reflexivity|].
    destruct (chooseParkingSpot_minimal hypot_milli small_lot side_entrance plain_w)
      as (_ & Hsome & _).
    destruct (Hsome 3%nat _ eq_refl) as (Hn & (Ho & Hr) & _ & Hmin).
    split; [exact Hn|]. split; [exact Ho|]. split; [exact Hr|].
    intros s' Hs'. apply (Hmin 2%nat s' Hs'); inversion Hs'; split; reflexivity.
  - destruct (chooseParkingSpot_minimal hypot_milli full_lot side_entrance plain_w)
      as (_ & _ & _ & Hfin & _).
    apply (proj2 (Hfin (fun s _ _ =>
             finite_weights_score hypot_milli side_entrance plain_w 2 0 0 1 s eq_refl))).
    intros s [<- | [<- | []]]; [left | right]; reflexivity.
  - eexists. reflexivity.
Defined.


Lemma engine_conservation_witness :
  calm hypot_milli log_pade toString36_const stream_tenths busy_sim
  /\ arrivals (metrics (bound busy_sim))
     = (served (metrics (bound busy_sim))
        + (List.length (q_orderA (shown_queues busy_sim))
           + List.length (q_orderB (shown_queues busy_sim))
           + List.length (q_pay (shown_queues busy_sim))
           + List.length (q_pickup (shown_queues busy_sim))
           + List.length (q_curbside (shown_queues busy_sim))))%nat.
Proof.
  destruct (busy_sim_run (mounted log_pade stream_tenths) (fun a => negb (running a)))
    as (H & _); [exists blank_state; reflexivity|].
  split; [exact H|].
  exact (proj1 (engine_conservation hypot_milli log_pade toString36_const stream_tenths
                  busy_sim H)).
Defined.

(* ================================================================== *)
(** * The further properties on concrete inputs *)

Lemma stream_tenths_unit : unit_stream stream_tenths.
Proof.
  intro n. unfold stream_tenths.
  assert (H : (0 <= Z.of_nat ((7 * n + 3) mod 10) < 10)%Z).
  { pose proof (Nat.mod_upper_bound (7 * n + 3) 10). lia. }
  split.
  - apply Qle_shift_div_l; [reflexivity|]. rewrite Qmult_0_l.
    change 0 with (inject_Z 0). rewrite <- Zle_Qle. lia.
  - apply Qlt_shift_div_r; [reflexivity|]. rewrite Qmult_1_l.
    change 10 with (inject_Z 10). rewrite <- Zlt_Qlt. lia.
Qed.

Lemma first_step_runs :
  step hypot_milli log_pade toString36_const stream_tenths 10 4 3 initial_state
  = Some first_step_state.
Proof. vm_compute; reflexivity. Qed.

Lemma parked_state_runs :
  step hypot_milli log_pade toString36_const stream_tenths 10 4 3
    (set_params initial_state jammed_params)
  = Some parked_state.
Proof. vm_compute; reflexivity. Qed.

Lemma parked_state_reachable :
  reachable hypot_milli log_pade toString36_const stream_tenths parked_state.
Proof.
  apply (reach_step _ _ _ _ (set_params initial_state jammed_params) _ 10%nat 4 3).
  - apply reach_params. unfold initial_state. apply reach_start.
  - exact parked_state_runs.
Qed.

Lemma first_step_reachable :
  reachable hypot_milli log_pade toString36_const stream_tenths first_step_state.
Proof.
  apply (reach_step _ _ _ _ initial_state _ 10%nat 4 3).
  - unfold initial_state. apply reach_start.
  - exact first_step_runs.
Qed.

Lemma fresh_spot_generated : In fresh_spot (fst (generateSpots stream_tenths blank_state)).
Proof. vm_compute. left. reflexivity. Qed.

Lemma generateSpots_layout_witness :
  In fresh_spot (fst (generateSpots stream_tenths blank_state))
  /\ reserved fresh_spot = true /\ spot_x fresh_spot <= 84.
Proof.
  destruct (generateSpots_layout stream_tenths blank_state fresh_spot fresh_spot_generated)
    as (_ & Hx & _ & _ & _ & _ & Hr).
  split; [exact fresh_spot_generated|]. split; [|exact Hx].
  apply Hr. left. reflexivity.
Defined.

Lemma generateSpots_congestion_witness :
  unit_stream stream_tenths
  /\ In fresh_spot (fst (generateSpots stream_tenths blank_state))
  /\ localCongestion fresh_spot < 6 # 10.
Proof.
  split; [exact stream_tenths_unit|]. split; [exact fresh_spot_generated|].
  exact (proj2 (generateSpots_congestion stream_tenths blank_state fresh_spot
                  stream_tenths_unit fresh_spot_generated)).
Defined.

Lemma curbside_spots_exclusive_witness :
  reachable hypot_milli log_pade toString36_const stream_tenths parked_state
  /\ List.length (q_curbside (queues parked_state)) = 3%nat
  /\ NoDup (map parkingSpotId (q_curbside (queues parked_state))).
Proof.
  split; [exact parked_state_reachable|]. split; [vm_compute; reflexivity|].
  exact (proj1 (curbside_spots_exclusive hypot_milli log_pade toString36_const stream_tenths
                  parked_state parked_state_reachable)).
Defined.

Lemma park_then_release_witness :
  exists s, nth_error small_lot 2 = Some s
            /\ occupied s = false
            /\ release_spot (spot_id s) (occupy_at 2 true small_lot) = small_lot.
Proof.
  eexists. split; [reflexivity|]. split; [reflexivity|].
  apply park_then_release; [|reflexivity|reflexivity].
  unfold small_lot. cbn [map spot_id].
  repeat constructor; cbn; intuition discriminate.
Defined.

Lemma reserved_spots_never_used_witness :
  reachable hypot_milli log_pade toString36_const stream_tenths parked_state
  /\ Forall (fun car => parkingSpotId car <> Some "S1"%string
                        /\ parkingSpotId car <> Some "S2"%string)
       (q_curbside (queues parked_state)).
Proof.
  split; [exact parked_state_reachable|].
  apply Forall_forall.
  exact (proj2 (proj2 (reserved_spots_never_used hypot_milli log_pade toString36_const
                         stream_tenths parked_state parked_state_reachable))).
Defined.

Lemma parked_counters_witness :
  (live hypot_milli log_pade toString36_const stream_tenths stale_sim
   /\ (parked (metrics (bound stale_sim)) <= arrivals (metrics (bound stale_sim)))%nat)
  /\ (calm hypot_milli log_pade toString36_const stream_tenths busy_sim
      /\ (List.length (q_curbside (shown_queues busy_sim))
          <= parked (metrics (bound busy_sim)))%nat
      /\ (served (metrics (bound busy_sim)) <= arrivals (metrics (bound busy_sim)))%nat).
Proof.
  split.
  - destruct stale_sim_run as (_ & H). split; [exact H|].
    exact (proj1 (parked_counters hypot_milli log_pade toString36_const stream_tenths
                    stale_sim) H).
  - destruct (busy_sim_run (mounted log_pade stream_tenths) (fun a => negb (running a)))
      as (H & _); [exists blank_state; reflexivity|].
    split; [exact H|].
    exact (proj2 (parked_counters hypot_milli log_pade toString36_const stream_tenths
                    busy_sim) H).
Defined.

Lemma step_queue_discipline_witness :
  run_step 10 4 3 initial_state = Some first_step_state
  /\ exists new k,
       fifo k new (q_pay (queues initial_state)) (q_pay (queues first_step_state))
       /\ ((payServers (params initial_state) <= 0)%Z -> k = 0%nat)
       /\ (List.length new <= 2)%nat
       /\ Forall (fun c => progress_order c = Some 4) new.
Proof.
  split; [vm_compute; reflexivity|].
  exact (proj1 (proj2 (step_queue_discipline hypot_milli log_pade toString36_const
                         stream_tenths 10%nat 4 3 initial_state first_step_state
                         first_step_runs))).
Defined.

Lemma step_keeps_staff_witness :
  run_step 10 4 3 initial_state = Some first_step_state
  /\ total_servers (params first_step_state) = total_servers (params initial_state)
  /\ rates_of (params first_step_state) = rates_of (params initial_state).
Proof.
  destruct (step_keeps_staff hypot_milli log_pade toString36_const stream_tenths
              10%nat 4 3 initial_state first_step_state first_step_runs) as (H1 & H2 & _).
  split; [vm_compute; reflexivity|]. split; [exact H1|exact H2].
Defined.

Lemma step_records_history_witness :
  run_step 10 4 3 initial_state = Some first_step_state
  /\ history (metrics first_step_state)
     = history (metrics initial_state)
       ++ [mkHistoryEntry 4 (wip_of (queues first_step_state))
             (avgWait (metrics first_step_state))].
Proof.
  split; [vm_compute; reflexivity|].
  exact (proj1 (step_records_history hypot_milli log_pade toString36_const stream_tenths
                  10%nat 4 3 initial_state first_step_state first_step_runs)).
Defined.

Lemma history_watermark_witness :
  reachable hypot_milli log_pade toString36_const stream_tenths first_step_state
  /\ last (map h_wip (history (metrics first_step_state))) 0%nat
     = wip_of (queues first_step_state).
Proof.
  split; [exact first_step_reachable|].
  exact (proj1 (proj2 (history_watermark hypot_milli log_pade toString36_const stream_tenths
                         first_step_state first_step_reachable))).
Defined.

Lemma step_admits_iff_witness :
  run_step 10 4 3 initial_state = Some first_step_state
  /\ (arrivals (metrics initial_state) < arrivals (metrics first_step_state))%nat.
Proof.
  split; [vm_compute; reflexivity|].
  apply (proj2 (proj1 (proj2 (step_admits_iff hypot_milli log_pade toString36_const
                                stream_tenths 10%nat 4 3 initial_state first_step_state
                                first_step_runs)))).
  vm_compute; reflexivity.
Defined.

Lemma zero_rate_reset_stalls_witness :
  arrivalRate (params (bound idle_sim)) <= 0
  /\ nextArrival (bound idle_next_sim) = PInf
  /\ arrivals (metrics (bound idle_next_sim)) = 0%nat
  /\ (wip_of (shown_queues idle_next_sim) <= wip_of (queues (bound idle_sim)))%nat.
Proof.
  assert (H : arrivalRate (params (bound idle_sim)) <= 0)
    by (vm_compute; discriminate).
  split; [exact H|].
  destruct (zero_rate_reset_stalls hypot_milli log_pade toString36_const stream_tenths
              idle_sim idle_next_sim H) as (H1 & H2 & H3 & _).
  - apply (hook_tick hypot_milli log_pade toString36_const stream_tenths
             (eq (reset log_pade stream_tenths idle_sim)) (fun _ => false)
             (reset log_pade stream_tenths idle_sim) idle_next_sim 10).
    + now apply hook_start.
    + vm_compute; reflexivity.
    + vm_compute; reflexivity.
  - split; [exact H1|]. split; [exact H2|exact H3].
Defined.

Lemma step_always_returns_witness :
  exists fuel st',
    forall extra,
      step hypot_milli log_pade toString36_const (fun _ => 1 # 2) (fuel + extra) 4 3
        (cold_start log_pade (fun _ => 1 # 2) blank_state)
      = Some st'.
Proof.
  apply (step_always_returns hypot_milli log_pade toString36_const (fun _ => 1 # 2) (2 # 3)).
  - reflexivity.
  - intro n. eexists. split; [vm_compute; reflexivity | unfold Qle; simpl; lia].
  - apply reach_start.
Defined.

Lemma curbside_still_waiting_witness :
  run_step 10 4 3 (set_params initial_state jammed_params) = Some parked_state
  /\ Forall (waiting 4) (q_curbside (queues parked_state)).
Proof.
  split; [vm_compute; reflexivity|].
  exact (curbside_still_waiting hypot_milli log_pade toString36_const stream_tenths
           10%nat 4 3 (set_params initial_state jammed_params) parked_state
           parked_state_runs).
Defined.

Lemma curbside_wait_at_least_4_witness :
  unit_stream stream_tenths
  /\ reachable hypot_milli log_pade toString36_const stream_tenths parked_state
  /\ Forall ready_window (q_curbside (queues parked_state))
  /\ Forall (fun w => 4 <= w)
       (curbside_step_samples hypot_milli log_pade toString36_const stream_tenths
          10 10 1 parked_state).
Proof.
  destruct (curbside_wait_at_least_4 hypot_milli log_pade toString36_const stream_tenths
              stream_tenths_unit 10%nat 10 1 parked_state parked_state_reachable)
    as (H1 & H2 & _).
  split; [exact stream_tenths_unit|]. split; [exact parked_state_reachable|].
  split; [exact H1|exact H2].
Defined.

Lemma erlangC_probability_witness :
  exists c, erlangC (Fin (1 # 2)) (Fin 1) 2 = Fin c
            /\ 0 <= c /\ c <= 1 /\ (c < 1 <-> stable (1 # 2) 1 2).
Proof.
  apply erlangC_probability. unfold Qle; simpl; lia.
Defined.

Lemma expectedWait_range_witness :
  0 <= 3
  /\ is_nan (expectedWaitMinutes (Fin 3) (Fin 1) 2) = false
  /\ (expectedWaitMinutes (Fin 3) (Fin 1) 2 <? Fin 0)%num = false.
Proof.
  assert (H : 0 <= 3) by (unfold Qle; simpl; lia).
  split; [exact H|]. exact (proj2 (proj2 (expectedWait_range 3 1 2 H))).
Defined.

Lemma rebalance_hot_and_cold_witness :
  rates_nonneg (sys_params (mkSys empty_queues spare_params))
  /\ (stage_pressure (mkSys empty_queues spare_params)
        (hottest_of (mkSys empty_queues spare_params))
      <? stage_pressure (mkSys empty_queues spare_params) pickup)%num = false.
Proof.
  assert (H : rates_nonneg (sys_params (mkSys empty_queues spare_params))).
  { unfold rates_nonneg, Qle; simpl; lia. }
  split; [exact H|].
  exact (proj1 (proj1 (rebalance_hot_and_cold (mkSys empty_queues spare_params) H) pickup)).
Defined.

Lemma advise_saturated_witness :
  saturated (List.length (q_pickup empty_queues)) (pickupRate default_params)
    (pickupServers default_params)
  /\ App.advise empty_queues default_params = "Divert to curbside"%string.
Proof.
  assert (H : saturated (List.length (q_pickup empty_queues)) (pickupRate default_params)
                (pickupServers default_params)).
  { right. right. unfold Qle; simpl; lia. }
  split; [exact H|].
  apply (advise_saturated empty_queues default_params). right. left. exact H.
Defined.

Lemma advise_tie_witness :
  fst (chooseBestLane (mkSys empty_queues default_params) true) = LaneA
  /\ (App.advise empty_queues default_params = "Divert to curbside"%string
      \/ App.advise empty_queues default_params = "Use lane B"%string).
Proof.
  apply (advise_tie empty_queues default_params true); reflexivity.
Defined.

Lemma init_cars_on_lane_witness :
  unit_stream stream_tenths
  /\ List.length (fst (init_cars toString36_const stream_tenths 0)) = 34%nat
  /\ Forall on_lane (fst (init_cars toString36_const stream_tenths 0))
  /\ Forall (fun c => anim_seg c = 0%nat /\ 12 # 100 <= anim_speed c < 22 # 100)
       (fst (init_cars toString36_const stream_tenths 0)).
Proof.
  destruct (init_cars_on_lane toString36_const stream_tenths stream_tenths_unit 0)
    as (H1 & H2 & _ & _ & H5).
  split; [exact stream_tenths_unit|]. split; [exact H1|]. split; [exact H2|].
  eapply Forall_impl; [|exact H5]. intros c (A & _ & _ & B & C & _). auto.
Defined.

Lemma frame_keeps_cars_on_canvas_witness :
  1000 <= 1050
  /\ on_lane anim_car_one
  /\ exists cars' pts n',
       stepCars stream_tenths (1 + 0) (frame_dt 1050 1000) [anim_car_one] 0
       = Some (cars', map Some pts, n')
       /\ Forall on_lane cars' /\ Forall on_canvas pts
       /\ map anim_lane cars' = map anim_lane [anim_car_one]
       /\ List.length pts = List.length [anim_car_one].
Proof.
  assert (Ht : 1000 <= 1050) by (unfold Qle; simpl; lia).
  assert (Hc : on_lane anim_car_one).
  { unfold on_lane, anim_car_one, Qle, Qlt; simpl. repeat split; lia. }
  split; [exact Ht|]. split; [exact Hc|].
  apply (frame_keeps_cars_on_canvas stream_tenths 1050 1000
           [anim_car_one] 0 0 Ht).
  constructor; [exact Hc|constructor].
Defined.
